(** * pymaid.morpho: morphology algorithms on neuron skeletons

    A shallow embedding of the tree algorithms of [pymaid/morpho.py]
    (Strahler ordering, pruning, confidence propagation, flow centrality,
    bending flow, stitching, segregation index), of [neuron2nx] and
    [_find_all_paths] of [pymaid/graph.py] and of [_eval_conditions] of
    [pymaid/utils.py], together with the properties they are expected to
    satisfy.

    Conventions.
    - A pandas table is the list of its rows, in table order.
    - A Python [dict] keyed by treenode ids is a [gmap Z _]; a failed
      subscript raises [KeyError].
    - Python integers are [Z]; node coordinates are integers (nanometres).
    - A computation either returns, raises, or is cut off by the fuel that
      bounds its [while] loops and its recursion: [Ok], [Raise], [OutOfFuel]. *)

From Stdlib Require Import ZArith QArith Lia String List.
From Stdlib Require Reals Lra.
From stdpp Require Import gmap strings list.

Open Scope Z_scope.

(** ** Outcomes *)

Inductive exn :=
| KeyError | TypeError | ValueError | IndexError
| UnboundLocalError | ZeroDivisionError.

Inductive res (A : Type) :=
| Ok (a : A)
| Raise (e : exn)
| OutOfFuel.

Arguments Ok {A} a.
Arguments Raise {A} e.
Arguments OutOfFuel {A}.

Notation "'let!' x ':=' e 'in' k" :=
  (match e with
   | Ok x => k
   | Raise err => Raise err
   | OutOfFuel => OutOfFuel
   end)
  (at level 10, x pattern, e at level 100, k at level 200, only parsing).

(** [d[k]] on a dict. *)
Definition getitem {V} (d : gmap Z V) (k : Z) : res V :=
  match d !! k with
  | Some v => Ok v
  | None => Raise KeyError
  end.

(** [[f(a) for a in l]], stopping at the first exception. *)
Fixpoint for_list {A B} (f : A → res B) (l : list A) : res (list B) :=
  match l with
  | [] => Ok []
  | a :: l' =>
      let! b := f a in
      let! bs := for_list f l' in
      Ok (b :: bs)
  end.

(** [for a in l: s = body(s, a)]. *)
Fixpoint for_each {S A} (body : S → A → res S) (s : S) (l : list A) : res S :=
  match l with
  | [] => Ok s
  | a :: l' =>
      let! s' := body s a in
      for_each body s' l'
  end.

(** ** Data model *)

Inductive node_type := root | slab | branch | end_node.

Global Instance node_type_eq_dec : EqDecision node_type.
Proof. solve_decision. Defined.

(** A row of [neuron.nodes].  [type] is the column written by
    [classify_nodes], which the algorithms read.  [node_strahler_index] is
    the value of the derived column [strahler_index] ([None] is pandas'
    missing value); whether that column exists at all is recorded in the
    neuron.  A root has [parent_id = None]. *)
Record Node := {
  treenode_id : Z;
  parent_id : option Z;
  node_x : Z;
  node_y : Z;
  node_z : Z;
  radius : Z;
  confidence : Z;
  type : node_type;
  node_strahler_index : option Z
}.

(** A row of [neuron.connectors]; [relation] is 0 for a presynaptic and 1 for
    a postsynaptic site. *)
Record Connector := {
  connector_id : Z;
  cn_treenode_id : Z;
  relation : Z
}.

Record Neuron := {
  nodes : list Node;
  connectors : list Connector;
  has_strahler_index : bool
}.

Definition treenode_ids (x : Neuron) : list Z := treenode_id <$> nodes x.

(** [nodes.loc[n]]: the row labelled [n]. *)
Definition node_loc (rows : list Node) (n : Z) : res Node :=
  match find (λ r, bool_decide (treenode_id r = n)) rows with
  | Some r => Ok r
  | None => Raise KeyError
  end.

Definition with_parent (p : option Z) (r : Node) : Node :=
  {| treenode_id := treenode_id r; parent_id := p;
     node_x := node_x r; node_y := node_y r; node_z := node_z r;
     radius := radius r; confidence := confidence r; type := type r;
     node_strahler_index := node_strahler_index r |}.

Definition with_strahler (s : option Z) (r : Node) : Node :=
  {| treenode_id := treenode_id r; parent_id := parent_id r;
     node_x := node_x r; node_y := node_y r; node_z := node_z r;
     radius := radius r; confidence := confidence r; type := type r;
     node_strahler_index := s |}.

Definition with_cn_treenode (t : Z) (c : Connector) : Connector :=
  {| connector_id := connector_id c; cn_treenode_id := t;
     relation := relation c |}.

(** ** Collaborators outside [morpho.py]

    [pymaid.core] and [pymaid.graph_utils] are imported by [morpho.py] but
    are not part of the sources at hand.  What [morpho.py] calls from them is
    collected in one interface. *)
Class Core := {
  (** [neuron.soma]: treenode id of the soma, [None] (falsy) without one. *)
  soma : Neuron → option Z;
  (** [neuron.reroot(n)]. *)
  reroot : Neuron → Z → Neuron;
  (** [neuron._clear_temp_attr()]. *)
  clear_temp_attr : Neuron → Neuron;
  (** [neuron.downsample(factor)]. *)
  downsample : Neuron → Z → Neuron;
  (** [graph_utils.distal_to(neuron, a, b)]: is [a] distal to [b]? *)
  distal_to : Neuron → Z → Z → bool
}.

(** Modelled from the spec: [graph_utils.generate_list_of_childs] is missing
    from the sources; the spec describes it as the child-list index
    [children_of(node_id)].  Every treenode id is a key, mapped to the ids of
    the rows naming it as parent, in table order. *)
Definition generate_list_of_childs (x : Neuron) : gmap Z (list Z) :=
  list_to_map
    ((λ r, (treenode_id r,
            treenode_id <$>
              filter (λ c, parent_id c = Some (treenode_id r)) (nodes x)))
       <$> nodes x).

(** ** Strahler index ([strahler_index]) *)

Definition all_computed (l : list (option Z)) : option (list Z) :=
  mapM (λ v : option Z, v) l.

Definition list_max (l : list Z) : Z :=
  match l with
  | [] => 0
  | v :: l' => foldr Z.max v l'
  end.

(** Lines 352-359: the index of a branch from those of its children.  With
    two or more children, [max] raises [TypeError] on a missing index. *)
Definition this_branch_index (method : string) (previous_indices : list (option Z))
  : res (option Z) :=
  match previous_indices with
  | [] => Ok (Some 1)
  | [v] => Ok v
  | _ =>
      match all_computed previous_indices with
      | None => Raise TypeError
      | Some vs =>
          let m := list_max vs in
          if bool_decide (2 ≤ count_occ Z.eq_dec vs m)%nat
             || bool_decide (method = "greedy"%string)
          then Ok (Some (m + 1))
          else Ok (Some m)
      end
  end.

Section strahler_engine.
Variable rows : list Node.
Variable list_of_childs : gmap Z (list Z).
Variable branch_nodes : list Z.
Variable method : string.

(** The inner [while] loop (lines 371-383): walk up the spine until the
    parent is a branch node or there is no parent.  A failing lookup of the
    next parent leaves the loop with [parent_node = None]. *)
Fixpoint walk_spine (fuel : nat) (parent_node : option Z)
    (spine nodes_processed : list Z) : res (option Z * list Z * list Z) :=
  match parent_node with
  | None => Ok (None, spine, nodes_processed)
  | Some p =>
      if bool_decide (p ∈ branch_nodes) then
        Ok (Some p, spine, nodes_processed)
      else
        match fuel with
        | O => OutOfFuel
        | S fuel' =>
            let spine' := spine ++ [p] in
            let processed' := nodes_processed ++ [p] in
            match node_loc rows p with
            | Ok r => walk_spine fuel' (parent_id r) spine' processed'
            | _ => Ok (None, spine', processed')
            end
        end
  end.

Record strahler_state := {
  strahler_dict : gmap Z (option Z);
  nodes_processed : list Z;
  new_starting_points : list Z;
  starting_points_done : list Z
}.

(** [strahler_index.update({n: v for n in spine})]. *)
Definition dict_update_all (spine : list Z) (v : option Z)
    (d : gmap Z (option Z)) : gmap Z (option Z) :=
  foldl (λ d n, <[n := v]> d) d spine.

(** Body of the [for] loop over the starting points (lines 343-397). *)
Definition process_starting_point (fuel : nat) (st : strahler_state) (en : Z)
  : res strahler_state :=
  let! childs := getitem list_of_childs en in
  let! previous_indices := for_list (getitem (strahler_dict st)) childs in
  let! index := this_branch_index method previous_indices in
  let processed := nodes_processed st ++ [en] in
  let done := starting_points_done st ++ [en] in
  let! r := node_loc rows en in
  let! (parent_node, spine, processed') :=
    walk_spine fuel (parent_id r) [en] processed in
  let d := dict_update_all spine index (strahler_dict st) in
  match parent_node with
  | None =>
      Ok {| strahler_dict := d; nodes_processed := processed';
            new_starting_points := new_starting_points st;
            starting_points_done := done |}
  | Some p =>
      let! siblings := getitem list_of_childs p in
      let node_ready := forallb (λ c, bool_decide (c ∈ processed')) siblings in
      Ok {| strahler_dict := d; nodes_processed := processed';
            new_starting_points :=
              if node_ready then new_starting_points st ++ [p]
              else new_starting_points st;
            starting_points_done := done |}
  end.

(** [l.remove(n)]: drop the first occurrence, [ValueError] if there is none. *)
Fixpoint list_remove (n : Z) (l : list Z) : res (list Z) :=
  match l with
  | [] => Raise ValueError
  | m :: l' =>
      if bool_decide (m = n) then Ok l'
      else let! l'' := list_remove n l' in Ok (m :: l'')
  end.

(** The outer [while starting_points] loop (lines 336-405). *)
Fixpoint strahler_loop (fuel : nat) (starting_points : list Z)
    (d : gmap Z (option Z)) (processed : list Z) : res (gmap Z (option Z)) :=
  match starting_points with
  | [] => Ok d
  | _ =>
      match fuel with
      | O => OutOfFuel
      | S fuel' =>
          let! st := for_each (process_starting_point fuel')
                       {| strahler_dict := d; nodes_processed := processed;
                          new_starting_points := [];
                          starting_points_done := [] |}
                       starting_points in
          let! remaining := for_each (λ l n, list_remove n l) starting_points
                              (starting_points_done st) in
          strahler_loop fuel' (remaining ++ new_starting_points st)
            (strahler_dict st) (nodes_processed st)
      end
  end.
End strahler_engine.

Definition ids_of_type (t : node_type) (rows : list Node) : list Z :=
  treenode_id <$> filter (λ r, type r = t) rows.

(** The dict of indices computed by [strahler_index] for a single neuron. *)
Definition strahler_indices (fuel : nat) (x : Neuron) (method : string)
  : res (gmap Z (option Z)) :=
  let end_nodes := ids_of_type end_node (nodes x) in
  let branch_nodes := ids_of_type branch (nodes x) in
  let list_of_childs := generate_list_of_childs x in
  strahler_loop (nodes x) list_of_childs branch_nodes method fuel end_nodes
    ((λ _, None) <$> list_of_childs) [].

(** [strahler_index(x, method=method)]: the neuron with its
    [strahler_index] column (re)written. *)
Definition strahler_index (fuel : nat) (x : Neuron) (method : string)
  : res Neuron :=
  let! d := strahler_indices fuel x method in
  let! col := for_list (getitem d) (treenode_ids x) in
  Ok {| nodes := zip_with with_strahler col (nodes x);
        connectors := connectors x;
        has_strahler_index := true |}.

(** ** Pruning by Strahler index ([prune_by_strahler]) *)

(** The accepted forms of [to_prune]: an [int], a [list], a [range]. *)
Inductive prune_arg :=
| PruneInt (k : Z)
| PruneList (l : list Z)
| PruneRange (start stop : Z).

(** [list(range(start, stop))]. *)
Definition py_range (start stop : Z) : list Z := seqZ start (stop - start).

(** [nodes.strahler_index.max()] where [range] can use it: on an [int]
    column it is the largest value; with a missing value in the column, or no
    row at all, pandas answers a float and [range] raises [TypeError]. *)
Definition strahler_max (rows : list Node) : res Z :=
  match mapM node_strahler_index rows with
  | Some (v :: vs) => Ok (list_max (v :: vs))
  | _ => Raise TypeError
  end.

(** Lines 470-475. *)
Definition indices_to_prune (to_prune : prune_arg) (rows : list Node)
  : res (list Z) :=
  match to_prune with
  | PruneInt k =>
      if bool_decide (k < 0) then
        let! m := strahler_max rows in
        Ok (py_range 1 (m + (k + 1)))
      else Ok [k]
  | PruneList l => Ok l
  | PruneRange start stop => Ok (py_range start stop)
  end.

(** [column.isin(values)] for one cell. *)
Definition isin (v : option Z) (values : list Z) : bool :=
  match v with
  | Some i => bool_decide (i ∈ values)
  | None => false
  end.

(** [{tn.treenode_id: tn.parent_id for tn in nodes.itertuples()}]. *)
Definition parent_dict_of (rows : list Node) : gmap Z (option Z) :=
  foldl (λ d r, <[treenode_id r := parent_id r]> d) ∅ rows.

(** Lines 491-494: climb the parent dict until a remaining treenode. *)
Fixpoint nearest_remaining (fuel : nat) (parent_dict : gmap Z (option Z))
    (remaining_tns : list Z) (this_tn : option Z) : res Z :=
  match this_tn with
  | None => Raise KeyError
  | Some t =>
      if bool_decide (t ∈ remaining_tns) then Ok t
      else
        match fuel with
        | O => OutOfFuel
        | S fuel' =>
            let! p := getitem parent_dict t in
            nearest_remaining fuel' parent_dict remaining_tns p
        end
  end.

Definition relocate_connector (fuel : nat) (parent_dict : gmap Z (option Z))
    (remaining_tns : list Z) (cn : Connector) : res Connector :=
  if bool_decide (cn_treenode_id cn ∈ remaining_tns) then Ok cn
  else
    let! p := getitem parent_dict (cn_treenode_id cn) in
    let! this_tn := nearest_remaining fuel parent_dict remaining_tns p in
    Ok (with_cn_treenode this_tn cn).

(** Line 503: nodes that lost their parent become roots. *)
Definition repair_parents (rows : list Node) : list Node :=
  let ids := treenode_id <$> rows in
  (λ r, if isin (parent_id r) ids then r else with_parent None r) <$> rows.

Section prune.
Context `{Core}.

(** Lines 463-467: reroot onto the soma and make sure the indices exist. *)
Definition prune_prepare (fuel : nat) (x : Neuron)
    (reroot_soma force_strahler_update : bool) : res Neuron :=
  let neuron :=
    match (if reroot_soma then soma x else None) with
    | Some s => reroot x s
    | None => x
    end in
  if negb (has_strahler_index neuron) || force_strahler_update
  then strahler_index fuel neuron "standard"
  else Ok neuron.

(** Lines 469-506, on the prepared neuron. *)
Definition prune_prepared (fuel : nat) (neuron : Neuron)
    (to_prune : prune_arg) (relocate_connectors : bool) : res Neuron :=
  let! to_prune := indices_to_prune to_prune (nodes neuron) in
  let parent_dict := parent_dict_of (nodes neuron) in
  let rows :=
    filter (λ r, ¬ isin (node_strahler_index r) to_prune) (nodes neuron) in
  let remaining_tns := treenode_id <$> rows in
  let! cns :=
    if relocate_connectors
    then for_list (relocate_connector fuel parent_dict remaining_tns)
           (connectors neuron)
    else Ok (filter (λ c, cn_treenode_id c ∈ remaining_tns)
               (connectors neuron)) in
  Ok (clear_temp_attr
        {| nodes := repair_parents rows; connectors := cns;
           has_strahler_index := has_strahler_index neuron |}).

(** [prune_by_strahler] on a single neuron; the result is the pruned
    neuron, whether it is the copy or the neuron modified in place. *)
Definition prune_by_strahler (fuel : nat) (x : Neuron) (to_prune : prune_arg)
    (reroot_soma force_strahler_update relocate_connectors : bool)
  : res Neuron :=
  let! neuron := prune_prepare fuel x reroot_soma force_strahler_update in
  prune_prepared fuel neuron to_prune relocate_connectors.
End prune.

(** ** Confidence propagation ([arbor_confidence]) *)

(** [t[i]] on a tuple, with Python's negative indices. *)
Definition py_index {A} (t : list A) (i : Z) : res A :=
  let n := Z.of_nat (length t) in
  let j := if bool_decide (i < 0) then i + n else i in
  if bool_decide (0 ≤ j < n) then
    match t !! Z.to_nat j with
    | Some a => Ok a
    | None => Raise IndexError
    end
  else Raise IndexError.

(** The default [confidences=(1,0.9,0.6,0.4,0.2)]; the decimal literals are
    kept as exact rationals. *)
Definition default_confidences : list Q :=
  [1; 9 # 10; 6 # 10; 4 # 10; 2 # 10]%Q.

(** Modelled from the spec: [neuron.root] lives in [pymaid.core]; the roots
    are the nodes without a parent. *)
Definition root_ids (x : Neuron) : list Z :=
  treenode_id <$> filter (λ r, parent_id r = None) (nodes x).

Section confidence.
Variable rows : list Node.
Variable loc : gmap Z (list Z).
Variable confidences : list Q.

(** [confidences[5 - nodes.loc[n].confidence]]. *)
Definition confidence_factor (n : Z) : res Q :=
  let! r := node_loc rows n in
  py_index confidences (5 - confidence r).

(** [walk_to_leafs]: the [while] loop follows single children, the
    recursive calls take each child of a branch point. *)
Fixpoint walk_to_leafs (fuel : nat) (this_node : Z) (this_confidence : Q)
    (col : gmap Z Q) : res (gmap Z Q) :=
  match fuel with
  | O => OutOfFuel
  | S fuel' =>
      let! f := confidence_factor this_node in
      let this_confidence := (this_confidence * f)%Q in
      let col := <[this_node := this_confidence]> col in
      let! childs := getitem loc this_node in
      match childs with
      | [] => Ok col
      | [c] => walk_to_leafs fuel' c this_confidence col
      | _ =>
          for_each (λ col c, walk_to_leafs fuel' c this_confidence col)
            col childs
      end
  end.
End confidence.

(** The values of the [arbor_confidence] column, keyed by treenode id; a
    node without an entry keeps [None]. *)
Definition arbor_confidence (fuel : nat) (x : Neuron) (confidences : list Q)
  : res (gmap Z Q) :=
  let loc := generate_list_of_childs x in
  let col := foldl (λ col r, <[r := 1%Q]> col) ∅ (root_ids x) in
  for_each
    (λ col r,
       let! childs := getitem loc r in
       for_each (λ col c, walk_to_leafs (nodes x) loc confidences fuel c 1%Q col)
         col childs)
    col (root_ids x).

(** ** Flow centrality ([flow_centrality]) *)

(** [series.unique()]: first occurrences, in order. *)
Fixpoint unique (l : list Z) : list Z :=
  match l with
  | [] => []
  | a :: l' => a :: filter (λ b, b ≠ a) (unique l')
  end.

Definition sum_list (l : list Z) : Z := foldr Z.add 0 l.

(** A row of the connector details fetched for [polypre]: a presynaptic
    treenode and the treenodes postsynaptic to it at one connector. *)
Record ConnectorDetails := {
  presynaptic_to_node : Z;
  postsynaptic_to_node : list Z
}.

Section flow.
Context `{Core}.

(** Treenodes carrying a connector of the given relation. *)
Definition node_ids_with_relation (y : Neuron) (rel : Z) : list Z :=
  unique (cn_treenode_id <$> filter (λ c, relation c = rel) (connectors y)).

(** Branch points and nodes with synapses. *)
Definition calc_node_ids (y : Neuron) : list Z :=
  treenode_id <$>
    filter (λ r, type r = branch
                 ∨ treenode_id r ∈ (cn_treenode_id <$> connectors y))
      (nodes y).

(** Column [n] of [distal_to(y, sources, calc_node_ids)], summed over its
    rows. *)
Definition distal_count (y : Neuron) (sources : list Z) (n : Z) : Z :=
  sum_list ((λ a, if distal_to y a n then 1 else 0) <$> sources).

(** Line 927, the length taken for column [n]:
    [len(cn_details[cn_details.presynaptic_to_node == n]
           .postsynaptic_to_node.sum())].
    The [.sum()] of the selected lists is their concatenation. *)
Definition partner_count (cn_details : list ConnectorDetails) (n : Z) : Z :=
  Z.of_nat
    (length
       (concat (postsynaptic_to_node
                  <$> filter (λ d, presynaptic_to_node d = n) cn_details))).

(** When no row is selected the [.sum()] is the integer 0, and [len(0)]
    raises [TypeError]. *)
Definition n_partners (cn_details : list ConnectorDetails) (n : Z) : res Z :=
  match filter (λ d, presynaptic_to_node d = n) cn_details with
  | [] => Raise TypeError
  | _ => Ok (partner_count cn_details n)
  end.

(** Lines 925-927: with [polypre] the list of factors is built for every
    column of [distal_pre]; [None] stands for [polypre=False], [Some] for
    [polypre=True] with the connector details that were fetched. *)
Definition polypre_partners (polypre : option (list ConnectorDetails))
    (columns : list Z) : res (option (Z → Z)) :=
  match polypre with
  | None => Ok None
  | Some cn_details =>
      let! _ := for_list (n_partners cn_details) columns in
      Ok (Some (partner_count cn_details))
  end.

(** Column [n] of [distal_pre], summed over its rows.  With [polypre] it
    is first multiplied by [max(1, partners n)]; the partner counts are the
    ones built by [polypre_partners], which is where a column without
    connector details fails. *)
Definition distal_pre (y : Neuron) (polypre : option (Z → Z)) (n : Z) : Z :=
  match polypre with
  | Some partners =>
      distal_count y (node_ids_with_relation y 0) n * Z.max 1 (partners n)
  | None => distal_count y (node_ids_with_relation y 0) n
  end.

Definition distal_post (y : Neuron) (n : Z) : Z :=
  distal_count y (node_ids_with_relation y 1) n.

Definition total_post (y : Neuron) : Z :=
  Z.of_nat (length (node_ids_with_relation y 1)).

(** [{n: f(n) for n in keys}], in insertion order. *)
Definition dict_comprehension (f : Z → Z) (keys : list Z) : list (Z * Z) :=
  (λ n, (n, f n)) <$> unique keys.

(** Line 937. *)
Definition centrifugal (y : Neuron) (polypre : option (Z → Z))
  : list (Z * Z) :=
  dict_comprehension
    (λ n, (total_post y - distal_post y n) * distal_pre y polypre n)
    (calc_node_ids y).

(** Line 941. *)
Definition centripetal (y : Neuron) (polypre : option (Z → Z))
  : list (Z * Z) :=
  dict_comprehension
    (λ n, distal_post y n * (total_post y - distal_pre y polypre n))
    (calc_node_ids y).

(** A local variable that is only bound on some paths. *)
Definition bound_if {A} (b : bool) (v : A) : option A :=
  if b then Some v else None.

Definition read_local {A} (v : option A) : res A :=
  match v with
  | Some a => Ok a
  | None => Raise UnboundLocalError
  end.

(** [nodes.loc[keys, column] = values] on a column that is [None]
    everywhere: the new column, row by row. *)
Definition set_column (rows : list Node) (keys values : list Z)
  : res (list (option Z)) :=
  if forallb (λ k, bool_decide (k ∈ (treenode_id <$> rows))) keys then
    Ok ((λ r, snd <$> find (λ kv, bool_decide (fst kv = treenode_id r))
                        (zip keys values)) <$> rows)
  else Raise KeyError.

(** [flow_centrality] on a single neuron: the [flow_centrality] column it
    writes into [x.nodes]. *)
Definition flow_centrality (x : Neuron) (mode : string)
    (polypre : option (list ConnectorDetails)) : res (list (option Z)) :=
  if bool_decide (mode ∈ ["centrifugal"; "centripetal"; "sum"]%string) then
    let y := downsample x 1000000 in
    let! partners := polypre_partners polypre (calc_node_ids y) in
    let centrifugal_ :=
      bound_if (bool_decide (mode ≠ "centripetal"%string))
        (centrifugal y partners) in
    let centripetal_ :=
      bound_if (bool_decide (mode ≠ "centrifugal"%string))
        (centripetal y partners) in
    let! values :=
      if bool_decide (mode = "centrifugal"%string) then
        let! d := read_local centrifugal_ in Ok d.*2
      else if bool_decide (mode = "centripetal"%string) then
        let! d := read_local centripetal_ in Ok d.*2
      else
        let! d1 := read_local centrifugal_ in
        let! d2 := read_local centripetal_ in
        Ok (zip_with Z.add d1.*2 d2.*2) in
    let! d := read_local centrifugal_ in
    set_column (nodes x) d.*1 values
  else Raise ValueError.
End flow.

(** ** Stitching ([stitch_neurons]) *)

(** What may be passed in [*x]. *)
Inductive stitch_arg :=
| ArgNeuron (n : Neuron)
| ArgNeuronList (l : list Neuron)
| ArgOther.

(** Squared Euclidean distance.  [cdist] takes the square root, in
    float64; the comparisons made by [argmin] are the same on the exact
    squares as long as the coordinates are small enough for the
    differences, their squares and the sums to be exact (2^23 in absolute
    value is enough; coordinates are nanometres in a volume of about a
    millimetre). *)
Definition sq_dist (a b : Node) : Z :=
  (node_x a - node_x b) ^ 2 + (node_y a - node_y b) ^ 2
  + (node_z a - node_z b) ^ 2.

Fixpoint argmin_from (best_i : nat) (best : Z) (i : nat) (l : list Z) : nat :=
  match l with
  | [] => best_i
  | v :: l' =>
      if bool_decide (v < best) then argmin_from i v (S i) l'
      else argmin_from best_i best (S i) l'
  end.

(** [numpy.argmin] of a non-empty vector: the first index of the minimum. *)
Definition argmin (l : list Z) : nat :=
  match l with
  | [] => O
  | v :: l' => argmin_from 0 v 1 l'
  end.

(** Lines 1056-1062.  [dist.argmin(axis=0)[0]] is the row of the minimum in
    the first column of the distance matrix, [dist.argmin(axis=1)[0]] the
    column of the minimum in its first row. *)
Definition closest_treenodes (treenodesA treenodesB : list Node) : res (Z * Z) :=
  match treenodesA, treenodesB with
  | [], _ => Raise ValueError
  | _, [] => Raise IndexError
  | a0 :: _, b0 :: _ =>
      let iA := argmin ((λ a, sq_dist a b0) <$> treenodesA) in
      let iB := argmin ((λ b, sq_dist a0 b) <$> treenodesB) in
      match treenodesA !! iA, treenodesB !! iB with
      | Some a, Some b => Ok (treenode_id a, treenode_id b)
      | _, _ => Raise KeyError
      end
  end.

Definition valid_stitch_methods : list (option string) :=
  [Some "LEAFS"; Some "ALL"; Some "NONE"; None]%string.

Section stitch.
Context `{Core}.

(** Lines 1045-1053: the candidate treenodes of both sides.  An empty
    [tn_to_stitch] stands for [None]; [.loc] with a label that is not in
    the table raises [KeyError]. *)
Definition stitch_candidates (tn_to_stitch : list Z) (method : option string)
    (stitched_n nB : Neuron) : res (list Node * list Node) :=
  if bool_decide (tn_to_stitch ≠ [])
     && existsb (λ t, bool_decide (t ∈ treenode_ids stitched_n)) tn_to_stitch
     && existsb (λ t, bool_decide (t ∈ treenode_ids nB)) tn_to_stitch
  then
    let! treenodesA := for_list (node_loc (nodes stitched_n)) tn_to_stitch in
    let! treenodesB := for_list (node_loc (nodes nB)) tn_to_stitch in
    Ok (treenodesA, treenodesB)
  else if bool_decide (method = Some "LEAFS"%string) then
    Ok (filter (λ r, type r ∈ [end_node; root]) (nodes stitched_n),
        filter (λ r, type r ∈ [end_node; root]) (nodes nB))
  else Ok (nodes stitched_n, nodes nB).

(** Line 1070: the root(s) of the incoming neuron get [tnA] as parent. *)
Definition attach_roots (tnA : Z) (rows : list Node) : list Node :=
  (λ r, match parent_id r with
        | None => with_parent (Some tnA) r
        | Some _ => r
        end) <$> rows.

(** Body of the loop over [neurons[1:]]. *)
Definition stitch_step (tn_to_stitch : list Z) (method : option string)
    (stitched_n nB : Neuron) : res Neuron :=
  let! (treenodesA, treenodesB) :=
    stitch_candidates tn_to_stitch method stitched_n nB in
  let! (tnA, tnB) := closest_treenodes treenodesA treenodesB in
  let nB := reroot nB tnB in
  Ok {| nodes := nodes stitched_n ++ attach_roots tnA (nodes nB);
        connectors := connectors stitched_n ++ connectors nB;
        has_strahler_index :=
          has_strahler_index stitched_n || has_strahler_index nB |}.

(** Lines 1006-1013. *)
Fixpoint compile_neurons (x : list stitch_arg) : res (list Neuron) :=
  match x with
  | [] => Ok []
  | ArgOther :: _ => Raise TypeError
  | ArgNeuron n :: x' => let! l := compile_neurons x' in Ok (n :: l)
  | ArgNeuronList ns :: x' => let! l := compile_neurons x' in Ok (ns ++ l)
  end.

Definition concat_tables (neurons : list Neuron) : Neuron :=
  {| nodes := concat (nodes <$> neurons);
     connectors := concat (connectors <$> neurons);
     has_strahler_index := existsb has_strahler_index neurons |}.

Definition stitch_neurons (x : list stitch_arg) (tn_to_stitch : list Z)
    (method : option string) : res Neuron :=
  if bool_decide (method ∈ valid_stitch_methods) then
    let! neurons := compile_neurons x in
    if bool_decide (length neurons < 2)%nat then
      (* a warning is logged, then [return neurons[0]] *)
      match neurons with
      | n :: _ => Ok n
      | [] => Raise IndexError
      end
    else
      match neurons with
      | [] => Raise IndexError
      | stitched_n :: rest =>
          if bool_decide (method = Some "NONE"%string ∨ method = None) then
            Ok (clear_temp_attr (concat_tables neurons))
          else
            let! stitched_n :=
              for_each (stitch_step tn_to_stitch method) stitched_n rest in
            Ok (clear_temp_attr stitched_n)
      end
  else Raise ValueError.
End stitch.

(** ** Segregation index ([segregation_index]) *)

Module Segregation.
Import Reals.

(** Modelled from the spec: [n_connectors] and [n_postsynapses] are
    properties of [pymaid.core]; they count the rows of the connector
    table, respectively those that are postsynaptic. *)
Definition n_connectors (n : Neuron) : Z :=
  Z.of_nat (length (connectors n)).

Definition n_postsynapses (n : Neuron) : Z :=
  Z.of_nat (length (filter (λ c, relation c = 1) (connectors n))).

(** [a / b] on Python integers. *)
Definition true_div (a b : Z) : res R :=
  if bool_decide (b = 0) then Raise ZeroDivisionError
  else Ok (IZR a / IZR b)%R.

(** Lines 691-694 (and 703-707). *)
Definition entropy_of (p : R) : R :=
  if Rlt_dec 0 p then
    if Rlt_dec p 1 then (- (p * ln p + (1 - p) * ln (1 - p)))%R else 0%R
  else 0%R.

Definition fragment_entropy (n : Neuron) : res R :=
  let! p := true_div (n_postsynapses n) (n_connectors n) in
  Ok (entropy_of p).

Definition sum_R (l : list R) : R := foldl Rplus 0%R l.

(** Lines 686-710, on a split given as a list of fragments. *)
Definition segregation_index (x : list Neuron) : res R :=
  let! entropy := for_list fragment_entropy x in
  let! inv := true_div 1 (sum_list (n_connectors <$> x)) in
  let S := (inv * sum_R (zip_with (λ e n, e * IZR (n_connectors n))%R
                           entropy x))%R in
  let! p_norm := true_div (sum_list (n_postsynapses <$> x))
                   (sum_list (n_connectors <$> x)) in
  if Rlt_dec 0 p_norm then
    if Rlt_dec p_norm 1 then
      let S_norm :=
        (- (p_norm * ln p_norm + (1 - p_norm) * ln (1 - p_norm)))%R in
      Ok (1 - S / S_norm)%R
    else Ok 0%R
  else Ok 0%R.
End Segregation.

(** ** A reference realisation of the collaborators

    One way to realise the interface [Core], following the spec's
    description of the tree model; it is used to run the algorithms on
    concrete neurons. *)

(** The ids met when following parent links from [n], [n] included. *)
Fixpoint path_to_root (fuel : nat) (rows : list Node) (n : Z) : list Z :=
  n :: match fuel with
       | O => []
       | S fuel' =>
           match node_loc rows n with
           | Ok r =>
               match parent_id r with
               | Some p => path_to_root fuel' rows p
               | None => []
               end
           | _ => []
           end
       end.

(** Modelled from the spec: rerooting reverses the parent links along the
    path from the new root to the old one. *)
Definition reroot_path (x : Neuron) (new_root : Z) : Neuron :=
  let path := path_to_root (length (nodes x)) (nodes x) new_root in
  let reversed : gmap Z (option Z) :=
    list_to_map (zip path (None :: (Some <$> path))) in
  {| nodes :=
       (λ r, match reversed !! treenode_id r with
             | Some p => with_parent p r
             | None => r
             end) <$> nodes x;
     connectors := connectors x;
     has_strahler_index := has_strahler_index x |}.

(** Modelled from the spec: [a] is distal to [b] when [b] lies on the way
    from [a] to the root. *)
Definition on_path_to_root (y : Neuron) (a b : Z) : bool :=
  bool_decide (b ∈ path_to_root (length (nodes y)) (nodes y) a).

Definition reference_core : Core :=
  {| soma := λ x, treenode_id <$> head (filter (λ r, 500 < radius r) (nodes x));
     reroot := reroot_path;
     clear_temp_attr := λ x, x;
     downsample := λ x _, x;
     distal_to := on_path_to_root |}.

(** Rows for examples: position on the x axis, confidence 5, no index. *)
Definition mk_node (id : Z) (parent : option Z) (t : node_type) : Node :=
  {| treenode_id := id; parent_id := parent;
     node_x := 0; node_y := 0; node_z := 0; radius := -1;
     confidence := 5; type := t; node_strahler_index := None |}.

Definition mk_neuron (rows : list Node) (cns : list Connector) : Neuron :=
  {| nodes := rows; connectors := cns; has_strahler_index := false |}.

(** Root 1 with child 2; 2 branches into 3 (a leaf) and 4; 4 branches into
    the leaves 5 and 6. *)
Definition example_tree : Neuron :=
  mk_neuron
    [mk_node 1 None root; mk_node 2 (Some 1) branch;
     mk_node 3 (Some 2) end_node; mk_node 4 (Some 2) branch;
     mk_node 5 (Some 4) end_node; mk_node 6 (Some 4) end_node]
    [].

Definition mk_connector (id tn rel : Z) : Connector :=
  {| connector_id := id; cn_treenode_id := tn; relation := rel |}.

(** [example_tree] with a presynaptic site on leaf 5 and postsynaptic sites
    on the leaves 6 and 3. *)
Definition example_neuron : Neuron :=
  mk_neuron (nodes example_tree)
    [mk_connector 10 5 0; mk_connector 11 6 1; mk_connector 12 3 1].

(** An unbranched neuron: root 1, then 2, then the leaf 3. *)
Definition example_chain : Neuron :=
  mk_neuron
    [mk_node 1 None root; mk_node 2 (Some 1) slab; mk_node 3 (Some 2) end_node]
    [].

(** A row at position [px] on the x axis. *)
Definition mk_node_at (id : Z) (parent : option Z) (t : node_type) (px : Z)
  : Node :=
  {| treenode_id := id; parent_id := parent;
     node_x := px; node_y := 0; node_z := 0; radius := -1;
     confidence := 5; type := t; node_strahler_index := None |}.

(** Two fragments on the x axis: 1 (at 0) with child 2 (at 10), and 3
    (at -100) with child 4 (at 11). *)
Definition example_fragment_A : Neuron :=
  mk_neuron [mk_node_at 1 None root 0; mk_node_at 2 (Some 1) end_node 10] [].

Definition example_fragment_B : Neuron :=
  mk_neuron [mk_node_at 3 None root (-100); mk_node_at 4 (Some 3) end_node 11]
    [].

(** Root 1 with the branch point 2 below it; below 2 the leaves 3 and 4 and
    the branch points 5 (with the leaves 6 and 7) and 8 (with the leaves 9
    and 10). *)
Definition example_bush : Neuron :=
  mk_neuron
    [mk_node 1 None root; mk_node 2 (Some 1) branch;
     mk_node 3 (Some 2) end_node; mk_node 4 (Some 2) end_node;
     mk_node 5 (Some 2) branch; mk_node 6 (Some 5) end_node;
     mk_node 7 (Some 5) end_node; mk_node 8 (Some 2) branch;
     mk_node 9 (Some 8) end_node; mk_node 10 (Some 8) end_node]
    [].

(** A root with the two leaves 2 and 3 below it. *)
Definition example_forked_root : Neuron :=
  mk_neuron
    [mk_node 1 None root; mk_node 2 (Some 1) end_node;
     mk_node 3 (Some 1) end_node]
    [].

(** Root 1 with the branch points 2 and 3 below it, each with two leaves:
    4 and 5 below 2, 6 and 7 below 3. *)
Definition example_binary_tree : Neuron :=
  mk_neuron
    [mk_node 1 None root; mk_node 2 (Some 1) branch;
     mk_node 3 (Some 1) branch; mk_node 4 (Some 2) end_node;
     mk_node 5 (Some 2) end_node; mk_node 6 (Some 3) end_node;
     mk_node 7 (Some 3) end_node]
    [].

(** [example_chain] with a presynaptic site on its leaf 3. *)
Definition example_chain_synapse : Neuron :=
  mk_neuron (nodes example_chain) [mk_connector 20 3 0].

(** A node below treenode 1 whose edge has confidence 0. *)
Definition unrated_child : Node :=
  {| treenode_id := 2; parent_id := Some 1;
     node_x := 0; node_y := 0; node_z := 0; radius := -1;
     confidence := 0; type := end_node; node_strahler_index := None |}.

Definition example_unrated : Neuron :=
  mk_neuron [mk_node 1 None root; unrated_child] [].

(** [example_tree] with a single, presynaptic, site on leaf 5. *)
Definition example_outputs_only : Neuron :=
  mk_neuron (nodes example_tree) [mk_connector 10 5 0].

(** ** Graph of a neuron ([graph.neuron2nx]) *)

(** A [networkx.DiGraph]: its nodes and its edges, both in the order of
    their insertion.  Edge weights are left out, nothing below reads them. *)
Record DiGraph := {
  g_nodes : list Z;
  g_edges : list (Z * Z)
}.

(** Insertion into a collection that holds every element once. *)
Definition add_new {A} `{EqDecision A} (l : list A) (a : A) : list A :=
  if decide (a ∈ l) then l else l ++ [a].

Definition add_nodes_from (g : DiGraph) (ns : list Z) : DiGraph :=
  {| g_nodes := foldl add_new (g_nodes g) ns; g_edges := g_edges g |}.

Definition add_edge (g : DiGraph) (e : Z * Z) : DiGraph :=
  {| g_nodes := add_new (add_new (g_nodes g) e.1) e.2;
     g_edges := add_new (g_edges g) e |}.

Definition add_edges_from (g : DiGraph) (es : list (Z * Z)) : DiGraph :=
  foldl add_edge g es.

(** [g.in_edges(t)], for a node [t] of the graph. *)
Definition in_edges (g : DiGraph) (t : Z) : list (Z * Z) :=
  filter (λ e, e.2 = t) (g_edges g).

Definition out_edges (g : DiGraph) (t : Z) : list (Z * Z) :=
  filter (λ e, e.1 = t) (g_edges g).

(** [g.degree(n)], for a node [n] of the graph: edges in plus edges out. *)
Definition degree (g : DiGraph) (n : Z) : Z :=
  Z.of_nat (length (in_edges g n)) + Z.of_nat (length (out_edges g n)).

(** Line 229: one edge from every row with a parent to that parent. *)
Definition parent_edges (rows : list Node) : list (Z * Z) :=
  omap (λ r, (λ p, (treenode_id r, p)) <$> parent_id r) rows.

(** [graph.neuron2nx], lines 226-244, on a single neuron with distinct
    treenode ids.  The weights of line 231 look both ends of every edge up
    in the node table, which raises [KeyError] for a parent that has no
    row. *)
Definition neuron2nx (x : Neuron) : res DiGraph :=
  let edges := parent_edges (nodes x) in
  if forallb (λ e, bool_decide (e.2 ∈ treenode_ids x)) edges then
    let g := {| g_nodes := []; g_edges := [] |} in
    let g := add_nodes_from g (treenode_ids x) in
    Ok (add_edges_from g edges)
  else Raise KeyError.

(** [neuron.graph] belongs to the missing [pymaid.core]. *)
Class CoreGraph := {
  graph : Neuron → DiGraph
}.

(** ** Bending flow ([bending_flow]) *)

(** [itertools.permutations(l, r=2)]: the ordered pairs of two different
    positions of [l]. *)
Fixpoint pairs_from {A} (before l : list A) : list (A * A) :=
  match l with
  | [] => []
  | a :: l' =>
      ((λ b, (a, b)) <$> (before ++ l')) ++ pairs_from (before ++ [a]) l'
  end.

Definition permutations2 {A} (l : list A) : list (A * A) := pairs_from [] l.

Section bending.
Context `{Core} `{CoreGraph}.

(** Lines 774-775: [.values], so a treenode is listed once for each of its
    connectors. *)
Definition connector_node_ids (y : Neuron) (rel : Z) : list Z :=
  cn_treenode_id <$> filter (λ c, relation c = rel) (connectors y).

(** Lines 780-782.  [list(root)] of a treenode id raises [TypeError]. *)
Definition add_root_branch_points (y : Neuron) (bp_node_ids : list Z)
  : res (list Z) :=
  for_each
    (λ bp root,
       if bool_decide (1 < degree (graph y) root) then Raise TypeError
       else Ok bp)
    bp_node_ids (root_ids y).

(** Line 785. *)
Definition bp_childs (y : Neuron) (bp_node_ids : list Z)
  : list (Z * list Z) :=
  (λ t, (t, fst <$> in_edges (graph y) t)) <$> unique bp_node_ids.

(** Lines 789-799, column [n] summed over its rows; [polypre] holds the
    partner counts of line 795 when they were asked for, as built by
    [polypre_partners], which is where a child without connector details
    fails. *)
Definition bending_pre (y : Neuron) (polypre : option (Z → Z)) (n : Z) : Z :=
  match polypre with
  | Some partners =>
      distal_count y (connector_node_ids y 0) n * Z.max 1 (partners n)
  | None => distal_count y (connector_node_ids y 0) n
  end.

Definition bending_post (y : Neuron) (n : Z) : Z :=
  distal_count y (connector_node_ids y 1) n.

(** Lines 802-806. *)
Definition branch_flow (y : Neuron) (polypre : option (Z → Z))
    (childs : list Z) : Z :=
  foldl (λ flow '(left_, right_),
           flow + bending_post y left_ * bending_pre y polypre right_)
    0 (permutations2 childs).

(** [bending_flow] on a single neuron: the [flow_centrality] column it
    writes into [x.nodes]. *)
Definition bending_flow (x : Neuron) (polypre : option (list ConnectorDetails))
  : res (list (option Z)) :=
  let y := downsample x 1000000 in
  let! bp_node_ids :=
    add_root_branch_points y (ids_of_type branch (nodes y)) in
  let childs_of := bp_childs y bp_node_ids in
  let childs := concat childs_of.*2 in
  let! partners := polypre_partners polypre childs in
  let flow :=
    (λ '(bp, childs), (bp, branch_flow y partners childs)) <$> childs_of in
  set_column (nodes x) flow.*1 flow.*2.
End bending.

Definition reference_graph : CoreGraph :=
  {| graph := λ y,
       match neuron2nx y with
       | Ok g => g
       | _ => {| g_nodes := []; g_edges := [] |}
       end |}.

(** ** All paths between two vertices ([graph._find_all_paths]) *)

(** What the function reads of an [igraph.Graph]: [g.vcount()] and
    [g.neighbors(node, mode=mode)]. *)
Record IGraph := {
  vcount : Z;
  neighbors : Z → string → list Z
}.

(** The argument [start] (or [end]): a vertex or a list of vertices. *)
Inductive vertex_arg :=
| Vertex (v : Z)
| VertexList (l : list Z).

(** [x if type(x) is list else [x]]. *)
Definition as_list (x : vertex_arg) : list Z :=
  match x with
  | Vertex v => [v]
  | VertexList l => l
  end.

(** Line 389.  A Python set is kept as a list without repetitions; the
    order in which the inner loop visits [adjlist[start] - set(path)] is
    that of the list. *)
Definition adjacency (g : IGraph) (mode : string) : list (list Z) :=
  (λ node, unique (neighbors g node mode)) <$> seqZ 0 (vcount g).

(** Line 384: [maxlen is None or len(path) <= maxlen]. *)
Definition may_extend (maxlen : option Z) (path : list Z) : bool :=
  match maxlen with
  | None => true
  | Some m => bool_decide (Z.of_nat (length path) ≤ m)
  end.

(** Lines 379-387. *)
Fixpoint find_all_paths_aux (fuel : nat) (adjlist : list (list Z))
    (start end_ : Z) (path : list Z) (maxlen : option Z)
  : res (list (list Z)) :=
  match fuel with
  | O => OutOfFuel
  | S fuel' =>
      let path := path ++ [start] in
      if bool_decide (start = end_) then Ok [path]
      else if may_extend maxlen path then
        let! nbrs := py_index adjlist start in
        let! found :=
          for_list
            (λ node, find_all_paths_aux fuel' adjlist node end_ path maxlen)
            (filter (λ node, node ∉ path) nbrs) in
        Ok (concat found)
      else Ok []
  end.

(** Lines 373-397. *)
Definition _find_all_paths (fuel : nat) (g : IGraph) (start end_ : vertex_arg)
    (mode : string) (maxlen : option Z) : res (list (list Z)) :=
  let adjlist := adjacency g mode in
  let! found :=
    for_list
      (λ s, let! per_end :=
              for_list (λ e, find_all_paths_aux fuel adjlist s e [] maxlen)
                (as_list end_) in
            Ok (concat per_end))
      (as_list start) in
  Ok (concat found).

(** Vertices 0, 1, 2, 3 with the edges 0-1, 0-2, 1-2, 1-3 and 2-3, read in
    both directions. *)
Definition example_igraph : IGraph :=
  {| vcount := 4;
     neighbors := λ node _,
       if bool_decide (node = 0) then [1; 2]
       else if bool_decide (node = 1) then [0; 2; 3]
       else if bool_decide (node = 2) then [0; 1; 3]
       else if bool_decide (node = 3) then [1; 2]
       else [] |}.

(** ** Conditions ([utils._eval_conditions]) *)

(** The argument: one string or a list of strings. *)
Inductive conditions_arg :=
| Condition (s : string)
| Conditions (l : list string).

(** [_make_iterable(x, force_type=str)] on strings: a single string is
    wrapped in a list. *)
Definition _make_iterable (x : conditions_arg) : list string :=
  match x with
  | Condition s => [s]
  | Conditions l => l
  end.

(** [i.startswith('~')]. *)
Definition startswith_tilde (i : string) : bool := String.prefix "~" i.

(** [i[1:]]. *)
Definition drop_first (i : string) : string :=
  match i with
  | String _ rest => rest
  | EmptyString => EmptyString
  end.

(** Lines 141-147. *)
Definition _eval_conditions (x : conditions_arg)
  : list string * list string :=
  let x := _make_iterable x in
  (filter (λ i, startswith_tilde i = false) x,
   drop_first <$> filter (λ i, startswith_tilde i = true) x).


(** * Vocabulary of the properties *)

(** Two computations end the same way, with related results. *)
Definition res_rel {A B} (R : A → B → Prop) (r1 : res A) (r2 : res B) : Prop :=
  match r1, r2 with
  | Ok a, Ok b => R a b
  | Raise e1, Raise e2 => e1 = e2
  | OutOfFuel, OutOfFuel => True
  | _, _ => False
  end.

(** [m] is the largest element of [vs]. *)
Definition is_max (m : Z) (vs : list Z) : Prop :=
  m ∈ vs ∧ ∀ v, v ∈ vs → v ≤ m.

(** The rule of the Strahler engine, in the words of its description: no
    child gives 1; one child gives that child's index; with several
    children, two or more sharing the maximum, or the greedy method, give
    the maximum plus one, anything else the maximum. *)
Definition strahler_rule (method : string) (children : list Z) (index : Z)
  : Prop :=
  match children with
  | [] => index = 1
  | [v] => index = v
  | _ =>
      ∃ m, is_max m children ∧
        ((2 ≤ count_occ Z.eq_dec children m)%nat ∨ method = "greedy"%string
         → index = m + 1) ∧
        (¬ ((2 ≤ count_occ Z.eq_dec children m)%nat ∨ method = "greedy"%string)
         → index = m)
  end.

(** The state in which the second pass over [example_tree] starts: the
    leaves 3, 5 and 6 have index 1. *)
Definition example_state : strahler_state :=
  {| strahler_dict :=
       <[3 := Some 1]> (<[5 := Some 1]> (<[6 := Some 1]>
         ((λ _, None) <$> generate_list_of_childs example_tree)));
     nodes_processed := [3; 5; 6];
     new_starting_points := [];
     starting_points_done := [] |}.

(** Order on the cells of the index column: both computed and ordered, or
    both missing. *)
Definition index_le (a b : option Z) : Prop :=
  match a, b with
  | Some v, Some w => v ≤ w
  | None, None => True
  | _, _ => False
  end.

Definition dict_le (d1 d2 : gmap Z (option Z)) : Prop :=
  ∀ k, option_Forall2 index_le (d1 !! k) (d2 !! k).

Definition state_le (st1 st2 : strahler_state) : Prop :=
  dict_le (strahler_dict st1) (strahler_dict st2)
  ∧ nodes_processed st1 = nodes_processed st2
  ∧ new_starting_points st1 = new_starting_points st2
  ∧ starting_points_done st1 = starting_points_done st2.

(** Two rows for the same treenode, the second with the larger index. *)
Definition row_le (rs rg : Node) : Prop :=
  treenode_id rs = treenode_id rg
  ∧ index_le (node_strahler_index rs) (node_strahler_index rg).

(** The index column of a returned neuron. *)
Definition index_column (r : res Neuron) : option (list (Z * option Z)) :=
  match r with
  | Ok n => Some ((λ r, (treenode_id r, node_strahler_index r)) <$> nodes n)
  | _ => None
  end.

(** The pairs (treenode id, Strahler index) of a node table, row by row. *)
Definition index_rows (rows : list Node) : list (Z * option Z) :=
  (λ r, (treenode_id r, node_strahler_index r)) <$> rows.

(** [x'] has the same treenodes with the same stored indices and the same
    connectors as [x]; parent links and node types may differ. *)
Definition same_tables (x x' : Neuron) : Prop :=
  index_rows (nodes x') = index_rows (nodes x)
  ∧ connectors x' = connectors x.

(** What the statements about one pruning rely on: clearing the cached
    attributes removes no row and no connector and rewrites no stored
    index.  Nothing is assumed about [reroot], nor about whether the index
    column is still there afterwards. *)
Class CoreLaws (core : Core) : Prop := {
  clear_temp_attr_same_tables : ∀ x, same_tables x (clear_temp_attr x)
}.


(** The factor table as the description of the propagator gives it. *)
Definition described_confidences : list Q :=
  [1; 2 # 10; 4 # 10; 6 # 10; 9 # 10; 1]%Q.

(** A root and one child attached by an edge of confidence 4. *)
Definition example_edge : Neuron :=
  mk_neuron
    [mk_node 1 None root;
     {| treenode_id := 2; parent_id := Some 1;
        node_x := 0; node_y := 0; node_z := 0; radius := -1;
        confidence := 4; type := end_node; node_strahler_index := None |}]
    [].

(** Every value in the [arbor_confidence] column is 1 at a root and
    otherwise the parent's value times the factor of the node. *)
Definition column_consistent (rows : list Node) (confidences : list Q)
    (col : gmap Z Q) : Prop :=
  ∀ r v, r ∈ rows → col !! treenode_id r = Some v →
    match parent_id r with
    | None => v = 1%Q
    | Some p =>
        ∃ vp f, col !! p = Some vp
                ∧ confidence_factor rows confidences (treenode_id r) = Ok f
                ∧ v = (vp * f)%Q
    end.

(** All children of [n] have a value. *)
Definition children_done (rows : list Node) (col : gmap Z Q) (n : Z) : Prop :=
  ∀ r, r ∈ rows → parent_id r = Some n → is_Some (col !! treenode_id r).

Definition is_child_of (rows : list Node) (n c : Z) : Prop :=
  ∃ r, r ∈ rows ∧ treenode_id r = c ∧ parent_id r = Some n.

(** What a walk from [c] achieves: the column stays consistent, nothing is
    overwritten, and every node that received a value has had all its
    children visited. *)
Definition walked (rows : list Node) (confidences : list Q) (c : Z)
    (col col' : gmap Z Q) : Prop :=
  column_consistent rows confidences col' ∧ col ⊆ col'
  ∧ (∀ m, is_Some (col' !! m)
          → is_Some (col !! m) ∨ children_done rows col' m)
  ∧ is_Some (col' !! c) ∧ children_done rows col' c.

(** The flow formulas as they are described, on counts of treenodes.  The
    treenodes carrying a connector of the given relation (1 postsynaptic,
    0 presynaptic), as a set: *)
Definition synaptic_treenodes (y : Neuron) (rel : Z) : gset Z :=
  list_to_set
    (cn_treenode_id <$> filter (λ c, relation c = rel) (connectors y)).

(** how many there are, *)
Definition n_synaptic (y : Neuron) (rel : Z) : Z :=
  Z.of_nat (size (synaptic_treenodes y rel)).

(** and how many of them are distal to [n]. *)
Definition n_distal `{Core} (y : Neuron) (rel : Z) (n : Z) : Z :=
  Z.of_nat
    (size (filter (λ a, distal_to y a n = true) (synaptic_treenodes y rel))).

(** Flow from the postsynaptic treenodes that are not distal to [n] to the
    presynaptic treenodes distal to [n]. *)
Definition described_centrifugal `{Core} (y : Neuron) (n : Z) : Z :=
  (n_synaptic y 1 - n_distal y 1 n) * n_distal y 0 n.

(** The postsynaptic treenodes distal to [n], times the number of
    postsynaptic treenodes less the presynaptic treenodes distal to [n]. *)
Definition described_centripetal `{Core} (y : Neuron) (n : Z) : Z :=
  n_distal y 1 n * (n_synaptic y 1 - n_distal y 0 n).

(** A calculation node: a branch point, or a treenode with a connector. *)
Definition is_calculation_node (y : Neuron) (n : Z) : Prop :=
  ∃ r, r ∈ nodes y ∧ treenode_id r = n
       ∧ (type r = branch ∨ ∃ c, c ∈ connectors y ∧ cn_treenode_id c = n).

(** The segregation index as it is described. *)
Module SegregationSpec.
Import Reals.
Import Segregation.

(** Fraction of the connectors of a fragment that are postsynaptic. *)
Definition postsynaptic_fraction (n : Neuron) : R :=
  (IZR (n_postsynapses n) / IZR (n_connectors n))%R.

(** [S = -(p ln p + (1-p) ln (1-p))], and 0 when [p] is 0 or 1. *)
Definition entropy (p : R) : R :=
  if Req_dec_T p 0%R then 0%R
  else if Req_dec_T p 1%R then 0%R
  else (- (p * ln p + (1 - p) * ln (1 - p)))%R.

(** Connector-weighted average of the fragment entropies. *)
Definition S_avg (x : list Neuron) : R :=
  (sum_R ((λ n, entropy (postsynaptic_fraction n) * IZR (n_connectors n))%R
            <$> x)
   / IZR (sum_list (n_connectors <$> x)))%R.

(** Fraction of postsynaptic connectors over the pooled fragments. *)
Definition p_norm (x : list Neuron) : R :=
  (IZR (sum_list (n_postsynapses <$> x))
   / IZR (sum_list (n_connectors <$> x)))%R.

Definition S_norm (x : list Neuron) : R := entropy (p_norm x).

(** [H = 1 - S_avg / S_norm], and 0 when [p_norm] is 0 or 1. *)
Definition H (x : list Neuron) : R :=
  if Req_dec_T (p_norm x) 0%R then 0%R
  else if Req_dec_T (p_norm x) 1%R then 0%R
  else (1 - S_avg x / S_norm x)%R.

End SegregationSpec.

(** A well-formed forest: every parent is a treenode of the table, and
    there is a depth that grows from parent to child and never exceeds [D]
    (so that parent links cannot loop). *)
Definition well_formed (rows : list Node) (depth : Z → nat) (D : nat) : Prop :=
  ∀ r p, r ∈ rows → parent_id r = Some p →
    p ∈ treenode_id <$> rows ∧ (depth p < depth (treenode_id r) ≤ D)%nat.

(** * Vocabulary of the further properties *)

(** No index in the dict is below 1. *)
Definition indices_positive (d : gmap Z (option Z)) : Prop :=
  ∀ k v, d !! k = Some (Some v) → 1 ≤ v.

(** Clearing the cached attributes leaves the two tables as they are. *)
Class CoreClears (core : Core) : Prop := {
  clear_temp_attr_nodes : ∀ x, nodes (clear_temp_attr x) = nodes x;
  clear_temp_attr_connectors :
    ∀ x, connectors (clear_temp_attr x) = connectors x
}.

(** Some row of the table gives treenode [a] the parent [p]. *)
Definition is_parent_of (rows : list Node) (a : Z) (p : option Z) : Prop :=
  ∃ r, r ∈ rows ∧ treenode_id r = a ∧ parent_id r = p.

(** [t] is the first remaining treenode met when following parent links
    from [a], [a] included. *)
Inductive first_remaining (rows : list Node) (remaining : list Z)
  : Z → Z → Prop :=
| first_remaining_here t :
    t ∈ remaining → first_remaining rows remaining t t
| first_remaining_up a p t :
    a ∉ remaining → is_parent_of rows a (Some p) →
    first_remaining rows remaining p t →
    first_remaining rows remaining a t.

(** The two flows at a node, as the dict comprehensions of lines 937 and
    941 compute them. *)
Definition centrifugal_at `{Core} (y : Neuron) (polypre : option (Z → Z))
    (n : Z) : Z :=
  (total_post y - distal_post y n) * distal_pre y polypre n.

Definition centripetal_at `{Core} (y : Neuron) (polypre : option (Z → Z))
    (n : Z) : Z :=
  distal_post y n * (total_post y - distal_pre y polypre n).

(** The rows of the table that name [t] as their parent. *)
Definition child_rows (rows : list Node) (t : Z) : list Node :=
  filter (λ c, parent_id c = Some t) rows.

(** Bending flow at a branch point, from the synapse counts below its
    children: all pairs of counts, less the pairs within one child. *)
Definition bending_at `{Core} (y : Neuron) (polypre : option (Z → Z))
    (childs : list Z) : Z :=
  sum_list (bending_post y <$> childs)
  * sum_list (bending_pre y polypre <$> childs)
  - sum_list ((λ c, bending_post y c * bending_pre y polypre c) <$> childs).

(** [b] is in the adjacency list of [a]. *)
Definition adjacent (adjlist : list (list Z)) (a b : Z) : Prop :=
  ∃ nbrs, py_index adjlist a = Ok nbrs ∧ b ∈ nbrs.

(** Every vertex of the list is adjacent to the one before it. *)
Fixpoint is_walk (adjlist : list (list Z)) (p : list Z) : Prop :=
  match p with
  | a :: p' =>
      match p' with
      | b :: _ => adjacent adjlist a b ∧ is_walk adjlist p'
      | [] => True
      end
  | [] => True
  end.

(** A path from [s] to [e] that visits no vertex twice. *)
Definition simple_path (adjlist : list (list Z)) (s e : Z) (p : list Z)
  : Prop :=
  head p = Some s ∧ last p = Some e ∧ NoDup p ∧ is_walk adjlist p.

(** The bound [maxlen] puts on a path: at most [maxlen] edges, a single
    vertex being a path in any case. *)
Definition within_maxlen (maxlen : option Z) (p : list Z) : Prop :=
  match maxlen with
  | None => True
  | Some m => Z.of_nat (length p) ≤ Z.max m 0 + 1
  end.

(** The neighbours listed by the graph are vertices of the graph. *)
Definition neighbors_valid (g : IGraph) (mode : string) : Prop :=
  ∀ a b, 0 ≤ a < vcount g → b ∈ neighbors g a mode → 0 ≤ b < vcount g.

(** Coordinates of at most [bound] in absolute value.  Up to 2^23 the
    float64 distances computed by [cdist] order the pairs of rows exactly
    as the squared distances do: differences, squares and sums are exact
    integers below 2^50, on which the rounded square root is strictly
    increasing. *)
Definition coordinates_within (bound : Z) (rows : list Node) : Prop :=
  ∀ r, r ∈ rows →
       Z.abs (node_x r) ≤ bound ∧ Z.abs (node_y r) ≤ bound
       ∧ Z.abs (node_z r) ≤ bound.

(** [l] is made of the elements of [l1] and of [l2], those of each list in
    their order. *)
Inductive interleaved {A} : list A → list A → list A → Prop :=
| interleaved_nil : interleaved [] [] []
| interleaved_left a l1 l2 l :
    interleaved l1 l2 l → interleaved (a :: l1) l2 (a :: l)
| interleaved_right a l1 l2 l :
    interleaved l1 l2 l → interleaved l1 (a :: l2) (a :: l).

(** * Properties *)

(** ** Outcomes in lockstep *)

Lemma res_rel_refl {A} (R : A → A → Prop) (r : res A) :
  (∀ a, R a a) → res_rel R r r.
Proof. intros HR. destruct r; simpl; auto. Qed.

Lemma for_list_rel {A B1 B2} (R : B1 → B2 → Prop)
    (f1 : A → res B1) (f2 : A → res B2) (l : list A) :
  (∀ a, res_rel R (f1 a) (f2 a)) →
  res_rel (Forall2 R) (for_list f1 l) (for_list f2 l).
Proof.
  intros Hf. induction l as [|a l IH]; simpl.
  - constructor.
  - specialize (Hf a).
    destruct (f1 a), (f2 a); simpl in Hf; try done.
    destruct (for_list f1 l), (for_list f2 l); simpl in *; try done.
    by constructor.
Qed.

Lemma for_each_rel {S1 S2 A} (R : S1 → S2 → Prop)
    (body1 : S1 → A → res S1) (body2 : S2 → A → res S2) (l : list A) :
  (∀ s1 s2 a, R s1 s2 → res_rel R (body1 s1 a) (body2 s2 a)) →
  ∀ s1 s2, R s1 s2 → res_rel R (for_each body1 s1 l) (for_each body2 s2 l).
Proof.
  intros Hbody. induction l as [|a l IH]; intros s1 s2 Hs; simpl.
  - done.
  - specialize (Hbody s1 s2 a Hs).
    destruct (body1 s1 a), (body2 s2 a); simpl in Hbody; try done.
    by apply IH.
Qed.

(** ** Strahler index *)

Lemma foldr_max_elem (v : Z) (vs : list Z) : foldr Z.max v vs ∈ v :: vs.
Proof.
  induction vs as [|w vs IH]; simpl.
  - apply list_elem_of_here.
  - destruct (Z.max_spec w (foldr Z.max v vs)) as [[_ ->]|[_ ->]].
    + apply elem_of_cons in IH as [->|IH].
      * apply list_elem_of_here.
      * do 2 apply list_elem_of_further. done.
    + apply list_elem_of_further, list_elem_of_here.
Qed.

Lemma foldr_max_ge (v : Z) (vs : list Z) (w : Z) :
  w ∈ v :: vs → w ≤ foldr Z.max v vs.
Proof.
  induction vs as [|u vs IH]; simpl; intros Hw.
  - apply list_elem_of_singleton in Hw. lia.
  - apply elem_of_cons in Hw as [->|Hw].
    + assert (v ≤ foldr Z.max v vs) by (apply IH, list_elem_of_here). lia.
    + apply elem_of_cons in Hw as [->|Hw]; [lia|].
      assert (w ≤ foldr Z.max v vs) by (apply IH, list_elem_of_further, Hw).
      lia.
Qed.

Lemma list_max_is_max (vs : list Z) : vs ≠ [] → is_max (list_max vs) vs.
Proof.
  destruct vs as [|v vs]; [done|]. intros _. split.
  - apply foldr_max_elem.
  - apply foldr_max_ge.
Qed.

Lemma is_max_unique (vs : list Z) (m1 m2 : Z) :
  is_max m1 vs → is_max m2 vs → m1 = m2.
Proof.
  intros [Hin1 Hge1] [Hin2 Hge2].
  specialize (Hge1 _ Hin2). specialize (Hge2 _ Hin1). lia.
Qed.

Lemma list_max_mono (l1 l2 : list Z) :
  Forall2 Z.le l1 l2 → list_max l1 ≤ list_max l2.
Proof.
  intros Hle. destruct Hle as [|v1 v2 l1 l2 Hv Hl]; simpl; [lia|].
  induction Hl as [|w1 w2 l1 l2 Hw Hl IH]; simpl; lia.
Qed.

Lemma all_computed_Some (vs : list Z) : all_computed (Some <$> vs) = Some vs.
Proof. unfold all_computed. by apply mapM_fmap_Some. Qed.

Lemma this_branch_index_rule (method : string) (vs : list Z) :
  ∃ index, this_branch_index method (Some <$> vs) = Ok (Some index)
           ∧ strahler_rule method vs index.
Proof.
  destruct vs as [|v [|w vs]].
  - by exists 1.
  - by exists v.
  - unfold this_branch_index.
    change (Some <$> v :: w :: vs) with (Some v :: Some w :: (Some <$> vs)).
    change (Some v :: Some w :: (Some <$> vs)) with (Some <$> v :: w :: vs).
    rewrite all_computed_Some.
    change (Some <$> v :: w :: vs) with (Some v :: Some w :: (Some <$> vs)).
    cbv beta iota zeta.
    set (l := v :: w :: vs). set (m := list_max l).
    assert (Hmax : is_max m l) by (by apply list_max_is_max).
    destruct (bool_decide (2 ≤ count_occ Z.eq_dec l m)%nat
              || bool_decide (method = "greedy"%string)) eqn:Hc.
    + exists (m + 1). split; [done|]. exists m. split; [done|].
      split; [done|]. intros Hn. exfalso. apply Hn.
      apply orb_true_iff in Hc as [Hc|Hc]; apply bool_decide_eq_true in Hc; auto.
    + exists m. split; [done|]. exists m. split; [done|].
      apply orb_false_iff in Hc as [Hc1 Hc2].
      apply bool_decide_eq_false in Hc1, Hc2.
      split; [|done]. intros [?|?]; done.
Qed.

Lemma walk_spine_extends rows branch_nodes fuel :
  ∀ parent_node spine processed p' spine' processed',
    walk_spine rows branch_nodes fuel parent_node spine processed
    = Ok (p', spine', processed') →
    ∃ added, spine' = spine ++ added ∧ processed' = processed ++ added.
Proof.
  induction fuel as [|fuel IH]; intros [p|] spine processed p' spine' processed';
    simpl; intros Hw.
  - case_bool_decide; [|done]. injection Hw as <- <- <-.
    exists []. by rewrite !app_nil_r.
  - injection Hw as <- <- <-. exists []. by rewrite !app_nil_r.
  - case_bool_decide.
    { injection Hw as <- <- <-. exists []. by rewrite !app_nil_r. }
    destruct (node_loc rows p) as [r| |].
    + apply IH in Hw as (added & -> & ->).
      exists (p :: added). by rewrite <- !app_assoc.
    + injection Hw as <- <- <-. by exists [p].
    + injection Hw as <- <- <-. by exists [p].
  - injection Hw as <- <- <-. exists []. by rewrite !app_nil_r.
Qed.

Lemma dict_update_all_lookup (spine : list Z) (v : option Z)
    (d : gmap Z (option Z)) (n : Z) :
  dict_update_all spine v d !! n
  = if bool_decide (n ∈ spine) then Some v else d !! n.
Proof.
  unfold dict_update_all. revert d.
  induction spine as [|s spine IH]; intros d; simpl.
  - done.
  - rewrite IH. destruct (decide (n = s)) as [->|Hne].
    + rewrite lookup_insert_eq.
      rewrite (bool_decide_eq_true_2 (s ∈ s :: spine)) by apply list_elem_of_here.
      by case_bool_decide.
    + rewrite lookup_insert_ne by done.
      repeat case_bool_decide; try done.
      * exfalso. eauto using list_elem_of_further.
      * exfalso. apply elem_of_cons in H0 as [?|?]; done.
Qed.

Lemma for_list_getitem_computed (d : gmap Z (option Z)) (childs vs : list Z) :
  Forall2 (λ c v, d !! c = Some (Some v)) childs vs →
  for_list (getitem d) childs = Ok (Some <$> vs).
Proof.
  induction 1 as [|c v childs vs Hc _ IH]; simpl; [done|].
  unfold getitem at 1. by rewrite Hc, IH.
Qed.

(** One step of the engine, provided it returns. *)
Lemma process_starting_point_rule rows list_of_childs branch_nodes method fuel
    (st st' : strahler_state) (en : Z) (childs vs : list Z) :
  list_of_childs !! en = Some childs →
  Forall2 (λ c v, strahler_dict st !! c = Some (Some v)) childs vs →
  process_starting_point rows list_of_childs branch_nodes method fuel st en
  = Ok st' →
  ∃ index spine,
    strahler_rule method vs index
    ∧ nodes_processed st' = nodes_processed st ++ en :: spine
    ∧ ∀ n, n ∈ en :: spine → strahler_dict st' !! n = Some (Some index).
Proof.
  intros Hchilds Hvs Hstep. unfold process_starting_point in Hstep.
  unfold getitem at 1 in Hstep. rewrite Hchilds in Hstep.
  rewrite (for_list_getitem_computed _ _ _ Hvs) in Hstep.
  destruct (this_branch_index_rule method vs) as (index & Hidx & Hrule).
  rewrite Hidx in Hstep.
  destruct (node_loc rows en) as [r| |]; try done.
  destruct (walk_spine rows branch_nodes fuel (parent_id r) [en]
              (nodes_processed st ++ [en]))
    as [[[parent_node spine'] processed']| |] eqn:Hwalk; try done.
  apply walk_spine_extends in Hwalk as (added & -> & ->).
  exists index, added. split; [done|].
  assert (Hres : nodes_processed st' = nodes_processed st ++ en :: added
                 ∧ strahler_dict st'
                   = dict_update_all ([en] ++ added) (Some index)
                       (strahler_dict st)).
  { destruct parent_node as [p|].
    - destruct (getitem list_of_childs p); try done.
      injection Hstep as <-. simpl. by rewrite <- app_assoc.
    - injection Hstep as <-. simpl. by rewrite <- app_assoc. }
  destruct Hres as [Hproc Hdict]. split; [done|].
  intros n Hn. rewrite Hdict, dict_update_all_lookup.
  by rewrite bool_decide_eq_true_2.
Qed.

Lemma node_loc_exists (rows : list Node) (n : Z) :
  n ∈ treenode_id <$> rows → ∃ r, node_loc rows n = Ok r.
Proof.
  intros (r & -> & Hr)%list_elem_of_fmap. unfold node_loc.
  destruct (find _ rows) as [r'|] eqn:Hfind; [by eexists|].
  apply list_elem_of_In in Hr. apply (find_none _ _ Hfind) in Hr.
  by apply bool_decide_eq_false in Hr.
Qed.

Lemma node_loc_elem (rows : list Node) (n : Z) (r : Node) :
  node_loc rows n = Ok r → r ∈ rows ∧ treenode_id r = n.
Proof.
  unfold node_loc. destruct (find _ rows) as [r'|] eqn:Hfind; [|done].
  intros [= <-]. apply find_some in Hfind as [Hin Hid].
  apply bool_decide_eq_true in Hid. by apply list_elem_of_In in Hin.
Qed.

Lemma childs_has_key (x : Neuron) (n : Z) :
  n ∈ treenode_ids x → is_Some (generate_list_of_childs x !! n).
Proof.
  intros Hn. unfold generate_list_of_childs.
  apply not_eq_None_Some. rewrite <- not_elem_of_list_to_map.
  intros Hnot. apply Hnot. by rewrite <- list_fmap_compose.
Qed.

(** On a well-formed forest the walk up a spine ends within [fuel] steps
    when [fuel] exceeds the depth of the node it starts from. *)
Lemma walk_spine_returns rows branch_nodes depth D :
  well_formed rows depth D →
  ∀ fuel parent_node spine processed,
    (∀ p, parent_node = Some p → (depth p < fuel)%nat) →
    ∃ p' spine' processed',
      walk_spine rows branch_nodes fuel parent_node spine processed
      = Ok (p', spine', processed')
      ∧ ∀ p, p' = Some p → p ∈ branch_nodes.
Proof.
  intros Hwf. induction fuel as [|fuel IH];
    intros [p|] spine processed Hdepth; simpl.
  - specialize (Hdepth p eq_refl). lia.
  - by eexists _, _, _.
  - case_bool_decide as Hbranch.
    { eexists _, _, _. split; [done|]. by intros ? [= <-]. }
    destruct (node_loc rows p) as [r| |] eqn:Hr.
    + apply IH. intros pp Hpp.
      apply node_loc_elem in Hr as [Hr Hid].
      destruct (Hwf r pp Hr Hpp) as [_ Hlt]. rewrite Hid in Hlt.
      specialize (Hdepth p eq_refl). lia.
    + by eexists _, _, _.
    + by eexists _, _, _.
  - by eexists _, _, _.
Qed.

(** One step of the engine. On a well-formed neuron and with enough fuel,
    processing a starting point [en] whose children have the computed indices [vs]
    returns; the index given to [en], and to every node marked as processed
    on the spine above it, is computed from [vs]: 1 without children, the
    child's index with one child, the maximum plus one when two or more
    children share the maximum or the method is greedy, the maximum
    otherwise. *)
Theorem strahler_index_rule (x : Neuron) (method : string) (fuel : nat)
    (depth : Z → nat) (D : nat) (st : strahler_state) (en : Z)
    (childs vs : list Z) :
  well_formed (nodes x) depth D → (D < fuel)%nat →
  en ∈ treenode_ids x →
  generate_list_of_childs x !! en = Some childs →
  Forall2 (λ c v, strahler_dict st !! c = Some (Some v)) childs vs →
  ∃ st' index spine,
    process_starting_point (nodes x) (generate_list_of_childs x)
      (ids_of_type branch (nodes x)) method fuel st en = Ok st'
    ∧ strahler_rule method vs index
    ∧ nodes_processed st' = nodes_processed st ++ en :: spine
    ∧ ∀ n, n ∈ en :: spine → strahler_dict st' !! n = Some (Some index).
Proof.
  intros Hwf Hfuel Hen Hchilds Hvs.
  assert (Hret : ∃ st',
    process_starting_point (nodes x) (generate_list_of_childs x)
      (ids_of_type branch (nodes x)) method fuel st en = Ok st').
  { unfold process_starting_point.
    unfold getitem at 1. rewrite Hchilds.
    rewrite (for_list_getitem_computed _ _ _ Hvs).
    destruct (this_branch_index_rule method vs) as (index & -> & _).
    destruct (node_loc_exists (nodes x) en Hen) as [r Hr]. rewrite Hr.
    apply node_loc_elem in Hr as [Hr Hid].
    destruct (walk_spine_returns (nodes x) (ids_of_type branch (nodes x))
                depth D Hwf fuel (parent_id r) [en]
                (nodes_processed st ++ [en]))
      as (p' & spine' & processed' & -> & Hbranch).
    { intros p Hp. destruct (Hwf r p Hr Hp) as [_ Hlt]. lia. }
    destruct p' as [p|]; [|by eexists].
    assert (Hp : p ∈ treenode_ids x).
    { specialize (Hbranch p eq_refl). unfold ids_of_type in Hbranch.
      apply list_elem_of_fmap in Hbranch as (rp & -> & [_ Hrp]%list_elem_of_filter).
      by apply list_elem_of_fmap_2. }
    destruct (childs_has_key x p Hp) as [siblings Hs].
    unfold getitem. rewrite Hs. by eexists. }
  destruct Hret as [st' Hst']. exists st'.
  destruct (process_starting_point_rule _ _ _ _ _ _ _ _ _ _ Hchilds Hvs Hst')
    as (index & spine & Hrule & Hproc & Hdict).
  by exists index, spine.
Qed.

Lemma strahler_index_rule_witness :
  ∃ st' index spine,
    process_starting_point (nodes example_tree)
      (generate_list_of_childs example_tree)
      (ids_of_type branch (nodes example_tree)) "standard" 10
      example_state 4 = Ok st'
    ∧ strahler_rule "standard" [1; 1] index
    ∧ nodes_processed st' = nodes_processed example_state ++ 4 :: spine
    ∧ ∀ n, n ∈ 4 :: spine → strahler_dict st' !! n = Some (Some index).
Proof.
  apply (strahler_index_rule example_tree "standard" 10
           (λ n, Z.to_nat n) 6 example_state 4 [5; 6] [1; 1]).
  - intros r p Hr Hp. unfold example_tree, mk_neuron in Hr. cbn [nodes] in Hr.
    repeat (apply elem_of_cons in Hr as [->|Hr];
            [simpl in Hp;
             first [discriminate Hp
                   |injection Hp as <-;
                    split; [apply (bool_decide_unpack _); vm_compute; exact I
                           |simpl; lia]]|]).
    by apply elem_of_nil in Hr.
  - lia.
  - apply (bool_decide_unpack _). vm_compute. exact I.
  - vm_compute. reflexivity.
  - repeat constructor.
Defined.

Lemma getitem_le (d1 d2 : gmap Z (option Z)) (k : Z) :
  dict_le d1 d2 → res_rel index_le (getitem d1 k) (getitem d2 k).
Proof.
  intros Hd. unfold getitem. destruct (Hd k); simpl; done.
Qed.

Lemma all_computed_le (p1 p2 : list (option Z)) :
  Forall2 index_le p1 p2 →
  match all_computed p1, all_computed p2 with
  | Some v1, Some v2 => Forall2 Z.le v1 v2
  | None, None => True
  | _, _ => False
  end.
Proof.
  unfold all_computed.
  induction 1 as [|a b p1 p2 Hab _ IH]; simpl; [constructor|].
  destruct a as [v|], b as [w|]; simpl in *; try done.
  destruct (mapM _ p1), (mapM _ p2); simpl; try done.
  by constructor.
Qed.

Lemma this_branch_index_le (p1 p2 : list (option Z)) :
  Forall2 index_le p1 p2 →
  res_rel index_le (this_branch_index "standard" p1)
    (this_branch_index "greedy" p2).
Proof.
  intros Hp. pose proof (all_computed_le _ _ Hp) as Hall.
  destruct Hp as [|a b p1 p2 Hab Hp]; [simpl; lia|].
  destruct Hp as [|a' b' p1 p2 Hab' Hp]; [done|].
  unfold this_branch_index.
  destruct (all_computed (a :: a' :: p1)) as [v1|],
           (all_computed (b :: b' :: p2)) as [v2|]; try done.
  apply list_max_mono in Hall.
  rewrite (bool_decide_eq_true_2 ("greedy"%string = "greedy"%string)) by done.
  rewrite orb_true_r.
  rewrite (bool_decide_eq_false_2 ("standard"%string = "greedy"%string)) by done.
  rewrite orb_false_r.
  case_bool_decide; simpl; lia.
Qed.

Lemma dict_update_all_le (spine : list Z) (v1 v2 : option Z)
    (d1 d2 : gmap Z (option Z)) :
  index_le v1 v2 → dict_le d1 d2 →
  dict_le (dict_update_all spine v1 d1) (dict_update_all spine v2 d2).
Proof.
  intros Hv Hd k. rewrite !dict_update_all_lookup.
  case_bool_decide; [by constructor|apply Hd].
Qed.

Lemma process_starting_point_le rows list_of_childs branch_nodes fuel
    (st1 st2 : strahler_state) (en : Z) :
  state_le st1 st2 →
  res_rel state_le
    (process_starting_point rows list_of_childs branch_nodes "standard" fuel
       st1 en)
    (process_starting_point rows list_of_childs branch_nodes "greedy" fuel
       st2 en).
Proof.
  intros (Hd & Hproc & Hnew & Hdone). unfold process_starting_point.
  rewrite Hproc, Hnew, Hdone.
  destruct (getitem list_of_childs en) as [childs| |]; simpl; try done.
  pose proof (for_list_rel index_le _ _ childs
                (λ k, getitem_le _ _ k Hd)) as Hprev.
  destruct (for_list (getitem (strahler_dict st1)) childs) as [p1| |],
           (for_list (getitem (strahler_dict st2)) childs) as [p2| |];
    simpl in Hprev; try done.
  pose proof (this_branch_index_le _ _ Hprev) as Hidx.
  destruct (this_branch_index "standard" p1) as [i1| |],
           (this_branch_index "greedy" p2) as [i2| |];
    simpl in Hidx; try done.
  destruct (node_loc rows en) as [r| |]; simpl; try done.
  destruct (walk_spine rows branch_nodes fuel (parent_id r) [en]
              (nodes_processed st2 ++ [en]))
    as [[[parent_node spine] processed']| |]; simpl; try done.
  destruct parent_node as [p|].
  - destruct (getitem list_of_childs p) as [siblings| |]; simpl; try done.
    repeat split; simpl; try done. by apply dict_update_all_le.
  - repeat split; simpl; try done. by apply dict_update_all_le.
Qed.

Lemma strahler_loop_step rows list_of_childs branch_nodes method fuel
    (sp0 : Z) (sps : list Z) d processed :
  strahler_loop rows list_of_childs branch_nodes method (S fuel) (sp0 :: sps)
    d processed
  = let! st := for_each
                 (process_starting_point rows list_of_childs branch_nodes
                    method fuel)
                 {| strahler_dict := d; nodes_processed := processed;
                    new_starting_points := []; starting_points_done := [] |}
                 (sp0 :: sps) in
    let! remaining := for_each (λ l n, list_remove n l) (sp0 :: sps)
                        (starting_points_done st) in
    strahler_loop rows list_of_childs branch_nodes method fuel
      (remaining ++ new_starting_points st)
      (strahler_dict st) (nodes_processed st).
Proof. reflexivity. Qed.

Lemma strahler_loop_le rows list_of_childs branch_nodes fuel :
  ∀ starting_points d1 d2 processed,
    dict_le d1 d2 →
    res_rel dict_le
      (strahler_loop rows list_of_childs branch_nodes "standard" fuel
         starting_points d1 processed)
      (strahler_loop rows list_of_childs branch_nodes "greedy" fuel
         starting_points d2 processed).
Proof.
  induction fuel as [|fuel IH]; intros [|sp0 sps] d1 d2 processed Hd;
    try done.
  rewrite !strahler_loop_step.
  set (sps' := sp0 :: sps).
  pose proof (for_each_rel state_le
                (process_starting_point rows list_of_childs branch_nodes
                   "standard" fuel)
                (process_starting_point rows list_of_childs branch_nodes
                   "greedy" fuel)
                sps'
                (λ s1 s2 a Hs, process_starting_point_le _ _ _ _ s1 s2 a Hs)
                {| strahler_dict := d1; nodes_processed := processed;
                   new_starting_points := []; starting_points_done := [] |}
                {| strahler_dict := d2; nodes_processed := processed;
                   new_starting_points := []; starting_points_done := [] |})
    as Hpass.
  match type of Hpass with ?P → _ =>
    assert (Hinit : P) by (repeat split; done) end.
  specialize (Hpass Hinit). clear Hinit.
  match type of Hpass with res_rel _ ?r1 ?r2 =>
    destruct r1 as [st1| |], r2 as [st2| |] end; simpl in Hpass; try done.
  destruct Hpass as (Hd' & Hproc & Hnew & Hdone).
  rewrite Hproc, Hnew, Hdone.
  destruct (for_each (λ l n, list_remove n l) sps' (starting_points_done st2))
    as [remaining| |]; try done.
  by apply IH.
Qed.

Lemma zip_with_strahler_le (c1 c2 : list (option Z)) (rows : list Node) :
  Forall2 index_le c1 c2 →
  Forall2 row_le (zip_with with_strahler c1 rows)
    (zip_with with_strahler c2 rows).
Proof.
  intros Hc. revert rows.
  induction Hc as [|a b c1 c2 Hab _ IH]; intros [|r rows]; simpl;
    try constructor.
  - by split.
  - apply IH.
Qed.

(** C6. On the same neuron the two methods end in the same way (both
    return, both raise the same exception, or both need more fuel), and when
    they return, every node's index under 'greedy' is at least its index
    under 'standard'. *)
Theorem strahler_greedy_ge_standard (fuel : nat) (x : Neuron) :
  res_rel (λ xs xg, Forall2 row_le (nodes xs) (nodes xg))
    (strahler_index fuel x "standard") (strahler_index fuel x "greedy").
Proof.
  unfold strahler_index, strahler_indices.
  pose proof (strahler_loop_le (nodes x) (generate_list_of_childs x)
                (ids_of_type branch (nodes x)) fuel
                (ids_of_type end_node (nodes x))
                ((λ _, None) <$> generate_list_of_childs x)
                ((λ _, None) <$> generate_list_of_childs x) []) as Hloop.
  match type of Hloop with ?P → _ => assert (Hinit : P) end.
  { intros k. destruct (_ !! k) as [[v|]|]; repeat constructor. simpl. lia. }
  specialize (Hloop Hinit). clear Hinit.
  match type of Hloop with res_rel _ ?r1 ?r2 =>
    destruct r1 as [d1| |], r2 as [d2| |] end; simpl in Hloop; try done.
  pose proof (for_list_rel index_le _ _ (treenode_ids x)
                (λ k, getitem_le _ _ k Hloop)) as Hcol.
  destruct (for_list (getitem d1) (treenode_ids x)) as [c1| |],
           (for_list (getitem d2) (treenode_ids x)) as [c2| |];
    simpl in Hcol; try done.
  simpl. by apply zip_with_strahler_le.
Qed.

(** On [example_tree] both methods return; they differ at the branch point
    2, where the incoming indices are 1 and 2, and at the root above it. *)
Example strahler_example_standard :
  index_column (strahler_index 10 example_tree "standard")
  = Some [(1, Some 2); (2, Some 2); (3, Some 1); (4, Some 2); (5, Some 1);
          (6, Some 1)].
Proof. vm_compute. reflexivity. Qed.

Example strahler_example_greedy :
  index_column (strahler_index 10 example_tree "greedy")
  = Some [(1, Some 3); (2, Some 3); (3, Some 1); (4, Some 2); (5, Some 1);
          (6, Some 1)].
Proof. vm_compute. reflexivity. Qed.

(** A root is never a starting point: it is reached on the spine of one of
    its children and takes the index of the last spine that reaches it.
    Here the root 1 has the two leaves 2 and 3 as children. *)
Example strahler_example_forked_root :
  index_column
    (strahler_index 10
       (mk_neuron
          [mk_node 1 None root; mk_node 2 (Some 1) end_node;
           mk_node 3 (Some 1) end_node] [])
       "standard")
  = Some [(1, Some 1); (2, Some 1); (3, Some 1)].
Proof. vm_compute. reflexivity. Qed.

(** C2. The engine breaks the rule at a root that forks.  Only nodes of
    type 'branch' stop a spine and are processed from their children; a
    root is of type 'root' even when it has several children, so it is
    walked on the spine of a child and takes that spine's index.  In
    [example_forked_root] the root 1 has the children 2 and 3, both of
    index 1: it gets 1 where the rule gives 2.  In [example_binary_tree]
    the root has the children 2 and 3, both of index 2: it gets 2 where
    the rule gives 3. *)
Theorem strahler_forked_root_against_rule :
  (generate_list_of_childs example_forked_root !! 1 = Some [2; 3]
   ∧ index_column (strahler_index 10 example_forked_root "standard")
     = Some [(1, Some 1); (2, Some 1); (3, Some 1)]
   ∧ strahler_rule "standard" [1; 1] 2
   ∧ ¬ strahler_rule "standard" [1; 1] 1)
  ∧ (generate_list_of_childs example_binary_tree !! 1 = Some [2; 3]
     ∧ index_column (strahler_index 10 example_binary_tree "standard")
       = Some [(1, Some 2); (2, Some 2); (3, Some 2); (4, Some 1);
               (5, Some 1); (6, Some 1); (7, Some 1)]
     ∧ strahler_rule "standard" [2; 2] 3
     ∧ ¬ strahler_rule "standard" [2; 2] 2).
Proof.
  assert (Hrule : ∀ v, strahler_rule "standard" [v; v] (v + 1)
                       ∧ ¬ strahler_rule "standard" [v; v] v).
  { intros v.
    assert (Hmax : ∀ m, is_max m [v; v] → m = v).
    { intros m [Hm _]. by repeat apply elem_of_cons in Hm as [->|Hm];
        try by apply elem_of_nil in Hm. }
    assert (Hcount : (2 ≤ count_occ Z.eq_dec [v; v] v)%nat).
    { simpl. by destruct (Z.eq_dec v v). }
    split.
    - exists v. split; [|split].
      + split; [apply list_elem_of_here|].
        intros w Hw. repeat apply elem_of_cons in Hw as [->|Hw]; try lia.
        by apply elem_of_nil in Hw.
      + done.
      + intros Hnot. exfalso. apply Hnot. by left.
    - intros (m & Hm & Hplus & _). apply Hmax in Hm as ->.
      specialize (Hplus (or_introl Hcount)). lia. }
  split.
  - split; [vm_compute; reflexivity|]. split; [vm_compute; reflexivity|].
    apply (Hrule 1).
  - split; [vm_compute; reflexivity|]. split; [vm_compute; reflexivity|].
    apply (Hrule 2).
Qed.

(** ** Pruning by Strahler index *)

Lemma index_rows_ids (r1 r2 : list Node) :
  index_rows r1 = index_rows r2 → treenode_id <$> r1 = treenode_id <$> r2.
Proof.
  intros Heq. apply (f_equal (fmap fst)) in Heq.
  unfold index_rows in Heq. by rewrite <- !list_fmap_compose in Heq.
Qed.

Lemma index_rows_column (r1 r2 : list Node) :
  index_rows r1 = index_rows r2 →
  node_strahler_index <$> r1 = node_strahler_index <$> r2.
Proof.
  intros Heq. apply (f_equal (fmap snd)) in Heq.
  unfold index_rows in Heq. by rewrite <- !list_fmap_compose in Heq.
Qed.

Lemma index_rows_repair (rows : list Node) :
  index_rows (repair_parents rows) = index_rows rows.
Proof.
  unfold index_rows, repair_parents. rewrite <- list_fmap_compose.
  apply list_fmap_ext. intros i r _. simpl. by destruct (isin _ _).
Qed.

Lemma index_rows_filter (P : option Z → Prop) `{∀ v, Decision (P v)}
    (rows : list Node) :
  index_rows (filter (λ r, P (node_strahler_index r)) rows)
  = filter (λ p, P p.2) (index_rows rows).
Proof.
  induction rows as [|r rows IH]; [done|].
  rewrite filter_cons. unfold index_rows at 2. rewrite fmap_cons, filter_cons.
  simpl. destruct (decide (P (node_strahler_index r))).
  - unfold index_rows at 1. rewrite fmap_cons. f_equal. apply IH.
  - apply IH.
Qed.

Lemma filter_all {A} (P : A → Prop) `{∀ a, Decision (P a)} (l : list A) :
  Forall P l → filter P l = l.
Proof.
  induction 1 as [|a l Ha _ IH]; [done|].
  rewrite filter_cons, decide_True by done. by rewrite IH.
Qed.

Lemma filter_none {A} (P : A → Prop) `{∀ a, Decision (P a)} (l : list A) :
  Forall (λ a, ¬ P a) l → filter P l = [].
Proof.
  induction 1 as [|a l Ha _ IH]; [done|].
  by rewrite filter_cons, decide_False.
Qed.

Lemma mapM_column (rows : list Node) :
  mapM node_strahler_index rows
  = mapM (λ v : option Z, v) (node_strahler_index <$> rows).
Proof.
  induction rows as [|r rows IH]; [done|]. simpl. by rewrite IH.
Qed.

Lemma strahler_max_ext (r1 r2 : list Node) :
  index_rows r1 = index_rows r2 → strahler_max r1 = strahler_max r2.
Proof.
  intros Heq%index_rows_column. unfold strahler_max.
  by rewrite !mapM_column, Heq.
Qed.

Lemma strahler_max_Ok (rows : list Node) (m : Z) :
  strahler_max rows = Ok m ↔
  ∃ vs, node_strahler_index <$> rows = Some <$> vs ∧ vs ≠ [] ∧ is_max m vs.
Proof.
  unfold strahler_max. rewrite mapM_column. split.
  - destruct (mapM _ _) as [[|v vs]|] eqn:HM; try done.
    intros [= <-]. exists (v :: vs).
    apply mapM_Some in HM.
    split; [|split; [done|by apply (list_max_is_max (v :: vs))]].
    clear -HM. induction HM as [|a b l k Hab _ IH]; [done|].
    simpl in *. by rewrite Hab, IH.
  - intros (vs & -> & Hne & Hmax).
    fold (all_computed (Some <$> vs)). rewrite all_computed_Some.
    destruct vs as [|v vs]; [done|]. f_equal.
    eapply is_max_unique; [by apply list_max_is_max|done].
Qed.

Lemma elem_of_py_range (i start stop : Z) :
  i ∈ py_range start stop ↔ start ≤ i < stop.
Proof. unfold py_range. rewrite elem_of_seqZ. lia. Qed.


Lemma for_list_Forall {A B} (f : A → res B) (P : B → Prop) (l : list A)
    (l' : list B) :
  (∀ a b, f a = Ok b → P b) → for_list f l = Ok l' → Forall P l'.
Proof.
  intros Hf. revert l'. induction l as [|a l IH]; intros l'; simpl.
  - intros [= <-]. constructor.
  - destruct (f a) as [b| |] eqn:Hb; try done.
    destruct (for_list f l) as [bs| |]; try done.
    intros [= <-]. constructor; eauto.
Qed.

Lemma for_list_fixed {A} (f : A → res A) (l : list A) :
  Forall (λ a, f a = Ok a) l → for_list f l = Ok l.
Proof.
  induction 1 as [|a l Ha _ IH]; simpl; [done|]. by rewrite Ha, IH.
Qed.

Lemma nearest_remaining_elem fuel parent_dict remaining_tns :
  ∀ this_tn t,
    nearest_remaining fuel parent_dict remaining_tns this_tn = Ok t →
    t ∈ remaining_tns.
Proof.
  induction fuel as [|fuel IH]; intros [t0|] t; simpl; try done.
  - case_bool_decide; [|done]. by intros [= <-].
  - case_bool_decide; [by intros [= <-]|].
    destruct (getitem parent_dict t0); try done. apply IH.
Qed.

Lemma relocate_connector_elem fuel parent_dict remaining_tns cn cn' :
  relocate_connector fuel parent_dict remaining_tns cn = Ok cn' →
  cn_treenode_id cn' ∈ remaining_tns.
Proof.
  unfold relocate_connector. case_bool_decide; [by intros [= <-]|].
  destruct (getitem parent_dict _); try done.
  destruct (nearest_remaining _ _ _ _) as [t| |] eqn:Ht; try done.
  intros [= <-]. simpl. by eapply nearest_remaining_elem.
Qed.

Lemma relocate_connector_fixed fuel parent_dict remaining_tns cn :
  cn_treenode_id cn ∈ remaining_tns →
  relocate_connector fuel parent_dict remaining_tns cn = Ok cn.
Proof. intros Hin. unfold relocate_connector. by rewrite bool_decide_eq_true_2. Qed.

Lemma column_filter (rows : list Node) (vs indices : list Z) :
  node_strahler_index <$> rows = Some <$> vs →
  node_strahler_index <$>
    filter (λ r, ¬ isin (node_strahler_index r) indices) rows
  = Some <$> filter (λ v, v ∉ indices) vs.
Proof.
  revert vs. induction rows as [|r rows IH]; intros [|v vs] Hcol; try done.
  injection Hcol as Hr Hcol. rewrite !filter_cons, Hr. simpl.
  specialize (IH vs ltac:(done)).
  destruct (decide (v ∈ indices)) as [Hin|Hin].
  - rewrite bool_decide_eq_true_2 by done.
    rewrite decide_False by (simpl; tauto).
    by rewrite decide_False by tauto.
  - rewrite bool_decide_eq_false_2 by done.
    rewrite decide_True by (simpl; tauto).
    rewrite decide_True by done.
    rewrite !fmap_cons, Hr, IH. done.
Qed.

(** Pruning with a negative integer keeps the nodes of largest index, so
    the largest index is the same afterwards. *)
Lemma strahler_max_survives (rows : list Node) (m k : Z) :
  k < 0 → strahler_max rows = Ok m →
  strahler_max
    (filter (λ r, ¬ isin (node_strahler_index r) (py_range 1 (m + (k + 1))))
       rows)
  = Ok m.
Proof.
  intros Hk. rewrite !strahler_max_Ok.
  intros (vs & Hcol & _ & Hin & Hge).
  exists (filter (λ v, v ∉ py_range 1 (m + (k + 1))) vs).
  assert (Hm : m ∈ filter (λ v, v ∉ py_range 1 (m + (k + 1))) vs).
  { apply list_elem_of_filter. split; [|done].
    rewrite elem_of_py_range. lia. }
  split; [by apply column_filter|]. split.
  - intros Hnil. rewrite Hnil in Hm. by apply elem_of_nil in Hm.
  - split; [done|]. intros v [_ Hv]%list_elem_of_filter. by apply Hge.
Qed.

Section prune_properties.
Context (core : Core) (laws : CoreLaws core).

Lemma prune_prepare_has_index fuel x reroot_soma force neuron :
  prune_prepare fuel x reroot_soma force = Ok neuron →
  has_strahler_index neuron = true.
Proof.
  unfold prune_prepare.
  set (n0 := match (if reroot_soma then soma x else None) with
             | Some s => reroot x s
             | None => x
             end).
  destruct (negb (has_strahler_index n0) || force) eqn:E.
  - unfold strahler_index. destruct (strahler_indices _ _ _); try done.
    destruct (for_list _ _); try done. by intros [= <-].
  - intros [= <-]. apply orb_false_iff in E as [E _].
    by apply negb_false_iff.
Qed.

(** With the index column in place, no forced update and no rerooting,
    preparing a neuron returns it as it is. *)
Lemma prune_prepare_reuse fuel x (reroot_soma : bool) :
  has_strahler_index x = true →
  (if reroot_soma then soma x else None) = None →
  prune_prepare fuel x reroot_soma false = Ok x.
Proof.
  intros Hcol Hroot. unfold prune_prepare. rewrite Hroot, Hcol. done.
Qed.

Lemma prune_prepared_unfold fuel neuron to_prune relocate x' :
  prune_prepared fuel neuron to_prune relocate = Ok x' →
  ∃ indices cns,
    let rows := filter (λ r, ¬ isin (node_strahler_index r) indices)
                  (nodes neuron) in
    indices_to_prune to_prune (nodes neuron) = Ok indices
    ∧ Forall (λ c, cn_treenode_id c ∈ treenode_id <$> rows) cns
    ∧ (relocate = false →
       cns = filter (λ c, cn_treenode_id c ∈ treenode_id <$> rows)
               (connectors neuron))
    ∧ x' = clear_temp_attr
             {| nodes := repair_parents rows; connectors := cns;
                has_strahler_index := has_strahler_index neuron |}.
Proof.
  unfold prune_prepared.
  destruct (indices_to_prune to_prune (nodes neuron)) as [indices| |];
    try done.
  destruct relocate.
  - destruct (for_list _ (connectors neuron)) as [cns| |] eqn:Hcns; try done.
    intros [= <-]. exists indices, cns. repeat split; try done.
    eapply for_list_Forall; [|exact Hcns].
    intros c c'. apply relocate_connector_elem.
  - intros [= <-]. eexists indices, _. repeat split; try done.
    apply Forall_forall. intros c Hc.
    by apply list_elem_of_filter in Hc as [Hc _].
Qed.

Lemma prune_prepared_tables fuel neuron to_prune relocate x' :
  prune_prepared fuel neuron to_prune relocate = Ok x' →
  ∃ indices,
    indices_to_prune to_prune (nodes neuron) = Ok indices
    ∧ index_rows (nodes x')
      = index_rows (filter (λ r, ¬ isin (node_strahler_index r) indices)
                      (nodes neuron))
    ∧ Forall (λ c, cn_treenode_id c ∈ treenode_ids x') (connectors x').
Proof.
  intros (indices & cns & Hidx & Hcns & _ & ->)%prune_prepared_unfold.
  exists indices. split; [done|].
  match goal with |- context [clear_temp_attr ?n] =>
    destruct (clear_temp_attr_same_tables n) as (Hrows & Hc) end.
  simpl in *. rewrite Hrows, Hc, index_rows_repair.
  repeat split; try done.
  unfold treenode_ids.
  rewrite (index_rows_ids _ _ Hrows), (index_rows_ids _ _ (index_rows_repair _)).
  done.
Qed.

(** Without relocation, or with every connector already on a remaining
    treenode, pruning a prepared neuron returns. *)
Lemma prune_prepared_returns fuel neuron to_prune relocate indices :
  indices_to_prune to_prune (nodes neuron) = Ok indices →
  relocate = false
  ∨ Forall (λ c, cn_treenode_id c
                 ∈ treenode_id <$>
                     filter (λ r, ¬ isin (node_strahler_index r) indices)
                       (nodes neuron))
      (connectors neuron) →
  ∃ x', prune_prepared fuel neuron to_prune relocate = Ok x'.
Proof.
  intros Hidx Hrel. unfold prune_prepared. rewrite Hidx.
  destruct relocate; [|by eexists].
  destruct Hrel as [?|Hcns]; [done|].
  rewrite for_list_fixed; [by eexists|].
  eapply Forall_impl; [exact Hcns|].
  intros c Hc. by apply relocate_connector_fixed.
Qed.

(** C4, as the code has it. When every node of the prepared neuron carries
    an index that is to be pruned, [prune_by_strahler] (without connector
    relocation) does not fail: it returns a neuron whose node and connector
    tables are empty. *)
Theorem prune_everything_returns_empty fuel x to_prune reroot_soma force
    neuron indices :
  prune_prepare fuel x reroot_soma force = Ok neuron →
  indices_to_prune to_prune (nodes neuron) = Ok indices →
  Forall (λ r, isin (node_strahler_index r) indices) (nodes neuron) →
  ∃ x', prune_by_strahler fuel x to_prune reroot_soma force false = Ok x'
        ∧ nodes x' = [] ∧ connectors x' = [].
Proof.
  intros Hprep Hidx Hall. unfold prune_by_strahler. rewrite Hprep.
  destruct (prune_prepared_returns fuel neuron to_prune false indices Hidx)
    as [x' Hx']; [by left|].
  exists x'. split; [done|].
  apply prune_prepared_unfold in Hx'
    as (indices' & cns & Hidx' & _ & Hcns & ->).
  rewrite Hidx in Hidx'. injection Hidx' as <-.
  specialize (Hcns eq_refl).
  assert (Hnone : filter (λ r, ¬ isin (node_strahler_index r) indices)
                    (nodes neuron) = []).
  { apply filter_none. eapply Forall_impl; [exact Hall|].
    intros r Hr Hn. by apply Hn. }
  rewrite Hnone in *.
  rewrite filter_none in Hcns.
  2:{ apply Forall_forall. intros c _ Hc. by apply elem_of_nil in Hc. }
  subst cns.
  match goal with |- context [clear_temp_attr ?n] =>
    destruct (clear_temp_attr_same_tables n) as (Hrows & Hc) end.
  simpl in *. split; [|done].
  by apply fmap_nil_inv in Hrows.
Qed.

(** C7, as the code has it. A second pruning with the same target returns
    and removes no further node when it reuses the indices stored by the
    first: the result of the first pass still carries its index column, no
    update of the indices is forced and the second pass does not reroot. *)
Theorem prune_twice_removes_nothing fuel fuel' x to_prune
    reroot_soma force relocate (reroot_soma' : bool) relocate' x1 :
  prune_by_strahler fuel x to_prune reroot_soma force relocate = Ok x1 →
  has_strahler_index x1 = true →
  (if reroot_soma' then soma x1 else None) = None →
  ∃ x2,
    prune_by_strahler fuel' x1 to_prune reroot_soma' false relocate' = Ok x2
    ∧ treenode_ids x2 = treenode_ids x1.
Proof.
  unfold prune_by_strahler at 1.
  destruct (prune_prepare fuel x reroot_soma force) as [y| |] eqn:Hprep;
    try done.
  intros Hfirst Hhas1 Hroot.
  apply prune_prepared_tables in Hfirst as (L & HL & Hrows1 & Hcns1).
  unfold prune_by_strahler.
  rewrite (prune_prepare_reuse fuel' x1 reroot_soma' Hhas1 Hroot).
  set (rows := filter (λ r, ¬ isin (node_strahler_index r) L) (nodes y)) in *.
  assert (HL' : indices_to_prune to_prune (nodes x1) = Ok L).
  { destruct to_prune as [k|l|a b]; simpl in *; try done.
    case_bool_decide; [|done].
    destruct (strahler_max (nodes y)) as [m| |] eqn:Hmax; try done.
    injection HL as <-.
    rewrite (strahler_max_ext _ _ Hrows1). subst rows.
    by rewrite strahler_max_survives. }
  assert (Hkeep : filter (λ r, ¬ isin (node_strahler_index r) L) (nodes x1)
                  = nodes x1).
  { apply filter_all. apply Forall_forall. intros r Hr.
    assert (Hall : Forall (λ p, ¬ isin p.2 L) (index_rows (nodes x1))).
    { rewrite Hrows1. subst rows.
      pose proof (index_rows_filter (λ v, ¬ isin v L) (nodes y)) as Hf.
      cbv beta in Hf. rewrite Hf.
      apply Forall_forall. by intros p [Hp _]%list_elem_of_filter. }
    rewrite Forall_forall in Hall.
    apply (Hall (treenode_id r, node_strahler_index r)).
    unfold index_rows.
    by apply (list_elem_of_fmap_2
                (λ r, (treenode_id r, node_strahler_index r))). }
  destruct (prune_prepared_returns fuel' x1 to_prune relocate' L HL')
    as [x2 Hx2].
  { right. by rewrite Hkeep. }
  exists x2. split; [done|].
  apply prune_prepared_tables in Hx2 as (L2 & HL2 & Hrows2 & _).
  rewrite HL' in HL2. injection HL2 as <-. rewrite Hkeep in Hrows2.
  unfold treenode_ids.
  by rewrite (index_rows_ids _ _ Hrows2).
Qed.
End prune_properties.

Lemma reference_core_laws : CoreLaws reference_core.
Proof. split. intros x. by split. Qed.

(** C4, at a concrete neuron: with the default arguments every node of the
    unbranched [example_chain] has index 1 and is pruned, and the call
    returns the empty neuron instead of failing. *)
Lemma prune_everything_no_error :
  nodes example_chain ≠ []
  ∧ @prune_by_strahler reference_core 10 example_chain (PruneRange 1 2)
      true false false
    = Ok {| nodes := []; connectors := []; has_strahler_index := true |}.
Proof. split; [done|]. vm_compute. reflexivity. Qed.

Lemma prune_everything_returns_empty_witness :
  ∃ x', @prune_by_strahler reference_core 10 example_chain (PruneRange 1 2)
          true false false = Ok x'
        ∧ nodes x' = [] ∧ connectors x' = [].
Proof.
  eapply (prune_everything_returns_empty reference_core reference_core_laws
            10 example_chain (PruneRange 1 2) true false _ [1]).
  - vm_compute. reflexivity.
  - vm_compute. reflexivity.
  - repeat (constructor; [vm_compute; exact I|]). constructor.
Defined.


Lemma prune_twice_removes_nothing_witness :
  ∃ x1,
    @prune_by_strahler reference_core 10 example_neuron (PruneInt 1)
      true false true = Ok x1
    ∧ has_strahler_index x1 = true
    ∧ @soma reference_core x1 = None
    ∧ ∃ x2,
        @prune_by_strahler reference_core 0 x1 (PruneInt 1) true false true
        = Ok x2
        ∧ treenode_ids x2 = treenode_ids x1.
Proof.
  eexists. split; [vm_compute; reflexivity|].
  split; [reflexivity|]. split; [reflexivity|].
  apply (prune_twice_removes_nothing reference_core reference_core_laws
           10 0 example_neuron (PruneInt 1) true false true true true).
  - vm_compute. reflexivity.
  - reflexivity.
  - reflexivity.
Defined.

(** C7, at a concrete neuron: when the second pass recomputes the indices
    ([force_strahler_update=True]) it prunes again.  In [example_bush] the
    branch point 2 has index 3 and the root takes it; pruning the index 2
    removes the branch points 5 and 8; on what is left, branch point 2 has
    only the leaves 3 and 4 below it, so that the recomputed index of 2,
    and of the root, is 2, and the second pass removes them. *)
Lemma prune_twice_removes_more :
  ∃ x1 x2,
    @prune_by_strahler reference_core 10 example_bush (PruneList [2])
      true true false = Ok x1
    ∧ @prune_by_strahler reference_core 10 x1 (PruneList [2])
        true true false = Ok x2
    ∧ treenode_ids x1 = [1; 2; 3; 4; 6; 7; 9; 10]
    ∧ treenode_ids x2 = [3; 4; 6; 7; 9; 10].
Proof.
  eexists _, _. split; [vm_compute; reflexivity|].
  split; [vm_compute; reflexivity|]. split; reflexivity.
Qed.

(** Pruning the leaves of [example_neuron] with relocation moves the three
    connectors onto the branch points above them. *)
Example prune_example_relocation :
  match @prune_by_strahler reference_core 10 example_neuron (PruneInt 1)
          true false true with
  | Ok x' => Some (treenode_ids x', cn_treenode_id <$> connectors x')
  | _ => None
  end = Some ([1; 2; 4], [4; 4; 2]).
Proof. vm_compute. reflexivity. Qed.

(** ** Confidence propagation *)

Lemma rows_unique (rows : list Node) (r1 r2 : Node) :
  NoDup (treenode_id <$> rows) → r1 ∈ rows → r2 ∈ rows →
  treenode_id r1 = treenode_id r2 → r1 = r2.
Proof.
  intros Hnd H1 H2 Hid.
  apply list_elem_of_lookup in H1 as [i Hi], H2 as [j Hj].
  assert (i = j) as ->; [|congruence].
  eapply NoDup_lookup; [exact Hnd| |].
  - by rewrite list_lookup_fmap, Hi.
  - by rewrite list_lookup_fmap, Hj, Hid.
Qed.

Lemma node_loc_unique (rows : list Node) (r : Node) :
  NoDup (treenode_id <$> rows) → r ∈ rows →
  node_loc rows (treenode_id r) = Ok r.
Proof.
  intros Hnd Hr. unfold node_loc.
  destruct (find _ rows) as [r'|] eqn:Hfind.
  - apply find_some in Hfind as [Hin Hid].
    apply bool_decide_eq_true in Hid. apply list_elem_of_In in Hin.
    f_equal. by eapply rows_unique.
  - exfalso. apply list_elem_of_In in Hr.
    apply (find_none _ _ Hfind) in Hr. by apply bool_decide_eq_false in Hr.
Qed.

Lemma childs_lookup (x : Neuron) (n : Z) (cs : list Z) :
  generate_list_of_childs x !! n = Some cs →
  cs = treenode_id <$> filter (λ c, parent_id c = Some n) (nodes x).
Proof.
  unfold generate_list_of_childs. intros Hl%elem_of_list_to_map_2.
  apply list_elem_of_fmap in Hl as (r & [= -> ->] & _). done.
Qed.

Lemma for_each_singleton {S A} (body : S → A → res S) (s : S) (a : A) :
  for_each body s [a] = body s a.
Proof. simpl. by destruct (body s a). Qed.

Lemma walk_to_leafs_step rows loc confidences fuel this_node v col :
  walk_to_leafs rows loc confidences (S fuel) this_node v col
  = let! f := confidence_factor rows confidences this_node in
    let! childs := getitem loc this_node in
    for_each (λ col c, walk_to_leafs rows loc confidences fuel c (v * f)%Q col)
      (<[this_node := (v * f)%Q]> col) childs.
Proof.
  simpl. destruct (confidence_factor _ _ _) as [f| |]; try done.
  destruct (getitem loc this_node) as [[|c [|c' cs]]| |]; try done.
  by rewrite for_each_singleton.
Qed.

Section confidence_properties.
Variable x : Neuron.
Variable confidences : list Q.
Hypothesis ids_unique : NoDup (treenode_id <$> nodes x).

Local Abbreviation rows := (nodes x).
Local Abbreviation loc := (generate_list_of_childs x).
Local Abbreviation column_consistent := (column_consistent (nodes x) confidences).
Local Abbreviation children_done := (children_done (nodes x)).
Local Abbreviation is_child_of := (is_child_of (nodes x)).
Local Abbreviation walked := (walked (nodes x) confidences).

Lemma children_done_mono (col col' : gmap Z Q) (n : Z) :
  col ⊆ col' → children_done col n → children_done col' n.
Proof.
  intros Hsub Hdone r Hr Hp. destruct (Hdone r Hr Hp) as [v Hv].
  exists v. by eapply lookup_weaken.
Qed.

Lemma column_write (col : gmap Z Q) (c p : Z) (v f : Q) :
  column_consistent col →
  is_child_of p c → p ≠ c → col !! p = Some v →
  confidence_factor rows confidences c = Ok f →
  column_consistent (<[c := (v * f)%Q]> col) ∧ col ⊆ <[c := (v * f)%Q]> col.
Proof.
  intros Hinv (rc & Hrc & Hidc & Hpc) Hne Hp Hf.
  assert (Hold : ∀ w, col !! c = Some w → w = (v * f)%Q).
  { intros w Hw. specialize (Hinv rc w Hrc). rewrite Hidc, Hpc in Hinv.
    destruct (Hinv Hw) as (vp & f' & Hvp & Hf' & ->). congruence. }
  assert (Hsub : col ⊆ <[c := (v * f)%Q]> col).
  { destruct (col !! c) as [w|] eqn:Hc.
    - rewrite (Hold w eq_refl) in Hc. by rewrite insert_id.
    - by apply insert_subseteq. }
  split; [|done].
  intros r w Hr Hw. destruct (decide (treenode_id r = c)) as [Hid|Hid].
  - rewrite Hid, lookup_insert_eq in Hw. injection Hw as <-.
    assert (r = rc) as -> by (eapply rows_unique; eauto; congruence).
    rewrite Hpc. exists v, f. rewrite lookup_insert_ne by done.
    by rewrite Hidc.
  - rewrite lookup_insert_ne in Hw by done.
    specialize (Hinv r w Hr Hw). destruct (parent_id r) as [p'|]; [|done].
    destruct Hinv as (vp & f' & Hvp & Hf' & ->).
    exists vp, f'. split; [|done]. by eapply lookup_weaken.
Qed.

Lemma walk_children (walk : Z → Q → gmap Z Q → res (gmap Z Q)) (n : Z) (v : Q) :
  (∀ c col col',
     column_consistent col → is_child_of n c → n ≠ c → col !! n = Some v →
     walk c v col = Ok col' → walked c col col') →
  ¬ is_child_of n n →
  ∀ cs col col',
    (∀ c, c ∈ cs → is_child_of n c) →
    column_consistent col → col !! n = Some v →
    for_each (λ col c, walk c v col) col cs = Ok col' →
    column_consistent col' ∧ col ⊆ col'
    ∧ (∀ m, is_Some (col' !! m) → is_Some (col !! m) ∨ children_done col' m)
    ∧ ∀ c, c ∈ cs → is_Some (col' !! c).
Proof.
  intros Hwalk Hself. induction cs as [|c cs IH]; intros col col' Hcs Hinv Hn;
    simpl.
  - intros [= <-]. repeat split; try done.
    + intros m Hm. by left.
    + intros c Hc. by apply elem_of_nil in Hc.
  - destruct (walk c v col) as [col1| |] eqn:Hw; try done. intros Hrest.
    assert (Hc : is_child_of n c) by apply Hcs, list_elem_of_here.
    assert (Hne : n ≠ c) by (intros ->; done).
    destruct (Hwalk c col col1 Hinv Hc Hne Hn Hw)
      as (Hinv1 & Hsub1 & Hcov1 & Hset1 & _).
    destruct (IH col1 col') as (Hinv' & Hsub' & Hcov' & Hset'); try done.
    { intros c' Hc'. by apply Hcs, list_elem_of_further. }
    { by eapply lookup_weaken. }
    repeat split; try done.
    + by etrans.
    + intros m Hm. destruct (Hcov' m Hm) as [Hm1|Hd]; [|by right].
      destruct (Hcov1 m Hm1) as [Hm0|Hd]; [by left|right].
      by eapply children_done_mono.
    + intros c' [->|Hc']%elem_of_cons; [|by apply Hset'].
      by eapply lookup_weaken_is_Some.
Qed.

Lemma childs_are_children (n : Z) (cs : list Z) :
  loc !! n = Some cs →
  (∀ c, c ∈ cs → is_child_of n c)
  ∧ ∀ col, (∀ c, c ∈ cs → is_Some (col !! c)) → children_done col n.
Proof.
  intros ->%childs_lookup. split.
  - intros c (r & -> & [Hp Hr]%list_elem_of_filter)%list_elem_of_fmap.
    by exists r.
  - intros col Hset r Hr Hp. apply Hset, list_elem_of_fmap_2.
    by apply list_elem_of_filter.
Qed.

Lemma walk_to_leafs_walked fuel :
  ∀ c p v col col',
    column_consistent col → is_child_of p c → p ≠ c → col !! p = Some v →
    walk_to_leafs rows loc confidences fuel c v col = Ok col' →
    walked c col col'.
Proof.
  induction fuel as [|fuel IH]; intros c p v col col' Hinv Hc Hne Hp; [done|].
  rewrite walk_to_leafs_step.
  destruct (confidence_factor rows confidences c) as [f| |] eqn:Hf; try done.
  unfold getitem. destruct (loc !! c) as [cs|] eqn:Hcs; [|done].
  intros Hrest.
  destruct (column_write col c p v f Hinv Hc Hne Hp Hf) as [Hinv1 Hsub1].
  destruct (childs_are_children c cs Hcs) as [Hchildren Hdone].
  assert (Hself : ¬ is_child_of c c).
  { intros (r & Hr & Hid & Hpr). destruct Hc as (rc & Hrc & Hidc & Hpc).
    assert (r = rc) as -> by (eapply rows_unique; eauto; congruence).
    congruence. }
  destruct (walk_children
              (walk_to_leafs rows loc confidences fuel) c (v * f)%Q)
    with (cs := cs) (col := <[c := (v * f)%Q]> col) (col' := col')
    as (Hinv' & Hsub' & Hcov' & Hset'); try done.
  { intros c' col0 col0' Hinv0 Hc0 Hne0 Hv0 Hw0. by eapply IH. }
  { apply lookup_insert_eq. }
  assert (Hcset : is_Some (col' !! c)).
  { eapply lookup_weaken_is_Some; [|exact Hsub'].
    rewrite lookup_insert_eq. by eexists. }
  repeat split; try done.
  - by etrans.
  - intros m Hm. destruct (Hcov' m Hm) as [Hm1|Hd]; [|by right].
    destruct (decide (m = c)) as [->|Hmc].
    + right. by apply Hdone.
    + left. by rewrite lookup_insert_ne in Hm1.
  - by apply Hdone.
Qed.

Lemma root_column_lookup (rs : list Z) (col : gmap Z Q) (n : Z) :
  foldl (λ col r, <[r := 1%Q]> col) col rs !! n
  = if bool_decide (n ∈ rs) then Some 1%Q else col !! n.
Proof.
  revert col. induction rs as [|r rs IH]; intros col; simpl; [done|].
  rewrite IH. destruct (decide (n = r)) as [->|Hne].
  - rewrite lookup_insert_eq.
    rewrite (bool_decide_eq_true_2 (r ∈ r :: rs)) by apply list_elem_of_here.
    by case_bool_decide.
  - rewrite lookup_insert_ne by done.
    repeat case_bool_decide; try done.
    + exfalso. eauto using list_elem_of_further.
    + exfalso. apply elem_of_cons in H0 as [?|?]; done.
Qed.

Lemma root_ids_spec (n : Z) :
  n ∈ root_ids x ↔ ∃ r, r ∈ rows ∧ treenode_id r = n ∧ parent_id r = None.
Proof.
  unfold root_ids. rewrite list_elem_of_fmap. split.
  - intros (r & -> & [Hp Hr]%list_elem_of_filter). by exists r.
  - intros (r & Hr & <- & Hp). exists r. split; [done|].
    by apply list_elem_of_filter.
Qed.

Lemma walk_roots fuel :
  ∀ rs col col',
    (∀ r, r ∈ rs → r ∈ root_ids x) →
    column_consistent col → (∀ r, r ∈ rs → col !! r = Some 1%Q) →
    for_each
      (λ col r,
         let! childs := getitem loc r in
         for_each (λ col c, walk_to_leafs rows loc confidences fuel c 1%Q col)
           col childs)
      col rs = Ok col' →
    column_consistent col' ∧ col ⊆ col'
    ∧ (∀ m, is_Some (col' !! m) → is_Some (col !! m) ∨ children_done col' m)
    ∧ ∀ r, r ∈ rs → children_done col' r.
Proof.
  induction rs as [|r rs IH]; intros col col' Hroots Hinv Hone; simpl.
  - intros [= <-]. repeat split; try done.
    + intros m Hm. by left.
    + intros r Hr. by apply elem_of_nil in Hr.
  - unfold getitem at 1. destruct (loc !! r) as [cs|] eqn:Hcs; [|done].
    destruct (for_each _ col cs) as [col1| |] eqn:Hw; try done. intros Hrest.
    assert (Hroot : r ∈ root_ids x) by apply Hroots, list_elem_of_here.
    apply root_ids_spec in Hroot as (rr & Hrr & Hidr & Hpr).
    assert (Hself : ¬ is_child_of r r).
    { intros (r' & Hr' & Hid' & Hp').
      assert (r' = rr) as -> by (eapply rows_unique; eauto; congruence).
      congruence. }
    destruct (childs_are_children r cs Hcs) as [Hchildren Hdone].
    destruct (walk_children
                (walk_to_leafs rows loc confidences fuel) r 1%Q)
      with (cs := cs) (col := col) (col' := col1)
      as (Hinv1 & Hsub1 & Hcov1 & Hset1); try done.
    { intros c col0 col0' Hinv0 Hc0 Hne0 Hv0 Hw0.
      by eapply walk_to_leafs_walked. }
    { apply Hone, list_elem_of_here. }
    destruct (IH col1 col') as (Hinv' & Hsub' & Hcov' & Hdone'); try done.
    { intros r' Hr'. by apply Hroots, list_elem_of_further. }
    { intros r' Hr'. eapply lookup_weaken; [|exact Hsub1].
      by apply Hone, list_elem_of_further. }
    repeat split; try done.
    + by etrans.
    + intros m Hm. destruct (Hcov' m Hm) as [Hm1|Hd]; [|by right].
      destruct (Hcov1 m Hm1) as [Hm0|Hd]; [by left|right].
      by eapply children_done_mono.
    + intros r' [->|Hr']%elem_of_cons; [|by apply Hdone'].
      eapply children_done_mono; [exact Hsub'|]. by apply Hdone.
Qed.

(** The column computed by [arbor_confidence], edge by edge. *)
Lemma arbor_confidence_edges fuel col :
  arbor_confidence fuel x confidences = Ok col →
  ∀ r, r ∈ nodes x →
    match parent_id r with
    | None => col !! treenode_id r = Some 1%Q
    | Some p =>
        ∀ vp, col !! p = Some vp →
          ∃ f, py_index confidences (5 - confidence r) = Ok f
               ∧ col !! treenode_id r = Some (vp * f)%Q
    end.
Proof.
  unfold arbor_confidence. intros Hrun.
  set (col0 := foldl (λ col r, <[r := 1%Q]> col) ∅ (root_ids x)) in Hrun.
  assert (Hinv0 : column_consistent col0).
  { intros r v Hr Hv. subst col0. rewrite root_column_lookup in Hv.
    case_bool_decide as Hroot; [|done]. injection Hv as <-.
    apply root_ids_spec in Hroot as (r' & Hr' & Hid & Hp).
    assert (r' = r) as -> by (by eapply rows_unique). by rewrite Hp. }
  apply walk_roots in Hrun as (Hinv & Hsub & Hcov & Hdone); try done.
  2:{ intros r Hr. subst col0. rewrite root_column_lookup.
      by rewrite bool_decide_eq_true_2. }
  assert (Hall : ∀ m, is_Some (col !! m) → children_done col m).
  { intros m Hm. destruct (Hcov m Hm) as [[v Hv]|Hd]; [|done].
    subst col0. rewrite root_column_lookup in Hv.
    case_bool_decide as Hroot; [|done]. by apply Hdone. }
  intros r Hr. destruct (parent_id r) as [p|] eqn:Hp.
  - intros vp Hvp.
    destruct (Hall p (ex_intro _ vp Hvp) r Hr Hp) as [w Hw].
    specialize (Hinv r w Hr Hw). rewrite Hp in Hinv.
    destruct Hinv as (vp' & f & Hvp' & Hf & ->).
    rewrite Hvp in Hvp'. injection Hvp' as <-.
    exists f. split; [|done].
    unfold confidence_factor in Hf. by rewrite node_loc_unique in Hf.
  - eapply lookup_weaken; [|exact Hsub]. subst col0.
    rewrite root_column_lookup, bool_decide_eq_true_2; [done|].
    apply root_ids_spec. by exists r.
Qed.
End confidence_properties.

Lemma for_each_returns {S A} (body : S → A → res S) (l : list A) :
  (∀ s a, a ∈ l → ∃ s', body s a = Ok s') →
  ∀ s, ∃ s', for_each body s l = Ok s'.
Proof.
  induction l as [|a l IH]; intros Hbody s; simpl; [by eexists|].
  destruct (Hbody s a) as [s' ->]; [apply list_elem_of_here|].
  apply IH. intros s0 a0 Ha0. by apply Hbody, list_elem_of_further.
Qed.

Lemma default_factor_exists (c : Z) :
  1 ≤ c ≤ 5 → ∃ f, py_index default_confidences (5 - c) = Ok f.
Proof.
  intros Hc.
  assert (c = 1 ∨ c = 2 ∨ c = 3 ∨ c = 4 ∨ c = 5) as Hcases by lia.
  destruct Hcases as [->|[->|[->|[->| ->]]]]; by eexists.
Qed.

Section confidence_termination.
Variable x : Neuron.
Variable depth : Z → nat.
Variable D : nat.
Hypothesis forest : well_formed (nodes x) depth D.
Hypothesis confidences_valid : ∀ r, r ∈ nodes x → 1 ≤ confidence r ≤ 5.

Lemma confidence_factor_exists (c : Z) :
  c ∈ treenode_ids x →
  ∃ f, confidence_factor (nodes x) default_confidences c = Ok f.
Proof.
  intros Hc. unfold confidence_factor.
  destruct (node_loc_exists (nodes x) c Hc) as [r Hr]. rewrite Hr.
  apply node_loc_elem in Hr as [Hr _].
  by apply default_factor_exists, confidences_valid.
Qed.

Lemma childs_below (c : Z) (cs : list Z) (c' : Z) :
  generate_list_of_childs x !! c = Some cs → c' ∈ cs →
  c' ∈ treenode_ids x ∧ (depth c < depth c' ≤ D)%nat.
Proof.
  intros ->%childs_lookup (r & -> & [Hp Hr]%list_elem_of_filter)%list_elem_of_fmap.
  split; [by apply list_elem_of_fmap_2|].
  by destruct (forest r c Hr Hp).
Qed.

Lemma walk_to_leafs_returns (fuel : nat) :
  ∀ c v col,
    c ∈ treenode_ids x → (depth c ≤ D)%nat → (D - depth c < fuel)%nat →
    ∃ col', walk_to_leafs (nodes x) (generate_list_of_childs x)
              default_confidences fuel c v col = Ok col'.
Proof.
  induction fuel as [|fuel IH]; intros c v col Hc HD Hfuel; [lia|].
  rewrite walk_to_leafs_step.
  destruct (confidence_factor_exists c Hc) as [f ->].
  destruct (childs_has_key x c Hc) as [cs Hcs].
  unfold getitem. rewrite Hcs.
  apply for_each_returns. intros col0 c' Hc'.
  destruct (childs_below c cs c' Hcs Hc') as [Hin Hlt].
  apply IH; [done|lia|lia].
Qed.

Lemma arbor_confidence_returns (fuel : nat) :
  (D < fuel)%nat →
  ∃ col, arbor_confidence fuel x default_confidences = Ok col.
Proof.
  intros Hfuel. unfold arbor_confidence.
  apply for_each_returns. intros col r Hr.
  assert (Hin : r ∈ treenode_ids x).
  { unfold root_ids in Hr.
    apply list_elem_of_fmap in Hr as (rr & -> & [_ Hrr]%list_elem_of_filter).
    by apply list_elem_of_fmap_2. }
  destruct (childs_has_key x r Hin) as [cs Hcs].
  unfold getitem. rewrite Hcs.
  apply for_each_returns. intros col0 c Hc.
  destruct (childs_below r cs c Hcs Hc) as [Hcin Hlt].
  apply walk_to_leafs_returns; [done|lia|lia].
Qed.
End confidence_termination.

(** C5, as the code has it. On a well-formed neuron with edge confidences
    1..5 and with enough fuel, [arbor_confidence] with its default table
    returns a column that gives every root the value 1 and every other node
    its parent's value times the factor found in the table
    [(1, 0.9, 0.6, 0.4, 0.2)] at index [5 - confidence]: 1 for confidence 5,
    then 0.9, 0.6, 0.4, and 0.2 for confidence 1. *)
Theorem arbor_confidence_default (fuel : nat) (x : Neuron)
    (depth : Z → nat) (D : nat) :
  NoDup (treenode_ids x) →
  (∀ r, r ∈ nodes x → 1 ≤ confidence r ≤ 5) →
  well_formed (nodes x) depth D → (D < fuel)%nat →
  ∃ col,
    arbor_confidence fuel x default_confidences = Ok col
    ∧ (∀ r, r ∈ nodes x →
         match parent_id r with
         | None => col !! treenode_id r = Some 1%Q
         | Some p =>
             ∃ vp f, col !! p = Some vp
                     ∧ py_index default_confidences (5 - confidence r) = Ok f
                     ∧ col !! treenode_id r = Some (vp * f)%Q
         end)
    ∧ py_index default_confidences (5 - 5) = Ok 1%Q
    ∧ py_index default_confidences (5 - 4) = Ok (9 # 10)%Q
    ∧ py_index default_confidences (5 - 3) = Ok (6 # 10)%Q
    ∧ py_index default_confidences (5 - 2) = Ok (4 # 10)%Q
    ∧ py_index default_confidences (5 - 1) = Ok (2 # 10)%Q.
Proof.
  intros Hids Hconf Hwf Hfuel.
  destruct (arbor_confidence_returns x depth D Hwf Hconf fuel Hfuel)
    as [col Hcol].
  exists col. split; [done|]. split; [|done].
  pose proof (arbor_confidence_edges x default_confidences Hids fuel col Hcol)
    as Hedges.
  assert (Hall : ∀ k r, r ∈ nodes x → depth (treenode_id r) = k →
                        is_Some (col !! treenode_id r)).
  { induction k as [k IH] using lt_wf_ind. intros r Hr Hk.
    specialize (Hedges r Hr). destruct (parent_id r) as [p|] eqn:Hp.
    - destruct (Hwf r p Hr Hp) as [Hpin Hlt].
      apply list_elem_of_fmap in Hpin as (rp & -> & Hrp).
      destruct (IH (depth (treenode_id rp))) with (r := rp) as [vp Hvp];
        [lia|done|done|].
      destruct (Hedges vp Hvp) as (f & _ & Hv). by eexists.
    - by eexists. }
  intros r Hr. specialize (Hedges r Hr).
  destruct (parent_id r) as [p|] eqn:Hp; [|done].
  destruct (Hwf r p Hr Hp) as [Hpin _].
  apply list_elem_of_fmap in Hpin as (rp & -> & Hrp).
  destruct (Hall _ rp Hrp eq_refl) as [vp Hvp].
  destruct (Hedges vp Hvp) as (f & Hf & Hv).
  by exists vp, f.
Qed.

Lemma arbor_confidence_default_witness :
  ∃ col,
    arbor_confidence 10 example_edge default_confidences = Ok col
    ∧ (∀ r, r ∈ nodes example_edge →
         match parent_id r with
         | None => col !! treenode_id r = Some 1%Q
         | Some p =>
             ∃ vp f, col !! p = Some vp
                     ∧ py_index default_confidences (5 - confidence r) = Ok f
                     ∧ col !! treenode_id r = Some (vp * f)%Q
         end)
    ∧ py_index default_confidences (5 - 5) = Ok 1%Q
    ∧ py_index default_confidences (5 - 4) = Ok (9 # 10)%Q
    ∧ py_index default_confidences (5 - 3) = Ok (6 # 10)%Q
    ∧ py_index default_confidences (5 - 2) = Ok (4 # 10)%Q
    ∧ py_index default_confidences (5 - 1) = Ok (2 # 10)%Q.
Proof.
  apply (arbor_confidence_default 10 example_edge (λ n, Z.to_nat n) 2).
  - apply (bool_decide_unpack _). vm_compute. exact I.
  - intros r Hr. unfold example_edge, mk_neuron in Hr. cbn [nodes] in Hr.
    repeat (apply elem_of_cons in Hr as [->|Hr]; [simpl; lia|]).
    by apply elem_of_nil in Hr.
  - intros r p Hr Hp. unfold example_edge, mk_neuron in Hr. cbn [nodes] in Hr.
    repeat (apply elem_of_cons in Hr as [->|Hr];
            [simpl in Hp;
             first [discriminate Hp
                   |injection Hp as <-;
                    split; [apply (bool_decide_unpack _); vm_compute; exact I
                           |simpl; lia]]|]).
    by apply elem_of_nil in Hr.
  - lia.
Defined.

(** C5, at a concrete neuron: the child of [example_edge] hangs on an edge
    of confidence 4; it gets 1 * 0.9, where the described table has 0.2 at
    index [5 - 4]. *)
Lemma arbor_confidence_described_table_differs :
  ∃ col,
    arbor_confidence 10 example_edge default_confidences = Ok col
    ∧ col !! 1 = Some 1%Q
    ∧ col !! 2 = Some (1 * (9 # 10))%Q
    ∧ py_index described_confidences (5 - 4) = Ok (2 # 10)%Q
    ∧ ¬ (1 * (9 # 10) == 1 * (2 # 10))%Q.
Proof.
  eexists. split; [vm_compute; reflexivity|].
  repeat split; try (vm_compute; reflexivity).
  intros Heq. vm_compute in Heq. discriminate.
Qed.

(** ** Flow centrality *)

Lemma elem_of_unique (l : list Z) (a : Z) : a ∈ unique l ↔ a ∈ l.
Proof.
  induction l as [|b l IH]; simpl; [done|].
  rewrite !elem_of_cons, list_elem_of_filter, IH.
  destruct (decide (a = b)) as [->|Hne]; [tauto|]. tauto.
Qed.

Lemma find_in_comprehension (g : Z → Z) (keys : list Z) (n : Z) :
  find (λ kv : Z * Z, bool_decide (kv.1 = n)) ((λ k, (k, g k)) <$> keys)
  = if bool_decide (n ∈ keys) then Some (n, g n) else None.
Proof.
  induction keys as [|k keys IH]; [done|].
  rewrite fmap_cons. cbn [find fst].
  destruct (decide (k = n)) as [->|Hne].
  - rewrite bool_decide_eq_true_2 by done.
    by rewrite bool_decide_eq_true_2 by apply list_elem_of_here.
  - rewrite bool_decide_eq_false_2 by done. rewrite IH.
    destruct (decide (n ∈ keys)) as [Hin|Hin].
    + rewrite !bool_decide_eq_true_2; [done| |done].
      by apply list_elem_of_further.
    + rewrite !bool_decide_eq_false_2; [done| |done].
      intros [?|?]%elem_of_cons; done.
Qed.

Lemma comprehension_keys (f : Z → Z) (keys : list Z) :
  (dict_comprehension f keys).*1 = unique keys.
Proof.
  unfold dict_comprehension. rewrite <- list_fmap_compose.
  apply list_fmap_id.
Qed.

Lemma comprehension_values (f : Z → Z) (keys : list Z) :
  (dict_comprehension f keys).*2 = f <$> unique keys.
Proof. unfold dict_comprehension. by rewrite <- list_fmap_compose. Qed.

Lemma set_column_comprehension (rows : list Node) (g : Z → Z) (keys : list Z) :
  (∀ k, k ∈ keys → k ∈ treenode_id <$> rows) →
  set_column rows keys (g <$> keys)
  = Ok ((λ r, if bool_decide (treenode_id r ∈ keys)
              then Some (g (treenode_id r)) else None) <$> rows).
Proof.
  intros Hkeys. unfold set_column.
  assert (forallb (λ k, bool_decide (k ∈ treenode_id <$> rows)) keys = true)
    as ->.
  { apply forallb_forall. intros k Hk%list_elem_of_In.
    by apply bool_decide_eq_true_2, Hkeys. }
  f_equal. apply list_fmap_ext. intros i r _. cbv beta.
  replace (zip keys (g <$> keys)) with ((λ k, (k, g k)) <$> keys).
  - rewrite find_in_comprehension. by case_bool_decide.
  - clear. induction keys as [|k keys IH]; [done|].
    rewrite !fmap_cons. cbn [zip_with]. by rewrite IH.
Qed.

Lemma unique_NoDup (l : list Z) : NoDup (unique l).
Proof.
  induction l as [|a l IH]; simpl; [constructor|].
  apply NoDup_cons. split.
  - by intros [? _]%list_elem_of_filter.
  - by apply NoDup_filter.
Qed.

Lemma length_unique (l : list Z) :
  length (unique l) = size (list_to_set l : gset Z).
Proof.
  rewrite <- (size_list_to_set (C := gset Z) (unique l))
    by apply unique_NoDup.
  f_equal. apply set_eq. intros a.
  by rewrite !elem_of_list_to_set, elem_of_unique.
Qed.

Lemma count_unique (f : Z → bool) (l : list Z) :
  sum_list ((λ a, if f a then 1 else 0) <$> unique l)
  = Z.of_nat (size (filter (λ a, f a = true) (list_to_set l : gset Z))).
Proof.
  assert (Hset : filter (λ a, f a = true) (list_to_set l : gset Z)
                 = list_to_set (filter (λ a, f a = true) (unique l))).
  { apply set_eq. intros a.
    rewrite elem_of_filter, !elem_of_list_to_set, list_elem_of_filter,
      elem_of_unique. done. }
  rewrite Hset, size_list_to_set by apply NoDup_filter, unique_NoDup.
  generalize (unique l). clear. unfold sum_list.
  induction l as [|a l IH]; [done|].
  rewrite fmap_cons, filter_cons. cbn [foldr]. rewrite IH.
  destruct (decide (f a = true)) as [Hf|Hf].
  - rewrite Hf. simpl. lia.
  - apply not_true_is_false in Hf. rewrite Hf. lia.
Qed.

Section flow_properties.
Context (core : Core).

(** The counts of the code are the described ones. *)
Lemma total_post_described (y : Neuron) : total_post y = n_synaptic y 1.
Proof.
  unfold total_post, n_synaptic, node_ids_with_relation, synaptic_treenodes.
  by rewrite length_unique.
Qed.

Lemma distal_count_described (y : Neuron) (rel n : Z) :
  distal_count y (node_ids_with_relation y rel) n = n_distal y rel n.
Proof.
  unfold distal_count, n_distal, node_ids_with_relation, synaptic_treenodes.
  apply (count_unique (λ a, distal_to y a n)).
Qed.

Lemma centrifugal_at_described (y : Neuron) (n : Z) :
  centrifugal_at y None n = described_centrifugal y n.
Proof.
  unfold centrifugal_at, described_centrifugal, distal_post, distal_pre.
  by rewrite total_post_described, !distal_count_described.
Qed.

Lemma centripetal_at_described (y : Neuron) (n : Z) :
  centripetal_at y None n = described_centripetal y n.
Proof.
  unfold centripetal_at, described_centripetal, distal_post, distal_pre.
  by rewrite total_post_described, !distal_count_described.
Qed.

Lemma calc_node_ids_described (y : Neuron) (n : Z) :
  n ∈ calc_node_ids y ↔ is_calculation_node y n.
Proof.
  unfold calc_node_ids, is_calculation_node.
  rewrite list_elem_of_fmap. split.
  - intros (r & -> & [Hkind Hr]%list_elem_of_filter).
    exists r. split; [done|]. split; [done|].
    destruct Hkind as [Hb|Hc]; [by left|right].
    apply list_elem_of_fmap in Hc as (c & Hid & Hc). by exists c.
  - intros (r & Hr & <- & Hkind). exists r. split; [done|].
    apply list_elem_of_filter. split; [|done].
    destruct Hkind as [Hb|(c & Hc & Hid)]; [by left|right].
    rewrite <- Hid. by apply list_elem_of_fmap_2.
Qed.

(** What the two writing modes compute, once the factors of [polypre]
    have been built. *)
Lemma flow_centrality_centrifugal_column (x : Neuron)
    (polypre : option (list ConnectorDetails)) (partners : option (Z → Z)) :
  polypre_partners polypre (calc_node_ids (downsample x 1000000))
  = Ok partners →
  flow_centrality x "centrifugal" polypre
  = set_column (nodes x) (unique (calc_node_ids (downsample x 1000000)))
      (centrifugal_at (downsample x 1000000) partners
         <$> unique (calc_node_ids (downsample x 1000000))).
Proof.
  intros Hp. unfold flow_centrality.
  change (bool_decide ("centrifugal"%string
                       ∈ ["centrifugal"; "centripetal"; "sum"]%string))
    with true.
  cbv beta iota zeta. rewrite Hp.
  change (bool_decide ("centrifugal"%string ≠ "centripetal"%string)) with true.
  change (bool_decide ("centrifugal"%string = "centrifugal"%string)) with true.
  cbv beta iota zeta delta [bound_if read_local].
  unfold centrifugal. by rewrite comprehension_keys, comprehension_values.
Qed.

Lemma flow_centrality_sum_column (x : Neuron)
    (polypre : option (list ConnectorDetails)) (partners : option (Z → Z)) :
  polypre_partners polypre (calc_node_ids (downsample x 1000000))
  = Ok partners →
  flow_centrality x "sum" polypre
  = set_column (nodes x) (unique (calc_node_ids (downsample x 1000000)))
      ((λ n, centrifugal_at (downsample x 1000000) partners n
             + centripetal_at (downsample x 1000000) partners n)
         <$> unique (calc_node_ids (downsample x 1000000))).
Proof.
  intros Hp. unfold flow_centrality.
  change (bool_decide ("sum"%string
                       ∈ ["centrifugal"; "centripetal"; "sum"]%string))
    with true.
  cbv beta iota zeta. rewrite Hp.
  change (bool_decide ("sum"%string ≠ "centripetal"%string)) with true.
  change (bool_decide ("sum"%string ≠ "centrifugal"%string)) with true.
  change (bool_decide ("sum"%string = "centrifugal"%string)) with false.
  change (bool_decide ("sum"%string = "centripetal"%string)) with false.
  cbv beta iota zeta delta [bound_if read_local].
  unfold centrifugal, centripetal.
  rewrite !comprehension_keys, !comprehension_values.
  f_equal. generalize (unique (calc_node_ids (downsample x 1000000))).
  induction l as [|k keys IH]; [done|].
  rewrite !fmap_cons. cbn [zip_with]. by rewrite IH.
Qed.

(** C1. With the default [polypre=False], for a neuron [x] whose
    downsampled copy [y] has its calculation nodes (branch points and
    treenodes with a connector) among the treenodes of [x], the call in
    mode 'sum' returns, and for every calculation node [n]: the dict
    [centrifugal] holds (postsynaptic treenodes - those distal to [n]) *
    (presynaptic treenodes distal to [n]); the dict [centripetal] holds
    (postsynaptic treenodes distal to [n]) * (postsynaptic treenodes -
    presynaptic treenodes distal to [n]), the total being that of the
    postsynaptic, not of the presynaptic, treenodes; and the
    [flow_centrality] written for [n] is the sum of the two. *)
Theorem flow_centrality_sum (x : Neuron) :
  let y := downsample x 1000000 in
  (∀ n, is_calculation_node y n → n ∈ treenode_ids x) →
  ∃ col,
    flow_centrality x "sum" None = Ok col
    ∧ ∀ n, is_calculation_node y n →
        (n, (n_synaptic y 1 - n_distal y 1 n) * n_distal y 0 n)
          ∈ centrifugal y None
        ∧ (n, n_distal y 1 n * (n_synaptic y 1 - n_distal y 0 n))
            ∈ centripetal y None
        ∧ ∀ i r, nodes x !! i = Some r → treenode_id r = n →
            col !! i
            = Some (Some
                ((n_synaptic y 1 - n_distal y 1 n) * n_distal y 0 n
                 + n_distal y 1 n * (n_synaptic y 1 - n_distal y 0 n))).
Proof.
  intros y Hcalc.
  rewrite (flow_centrality_sum_column x None None eq_refl). fold y.
  rewrite set_column_comprehension.
  2:{ intros k Hk. apply Hcalc, calc_node_ids_described.
      by apply elem_of_unique. }
  eexists. split; [done|].
  intros n Hn%calc_node_ids_described.
  pose proof (centrifugal_at_described y n) as H1.
  pose proof (centripetal_at_described y n) as H2.
  unfold described_centrifugal in H1. unfold described_centripetal in H2.
  rewrite <- H1, <- H2.
  split; [|split].
  - unfold centrifugal, dict_comprehension.
    apply (list_elem_of_fmap_2 (λ n, (n, centrifugal_at y None n))).
    by apply elem_of_unique.
  - unfold centripetal, dict_comprehension.
    apply (list_elem_of_fmap_2 (λ n, (n, centripetal_at y None n))).
    by apply elem_of_unique.
  - intros i r Hr <-. rewrite list_lookup_fmap, Hr. simpl.
    rewrite bool_decide_eq_true_2; [done|]. by apply elem_of_unique.
Qed.

Lemma n_partners_outcome (cn_details : list ConnectorDetails) (n : Z) :
  (∃ d, d ∈ cn_details ∧ presynaptic_to_node d = n)
  ∧ n_partners cn_details n = Ok (partner_count cn_details n)
  ∨ (∀ d, d ∈ cn_details → presynaptic_to_node d ≠ n)
    ∧ n_partners cn_details n = Raise TypeError.
Proof.
  unfold n_partners.
  destruct (filter _ cn_details) as [|d sel] eqn:Hsel.
  - right. split; [|done]. intros d Hd Hn.
    assert (d ∈ filter (λ d, presynaptic_to_node d = n) cn_details)
      by by apply list_elem_of_filter.
    rewrite Hsel in *. by eapply elem_of_nil.
  - left. split; [|done]. exists d.
    assert (Hd : d ∈ filter (λ d, presynaptic_to_node d = n) cn_details)
      by (rewrite Hsel; apply list_elem_of_here).
    apply list_elem_of_filter in Hd. tauto.
Qed.

Lemma polypre_partners_outcome (cn_details : list ConnectorDetails)
    (columns : list Z) :
  (∀ n, n ∈ columns → ∃ d, d ∈ cn_details ∧ presynaptic_to_node d = n)
  ∧ polypre_partners (Some cn_details) columns
    = Ok (Some (partner_count cn_details))
  ∨ (∃ n, n ∈ columns ∧ ∀ d, d ∈ cn_details → presynaptic_to_node d ≠ n)
    ∧ polypre_partners (Some cn_details) columns = Raise TypeError.
Proof.
  unfold polypre_partners.
  induction columns as [|n columns IH]; simpl.
  - left. split; [|done]. by intros n ?%elem_of_nil.
  - destruct (n_partners_outcome cn_details n) as [[Hd ->]|[Hd ->]].
    + destruct IH as [[Hall Hok]|[(m & Hm & Hnone) Hfail]].
      * left. destruct (for_list _ columns); try done. split; [|done].
        intros m [->|Hm]%elem_of_cons; [done|by apply Hall].
      * right. destruct (for_list _ columns); try done.
        split; [|done]. exists m. split; [|done].
        by apply list_elem_of_further.
    + right. split; [|done]. exists n. split; [apply list_elem_of_here|done].
Qed.

(** X11. Mode 'centripetal' never returns.  With the default
    [polypre=False] it always fails with [UnboundLocalError]: the final
    write takes its keys from the dict [centrifugal], which this mode never
    binds.  With [polypre=True] the factors are built first: when some
    calculation node has no row in the connector details that fails with
    [TypeError], otherwise the call fails with [UnboundLocalError] as
    well. *)
Theorem flow_centrality_centripetal_unbound (x : Neuron) :
  let y := downsample x 1000000 in
  flow_centrality x "centripetal" None = Raise UnboundLocalError
  ∧ ∀ cn_details,
      ((∃ n, n ∈ calc_node_ids y
             ∧ ∀ d, d ∈ cn_details → presynaptic_to_node d ≠ n) →
       flow_centrality x "centripetal" (Some cn_details) = Raise TypeError)
      ∧ ((∀ n, n ∈ calc_node_ids y →
               ∃ d, d ∈ cn_details ∧ presynaptic_to_node d = n) →
         flow_centrality x "centripetal" (Some cn_details)
         = Raise UnboundLocalError).
Proof.
  intros y. split; [reflexivity|]. intros cn_details.
  unfold flow_centrality. fold y.
  change (bool_decide ("centripetal"%string
                       ∈ ["centrifugal"; "centripetal"; "sum"]%string))
    with true.
  cbv beta iota zeta.
  destruct (polypre_partners_outcome cn_details (calc_node_ids y))
    as [[Hall ->]|[(m & Hm & Hnone) ->]].
  - split; [|done]. intros (n & Hn & Hno).
    destruct (Hall n Hn) as (d & Hd & Hdn). by destruct (Hno d Hd).
  - split; [done|]. intros Hall.
    destruct (Hall m Hm) as (d & Hd & Hdn). by destruct (Hnone d Hd).
Qed.
End flow_properties.

Lemma flow_centrality_sum_witness :
  ∃ col,
    @flow_centrality reference_core example_neuron "sum" None = Ok col
    ∧ ∀ n, is_calculation_node example_neuron n →
        (n, (n_synaptic example_neuron 1
             - @n_distal reference_core example_neuron 1 n)
            * @n_distal reference_core example_neuron 0 n)
          ∈ @centrifugal reference_core example_neuron None
        ∧ (n, @n_distal reference_core example_neuron 1 n
              * (n_synaptic example_neuron 1
                 - @n_distal reference_core example_neuron 0 n))
            ∈ @centripetal reference_core example_neuron None
        ∧ ∀ i r, nodes example_neuron !! i = Some r → treenode_id r = n →
            col !! i
            = Some (Some
                ((n_synaptic example_neuron 1
                  - @n_distal reference_core example_neuron 1 n)
                 * @n_distal reference_core example_neuron 0 n
                 + @n_distal reference_core example_neuron 1 n
                   * (n_synaptic example_neuron 1
                      - @n_distal reference_core example_neuron 0 n))).
Proof.
  apply (flow_centrality_sum reference_core example_neuron).
  intros n Hn%calc_node_ids_described.
  apply (Forall_forall (λ n, n ∈ treenode_ids example_neuron)
           (@calc_node_ids example_neuron)); [|exact Hn].
  apply (bool_decide_unpack _). vm_compute. exact I.
Defined.

(** The details fetched for [example_neuron]: its one presynaptic site, on
    treenode 5, has two postsynaptic partners. *)
Lemma flow_centrality_centripetal_unbound_witness :
  @flow_centrality reference_core example_neuron "centripetal" None
  = Raise UnboundLocalError
  ∧ @flow_centrality reference_core example_neuron "centripetal"
      (Some [{| presynaptic_to_node := 5; postsynaptic_to_node := [70; 71] |}])
    = Raise TypeError.
Proof.
  pose proof (flow_centrality_centripetal_unbound reference_core
                example_neuron) as [Hnone Hsome].
  split; [exact Hnone|].
  apply Hsome. exists 2. split.
  - apply (bool_decide_unpack _). vm_compute. exact I.
  - intros d Hd. apply list_elem_of_singleton in Hd as ->. simpl. lia.
Defined.

(** The column written for [example_neuron]: the root 1 is neither a branch
    point nor a synapse-bearing node and keeps [None]. *)
Example flow_centrality_example :
  @flow_centrality reference_core example_neuron "centrifugal" None
  = Ok [None; Some 0; Some 0; Some 1; Some 2; Some 0]
  ∧ @flow_centrality reference_core example_neuron "sum" None
  = Ok [None; Some 2; Some 2; Some 2; Some 2; Some 2].
Proof. split; vm_compute; reflexivity. Qed.

(** ** Stitching *)

Lemma argmin_from_spec (l : list Z) :
  ∀ best_i best i,
    ∃ v, (argmin_from best_i best i l = best_i ∧ v = best
          ∨ ∃ k, argmin_from best_i best i l = (i + k)%nat ∧ l !! k = Some v)
         ∧ v ≤ best ∧ ∀ w, w ∈ l → v ≤ w.
Proof.
  induction l as [|w0 l IH]; intros best_i best i; simpl.
  - exists best. split; [by left|]. split; [lia|].
    intros w Hw. by apply elem_of_nil in Hw.
  - case_bool_decide as Hlt.
    + destruct (IH i w0 (S i)) as (v & Hpos & Hle & Hmin).
      exists v. split; [right|split; [lia|]].
      * destruct Hpos as [[-> ->]|(k & -> & Hk)].
        -- exists O. split; [lia|done].
        -- exists (S k). split; [lia|done].
      * intros w [->|Hw]%elem_of_cons; [done|by apply Hmin].
    + destruct (IH best_i best (S i)) as (v & Hpos & Hle & Hmin).
      exists v. split; [|split; [done|]].
      * destruct Hpos as [[-> ->]|(k & -> & Hk)]; [by left|right].
        exists (S k). split; [lia|done].
      * intros w [->|Hw]%elem_of_cons; [lia|by apply Hmin].
Qed.

(** [argmin] returns a position of the smallest element. *)
Lemma argmin_spec (l : list Z) :
  l ≠ [] → ∃ v, l !! argmin l = Some v ∧ ∀ w, w ∈ l → v ≤ w.
Proof.
  destruct l as [|v0 l]; [done|]. intros _. simpl.
  destruct (argmin_from_spec l O v0 1%nat) as (v & Hpos & Hle & Hmin).
  exists v. split.
  - destruct Hpos as [[-> ->]|(k & -> & Hk)]; [done|]. done.
  - intros w [->|Hw]%elem_of_cons; [done|by apply Hmin].
Qed.

(** What lines 1061-1062 select: the candidate of the accumulated neuron
    nearest to the first candidate of the incoming one, and the candidate
    of the incoming neuron nearest to the first candidate of the accumulated
    one. *)
Lemma closest_treenodes_spec (treenodesA treenodesB : list Node) (tnA tnB : Z) :
  closest_treenodes treenodesA treenodesB = Ok (tnA, tnB) →
  ∃ a0 b0 a b,
    head treenodesA = Some a0 ∧ head treenodesB = Some b0
    ∧ a ∈ treenodesA ∧ b ∈ treenodesB
    ∧ treenode_id a = tnA ∧ treenode_id b = tnB
    ∧ (∀ a', a' ∈ treenodesA → sq_dist a b0 ≤ sq_dist a' b0)
    ∧ (∀ b', b' ∈ treenodesB → sq_dist a0 b ≤ sq_dist a0 b').
Proof.
  unfold closest_treenodes.
  destruct treenodesA as [|a0 As]; [done|].
  destruct treenodesB as [|b0 Bs]; [done|].
  set (A := a0 :: As). set (B := b0 :: Bs).
  destruct (argmin_spec ((λ a, sq_dist a b0) <$> A)) as (va & Hva & Hmina);
    [done|].
  destruct (argmin_spec ((λ b, sq_dist a0 b) <$> B)) as (vb & Hvb & Hminb);
    [done|].
  rewrite list_lookup_fmap in Hva, Hvb.
  destruct (A !! _) as [a|] eqn:Ha; [|done].
  destruct (B !! _) as [b|] eqn:Hb; [|done].
  simpl in Hva, Hvb. injection Hva as <-. injection Hvb as <-.
  intros [= <- <-]. exists a0, b0, a, b. repeat split; try done.
  - by eapply list_elem_of_lookup_2.
  - by eapply list_elem_of_lookup_2.
  - intros a' Ha'. by apply Hmina, (list_elem_of_fmap_2 (λ a, sq_dist a b0)).
  - intros b' Hb'. by apply Hminb, (list_elem_of_fmap_2 (λ b, sq_dist a0 b)).
Qed.

(** C3, at a concrete input. Stitching [example_fragment_B] onto
    [example_fragment_A] with method 'ALL' and no preferred treenodes joins
    treenode 1 and treenode 4, which are 11 apart, although the treenodes 2
    and 4 are only 1 apart: node 4 becomes the new root of the incoming
    fragment and gets parent 1. *)
Theorem stitch_joins_not_closest_pair :
  closest_treenodes (nodes example_fragment_A) (nodes example_fragment_B)
  = Ok (1, 4)
  ∧ sq_dist (mk_node_at 1 None root 0) (mk_node_at 4 (Some 3) end_node 11)
    = 121
  ∧ sq_dist (mk_node_at 2 (Some 1) end_node 10)
      (mk_node_at 4 (Some 3) end_node 11) = 1
  ∧ (λ n, (treenode_id <$> nodes n, parent_id <$> nodes n)) <$>
      match @stitch_neurons reference_core
              [ArgNeuron example_fragment_A; ArgNeuron example_fragment_B]
              [] (Some "ALL"%string) with
      | Ok n => Some n
      | _ => None
      end
    = Some ([1; 2; 3; 4], [None; Some 1; Some 4; Some 1]).
Proof. repeat split; vm_compute; reflexivity. Qed.

Section stitch_properties.
Context (core : Core).

(** C9, as the code has it. Called with a valid method and exactly one
    neuron (passed alone or in a list), [stitch_neurons] logs a warning and
    returns that neuron; nothing is raised. *)
Theorem stitch_single_neuron (x : list stitch_arg) (n : Neuron)
    (tn_to_stitch : list Z) (method : option string) :
  method ∈ valid_stitch_methods →
  compile_neurons x = Ok [n] →
  stitch_neurons x tn_to_stitch method = Ok n.
Proof.
  intros Hmethod Hx. unfold stitch_neurons.
  rewrite bool_decide_eq_true_2 by done. rewrite Hx. done.
Qed.
End stitch_properties.

Lemma stitch_single_neuron_witness :
  @stitch_neurons reference_core [ArgNeuronList [example_chain]] []
    (Some "LEAFS"%string) = Ok example_chain.
Proof.
  apply (stitch_single_neuron reference_core
           [ArgNeuronList [example_chain]] example_chain []
           (Some "LEAFS"%string)).
  - apply (bool_decide_unpack _). vm_compute. exact I.
  - reflexivity.
Defined.

(** C9, at a concrete input: one neuron, method 'ALL'; the call returns. *)
Lemma stitch_one_neuron_no_error :
  compile_neurons [ArgNeuron example_chain] = Ok [example_chain]
  ∧ @stitch_neurons reference_core [ArgNeuron example_chain] []
      (Some "ALL"%string) = Ok example_chain.
Proof. split; reflexivity. Qed.

(** ** Segregation index *)

Module SegregationProperties.
Import Reals Lra.
Import Segregation SegregationSpec.

Lemma n_postsynapses_bounds (n : Neuron) :
  0 ≤ n_postsynapses n ≤ n_connectors n.
Proof.
  unfold n_postsynapses, n_connectors.
  pose proof (length_filter (λ c, relation c = 1) (connectors n)) as Hlen.
  revert Hlen. generalize (length (filter (λ c, relation c = 1) (connectors n))).
  intros k Hk. lia.
Qed.

Lemma fraction_bounds (a b : Z) :
  0 ≤ a ≤ b → 0 < b → (0 <= IZR a / IZR b <= 1)%R.
Proof.
  intros [Ha Hab] Hb.
  apply IZR_le in Ha, Hab. apply IZR_lt in Hb.
  pose proof (Rinv_0_lt_compat _ Hb) as Hinv.
  assert (Hone : (IZR b * / IZR b = 1)%R) by (apply Rinv_r; lra).
  unfold Rdiv. split; nra.
Qed.

Lemma entropy_of_entropy (p : R) :
  (0 <= p <= 1)%R → entropy_of p = entropy p.
Proof.
  intros [H0 H1]. unfold entropy_of, entropy.
  destruct (Rlt_dec 0 p), (Rlt_dec p 1), (Req_dec_T p 0), (Req_dec_T p 1);
    try reflexivity; lra.
Qed.

Lemma sum_list_pos (l : list Z) :
  l ≠ [] → Forall (λ v, 0 < v) l → 0 < sum_list l.
Proof.
  intros Hne Hall. unfold sum_list.
  destruct Hall as [|v l Hv Hl]; [done|].
  cbn [foldr]. assert (0 ≤ foldr Z.add 0 l); [|lia].
  clear -Hl. induction Hl as [|w l Hw _ IH]; cbn [foldr]; lia.
Qed.

Lemma sum_list_le (f g : Neuron → Z) (x : list Neuron) :
  (∀ n, 0 ≤ f n ≤ g n) → 0 ≤ sum_list (f <$> x) ≤ sum_list (g <$> x).
Proof.
  intros Hfg. unfold sum_list.
  induction x as [|n x IH]; [simpl; lia|].
  rewrite !fmap_cons. cbn [foldr]. specialize (Hfg n). lia.
Qed.

Lemma fragment_entropies (x : list Neuron) :
  Forall (λ n, 0 < n_connectors n) x →
  for_list fragment_entropy x
  = Ok ((λ n, entropy (postsynaptic_fraction n)) <$> x).
Proof.
  induction 1 as [|n x Hn _ IH]; simpl; [done|].
  rewrite IH. unfold fragment_entropy at 1, true_div.
  rewrite bool_decide_eq_false_2 by lia.
  rewrite entropy_of_entropy; [done|].
  apply fraction_bounds; [apply n_postsynapses_bounds|done].
Qed.

Lemma weighted_entropies (x : list Neuron) :
  zip_with (λ e n, (e * IZR (n_connectors n))%R)
    ((λ n, entropy (postsynaptic_fraction n)) <$> x) x
  = (λ n, (entropy (postsynaptic_fraction n) * IZR (n_connectors n))%R) <$> x.
Proof.
  induction x as [|n x IH]; [done|].
  rewrite !fmap_cons. cbn [zip_with]. by rewrite IH.
Qed.


End SegregationProperties.

(** * Further properties *)

(** ** Strahler index: range of the indices, empty frontier *)

Lemma for_each_invariant {S A} (I : S → Prop) (body : S → A → res S)
    (l : list A) :
  (∀ s a s', I s → body s a = Ok s' → I s') →
  ∀ s s', I s → for_each body s l = Ok s' → I s'.
Proof.
  intros Hbody. induction l as [|a l IH]; intros s s' Hs; simpl.
  - by intros [= <-].
  - destruct (body s a) as [s1| |] eqn:Hb; try done.
    apply IH. by eapply Hbody.
Qed.

Lemma this_branch_index_positive (method : string)
    (previous_indices : list (option Z)) (i : Z) :
  Forall (λ o, ∀ v, o = Some v → 1 ≤ v) previous_indices →
  this_branch_index method previous_indices = Ok (Some i) → 1 ≤ i.
Proof.
  intros Hall. unfold this_branch_index.
  destruct previous_indices as [|a [|b l]].
  - intros [= <-]. lia.
  - intros [= ->]. exact (Forall_inv Hall i eq_refl).
  - destruct (all_computed (a :: b :: l)) as [vs|] eqn:Hvs; [|done].
    assert (Hge : 1 ≤ list_max vs).
    { apply mapM_Some in Hvs.
      destruct vs as [|v vs]; [by apply Forall2_nil_inv_r in Hvs|].
      destruct (list_max_is_max (v :: vs)) as [Hin _]; [done|].
      apply list_elem_of_lookup in Hin as [k Hk].
      destruct (Forall2_lookup_r _ _ _ _ _ Hvs Hk) as (o & Ho & Hov).
      rewrite Forall_lookup in Hall. by eapply Hall. }
    destruct (_ || _); intros [= <-]; lia.
Qed.

Lemma process_starting_point_positive rows list_of_childs branch_nodes method
    fuel (st st' : strahler_state) (en : Z) :
  indices_positive (strahler_dict st) →
  process_starting_point rows list_of_childs branch_nodes method fuel st en
  = Ok st' →
  indices_positive (strahler_dict st').
Proof.
  intros Hpos. unfold process_starting_point.
  destruct (getitem list_of_childs en) as [childs| |]; try done.
  destruct (for_list _ childs) as [prev| |] eqn:Hprev; try done.
  destruct (this_branch_index method prev) as [index| |] eqn:Hidx; try done.
  assert (Hindex : ∀ v, index = Some v → 1 ≤ v).
  { intros v ->. eapply this_branch_index_positive; [|exact Hidx].
    eapply for_list_Forall; [|exact Hprev].
    intros c o Hc w ->. unfold getitem in Hc.
    destruct (strahler_dict st !! c) as [o|] eqn:Hl; [|done].
    injection Hc as ->. by eapply Hpos. }
  destruct (node_loc rows en) as [r| |]; try done.
  destruct (walk_spine _ _ _ _ _ _) as [[[parent_node spine] processed']| |];
    try done.
  assert (Hd : indices_positive
                 (dict_update_all spine index (strahler_dict st))).
  { intros k v. rewrite dict_update_all_lookup.
    case_bool_decide; [intros [= ->]; by apply Hindex|apply Hpos]. }
  destruct parent_node as [p|].
  - destruct (getitem list_of_childs p); try done. by intros [= <-].
  - by intros [= <-].
Qed.

Lemma strahler_loop_positive rows list_of_childs branch_nodes method fuel :
  ∀ starting_points d processed d',
    indices_positive d →
    strahler_loop rows list_of_childs branch_nodes method fuel
      starting_points d processed = Ok d' →
    indices_positive d'.
Proof.
  induction fuel as [|fuel IH]; intros [|sp0 sps] d processed d' Hd;
    try done; try (by intros [= <-]).
  rewrite strahler_loop_step.
  destruct (for_each _ _ (sp0 :: sps)) as [st| |] eqn:Hpass; try done.
  destruct (for_each _ (sp0 :: sps) _) as [remaining| |]; try done.
  apply IH.
  eapply (for_each_invariant (λ st, indices_positive (strahler_dict st)));
    [|..|exact Hpass]; [|exact Hd].
  intros s a s'. apply process_starting_point_positive.
Qed.

(** X1. Whatever the method, an index written by [strahler_index] is at
    least 1. *)
Theorem strahler_index_at_least_one (fuel : nat) (x x' : Neuron)
    (method : string) :
  strahler_index fuel x method = Ok x' →
  ∀ r v, r ∈ nodes x' → node_strahler_index r = Some v → 1 ≤ v.
Proof.
  unfold strahler_index, strahler_indices.
  destruct (strahler_loop _ _ _ _ _ _ _ _) as [d| |] eqn:Hloop; try done.
  destruct (for_list (getitem d) (treenode_ids x)) as [col| |] eqn:Hcol;
    try done.
  intros [= <-]. cbn [nodes].
  assert (Hd : indices_positive d).
  { eapply strahler_loop_positive; [|exact Hloop].
    intros k v. rewrite lookup_fmap.
    by destruct (generate_list_of_childs x !! k). }
  assert (Hall : Forall (λ o, ∀ v, o = Some v → 1 ≤ v) col).
  { eapply for_list_Forall; [|exact Hcol].
    intros c o Hc v ->. unfold getitem in Hc.
    destruct (d !! c) as [o|] eqn:Hl; [|done]. injection Hc as ->.
    by eapply Hd. }
  clear -Hall. revert Hall. generalize (nodes x). 
  induction col as [|o col IH]; intros rows Hall r v Hr Hv.
  - by apply elem_of_nil in Hr.
  - destruct rows as [|r0 rows]; [by apply elem_of_nil in Hr|].
    cbn [zip_with] in Hr. apply elem_of_cons in Hr as [->|Hr].
    + simpl in Hv. exact (Forall_inv Hall v Hv).
    + eapply IH; [by eapply Forall_inv_tail|exact Hr|exact Hv].
Qed.

Lemma strahler_index_at_least_one_witness :
  ∃ x', strahler_index 10 example_tree "greedy" = Ok x'
        ∧ ∀ r v, r ∈ nodes x' → node_strahler_index r = Some v → 1 ≤ v.
Proof.
  eexists. split; [vm_compute; reflexivity|].
  apply (strahler_index_at_least_one 10 example_tree _ "greedy").
  vm_compute. reflexivity.
Defined.

(** X2. Without a node of type 'end' there is no starting point: the loop
    is never entered and, whatever the fuel and the method, every node gets
    the missing index [None]. *)
Theorem strahler_index_no_end_node (fuel : nat) (x : Neuron) (method : string) :
  ids_of_type end_node (nodes x) = [] →
  strahler_index fuel x method
  = Ok {| nodes := with_strahler None <$> nodes x;
          connectors := connectors x;
          has_strahler_index := true |}.
Proof.
  intros Hend. unfold strahler_index, strahler_indices. rewrite Hend.
  assert (strahler_loop (nodes x) (generate_list_of_childs x)
            (ids_of_type branch (nodes x)) method fuel []
            ((λ _, None) <$> generate_list_of_childs x) []
          = Ok ((λ _, None) <$> generate_list_of_childs x)) as ->
    by (by destruct fuel).
  assert (Hcol : ∀ ids, (∀ k, k ∈ ids → k ∈ treenode_ids x) →
            for_list (getitem ((λ _ : list Z, @None Z)
                               <$> generate_list_of_childs x)) ids
            = Ok ((λ _, None) <$> ids)).
  { induction ids as [|k ids IH]; intros Hids; [done|].
    cbn [for_list]. rewrite IH.
    2:{ intros k' Hk'. by apply Hids, list_elem_of_further. }
    unfold getitem. rewrite lookup_fmap.
    destruct (childs_has_key x k) as [cs ->];
      [apply Hids, list_elem_of_here|]. done. }
  rewrite Hcol by done. f_equal. f_equal.
  unfold treenode_ids. generalize (nodes x).
  induction l as [|r rows IH]; [done|].
  rewrite !fmap_cons. cbn [zip_with]. by rewrite IH.
Qed.

Lemma strahler_index_no_end_node_witness :
  strahler_index 0 (mk_neuron [mk_node 1 None root] []) "standard"
  = Ok {| nodes := with_strahler None <$> [mk_node 1 None root];
          connectors := [];
          has_strahler_index := true |}.
Proof.
  apply (strahler_index_no_end_node 0 (mk_neuron [mk_node 1 None root] [])
           "standard").
  reflexivity.
Defined.

(** ** Pruning: what stays, where connectors go, parent links *)

Lemma for_list_Forall2 {A B} (f : A → res B) (l : list A) (l' : list B) :
  for_list f l = Ok l' → Forall2 (λ a b, f a = Ok b) l l'.
Proof.
  revert l'. induction l as [|a l IH]; intros l'; simpl.
  - intros [= <-]. constructor.
  - destruct (f a) as [b| |] eqn:Hb; try done.
    destruct (for_list f l) as [bs| |]; try done.
    intros [= <-]. constructor; [done|by apply IH].
Qed.

Lemma parent_dict_of_lookup (rows : list Node) (a : Z) (p : option Z) :
  parent_dict_of rows !! a = Some p → is_parent_of rows a p.
Proof.
  unfold parent_dict_of.
  assert (Hgen : ∀ d : gmap Z (option Z),
            foldl (λ d r, <[treenode_id r := parent_id r]> d) d rows !! a
            = Some p →
            d !! a = Some p ∨ is_parent_of rows a p).
  { induction rows as [|r rows IH]; intros d; simpl; [by left|].
    intros [Hd|(r' & Hr' & Hid & Hp)]%IH.
    - destruct (decide (treenode_id r = a)) as [Heq|Hne].
      + rewrite Heq, lookup_insert_eq in Hd. injection Hd as Hd.
        right. exists r. split; [apply list_elem_of_here|done].
      + rewrite lookup_insert_ne in Hd by done. by left.
    - right. exists r'. split; [by apply list_elem_of_further|done]. }
  intros [Hd|Hp]%Hgen; [|done]. by rewrite lookup_empty in Hd.
Qed.

Lemma parent_dict_of_has_key (rows : list Node) (a : Z) :
  a ∈ treenode_id <$> rows → is_Some (parent_dict_of rows !! a).
Proof.
  unfold parent_dict_of. generalize (∅ : gmap Z (option Z)).
  induction rows as [|r rows IH] using rev_ind; intros d Ha.
  - by apply elem_of_nil in Ha.
  - rewrite foldl_app. simpl. rewrite fmap_app in Ha.
    destruct (decide (treenode_id r = a)) as [<-|Hne].
    + rewrite lookup_insert_eq. by eexists.
    + rewrite lookup_insert_ne by done. apply IH.
      apply elem_of_app in Ha as [Ha|Ha]; [done|].
      apply list_elem_of_singleton in Ha. done.
Qed.

Lemma nearest_remaining_first fuel (rows : list Node) (remaining_tns : list Z) :
  ∀ a t,
    nearest_remaining fuel (parent_dict_of rows) remaining_tns (Some a) = Ok t →
    first_remaining rows remaining_tns a t.
Proof.
  induction fuel as [|fuel IH]; intros a t; simpl.
  - case_bool_decide; [|done]. intros [= <-]. by constructor.
  - case_bool_decide as Hin; [intros [= <-]; by constructor|].
    unfold getitem.
    destruct (parent_dict_of rows !! a) as [[p|]|] eqn:Hp; try done.
    + intros Ht. eapply first_remaining_up; [done| |by apply IH].
      by apply parent_dict_of_lookup.
    + by destruct fuel.
Qed.

Section prune_more.
Context (core : Core) (laws : CoreLaws core).

(** X3. Whatever the form of [to_prune], the treenodes of the result are,
    in table order, those of the prepared neuron whose index is not among
    the indices to prune; a node without an index is never removed. *)
Theorem prune_keeps_unlisted fuel x to_prune reroot_soma force relocate
    neuron x' :
  prune_prepare fuel x reroot_soma force = Ok neuron →
  prune_by_strahler fuel x to_prune reroot_soma force relocate = Ok x' →
  ∃ indices,
    indices_to_prune to_prune (nodes neuron) = Ok indices
    ∧ treenode_ids x'
      = treenode_id <$>
          filter (λ r, ¬ isin (node_strahler_index r) indices) (nodes neuron)
    ∧ ∀ r, r ∈ nodes neuron → node_strahler_index r = None →
           treenode_id r ∈ treenode_ids x'.
Proof.
  intros Hprep. unfold prune_by_strahler. rewrite Hprep. intros Hx'.
  eapply prune_prepared_tables in Hx' as (indices & Hidx & Hrows & _);
    [|done].
  exists indices. split; [done|].
  unfold treenode_ids. rewrite (index_rows_ids _ _ Hrows).
  split; [done|]. intros r Hr Hnone.
  apply list_elem_of_fmap_2, list_elem_of_filter. split; [|done].
  rewrite Hnone. simpl. tauto.
Qed.

(** X4. With [relocate_connectors], pruning keeps every connector, in
    order: a connector on a kept treenode is unchanged, any other one is
    moved to the first kept treenode met when following parent links from
    the parent of its removed treenode. *)
Theorem prune_relocates_to_nearest_ancestor fuel x to_prune reroot_soma force
    neuron x' :
  prune_prepare fuel x reroot_soma force = Ok neuron →
  prune_by_strahler fuel x to_prune reroot_soma force true = Ok x' →
  Forall2
    (λ c c',
       connector_id c' = connector_id c ∧ relation c' = relation c
       ∧ (cn_treenode_id c ∈ treenode_ids x' → c' = c)
       ∧ (cn_treenode_id c ∉ treenode_ids x' →
          ∃ p, is_parent_of (nodes neuron) (cn_treenode_id c) (Some p)
               ∧ first_remaining (nodes neuron) (treenode_ids x') p
                   (cn_treenode_id c')))
    (connectors neuron) (connectors x').
Proof.
  intros Hprep. unfold prune_by_strahler. rewrite Hprep. intros Hx'.
  pose proof Hx' as Htab.
  eapply prune_prepared_tables in Htab as (indices & Hidx & Hrows & _);
    [|done].
  unfold prune_prepared in Hx'. rewrite Hidx in Hx'.
  destruct (for_list _ (connectors neuron)) as [cns| |] eqn:Hcns; try done.
  injection Hx' as <-.
  match goal with |- context [clear_temp_attr ?n] =>
    destruct (clear_temp_attr_same_tables n) as (Hrows' & Hc) end.
  rewrite Hc. cbn [connectors].
  assert (Hids : treenode_ids
                   (clear_temp_attr
                      {| nodes := repair_parents
                           (filter (λ r, ¬ isin (node_strahler_index r) indices)
                              (nodes neuron));
                         connectors := cns;
                         has_strahler_index := has_strahler_index neuron |})
                 = treenode_id <$>
                     filter (λ r, ¬ isin (node_strahler_index r) indices)
                       (nodes neuron)).
  { unfold treenode_ids. by rewrite (index_rows_ids _ _ Hrows). }
  rewrite Hids. clear Hrows Hrows' Hc Hids.
  apply for_list_Forall2 in Hcns.
  eapply Forall2_impl; [exact Hcns|].
  intros c c'. unfold relocate_connector. cbv beta.
  case_bool_decide as Hin.
  - intros [= <-]. repeat split; done.
  - unfold getitem.
    destruct (parent_dict_of (nodes neuron) !! cn_treenode_id c)
      as [op|] eqn:Hop; [|done].
    destruct (nearest_remaining _ _ _ op) as [t| |] eqn:Ht; try done.
    intros [= <-]. repeat split; try done.
    intros _. destruct op as [p|]; [|by destruct fuel].
    exists p. split; [by apply parent_dict_of_lookup|].
    by eapply nearest_remaining_first.
Qed.

(** X5. Without [relocate_connectors], the connectors of the result are
    exactly the connectors attached to a kept treenode, in order. *)
Theorem prune_drops_orphaned_connectors fuel x to_prune reroot_soma force
    neuron x' :
  prune_prepare fuel x reroot_soma force = Ok neuron →
  prune_by_strahler fuel x to_prune reroot_soma force false = Ok x' →
  connectors x'
  = filter (λ c, cn_treenode_id c ∈ treenode_ids x') (connectors neuron).
Proof.
  intros Hprep. unfold prune_by_strahler. rewrite Hprep. intros Hx'.
  pose proof Hx' as Htab.
  eapply prune_prepared_tables in Htab as (indices & Hidx & Hrows & _);
    [|done].
  unfold treenode_ids. rewrite (index_rows_ids _ _ Hrows).
  eapply prune_prepared_unfold in Hx' as (indices' & cns & Hidx' & _ & Hcns & ->).
  rewrite Hidx in Hidx'. injection Hidx' as <-.
  match goal with |- context [clear_temp_attr ?n] =>
    destruct (clear_temp_attr_same_tables n) as (_ & Hc) end.
  rewrite Hc. cbn [connectors]. by apply Hcns.
Qed.

(** X6. When every node is pruned and connectors are to be relocated, the
    climb from the first connector runs past the root: on a well-formed
    neuron whose connectors sit on its treenodes, the call raises
    [KeyError]. *)
Theorem prune_everything_with_relocation_fails fuel x to_prune reroot_soma
    force neuron indices (depth : Z → nat) (D : nat) :
  prune_prepare fuel x reroot_soma force = Ok neuron →
  indices_to_prune to_prune (nodes neuron) = Ok indices →
  Forall (λ r, isin (node_strahler_index r) indices) (nodes neuron) →
  well_formed (nodes neuron) depth D → (D < fuel)%nat →
  connectors neuron ≠ [] →
  Forall (λ c, cn_treenode_id c ∈ treenode_ids neuron) (connectors neuron) →
  prune_by_strahler fuel x to_prune reroot_soma force true = Raise KeyError.
Proof.
  intros Hprep Hidx Hall Hwf Hfuel Hne Hcns.
  unfold prune_by_strahler. rewrite Hprep.
  unfold prune_prepared. rewrite Hidx.
  assert (Hnone : filter (λ r, ¬ isin (node_strahler_index r) indices)
                    (nodes neuron) = []).
  { apply filter_none. eapply Forall_impl; [exact Hall|].
    intros r Hr Hn. by apply Hn. }
  rewrite Hnone. cbn [fmap list_fmap].
  assert (Hclimb : ∀ k a, (k ≤ fuel)%nat →
            a ∈ treenode_ids neuron → (depth a < k)%nat →
            nearest_remaining k (parent_dict_of (nodes neuron)) [] (Some a)
            = Raise KeyError).
  { induction k as [|k IH]; intros a Hk Ha Hd; [lia|].
    cbn [nearest_remaining].
    rewrite bool_decide_eq_false_2 by apply not_elem_of_nil.
    destruct (parent_dict_of_has_key (nodes neuron) a Ha) as [op Hop].
    unfold getitem. rewrite Hop. destruct op as [p|]; [|by destruct k].
    apply parent_dict_of_lookup in Hop as (r & Hr & Hid & Hp).
    destruct (Hwf r p Hr Hp) as [Hpin Hlt]. rewrite Hid in Hlt.
    apply IH; [lia|done|lia]. }
  destruct (connectors neuron) as [|c cns]; [done|].
  apply Forall_inv in Hcns. cbn [for_list]. unfold relocate_connector at 1.
  rewrite bool_decide_eq_false_2 by apply not_elem_of_nil.
  destruct (parent_dict_of_has_key (nodes neuron) _ Hcns) as [op Hop].
  unfold getitem. rewrite Hop. destruct op as [p|].
  - apply parent_dict_of_lookup in Hop as (r & Hr & Hid & Hp).
    destruct (Hwf r p Hr Hp) as [Hpin Hlt].
    rewrite Hclimb; [done|lia|done|lia].
  - by destruct fuel.
Qed.
End prune_more.

Section prune_parents.
Context (core : Core) (clears : CoreClears core).

(** X7. After pruning no parent link dangles: every [parent_id] left in
    the node table of the result names a treenode of the result. *)
Theorem prune_leaves_no_dangling_parent fuel x to_prune reroot_soma force
    relocate x' :
  prune_by_strahler fuel x to_prune reroot_soma force relocate = Ok x' →
  ∀ r p, r ∈ nodes x' → parent_id r = Some p → p ∈ treenode_ids x'.
Proof.
  unfold prune_by_strahler.
  destruct (prune_prepare fuel x reroot_soma force) as [neuron| |]; try done.
  intros (indices & cns & _ & _ & _ & ->)%prune_prepared_unfold.
  unfold treenode_ids. rewrite clear_temp_attr_nodes. cbn [nodes].
  set (rows := filter _ (nodes neuron)).
  intros r p Hr Hp. unfold repair_parents in Hr |- *.
  rewrite <- list_fmap_compose.
  apply list_elem_of_fmap in Hr as (r0 & -> & Hr0).
  destruct (isin (parent_id r0) (treenode_id <$> rows)) eqn:Hin; [|done].
  rewrite Hp in Hin. simpl in Hin. apply bool_decide_eq_true in Hin.
  apply list_elem_of_fmap in Hin as (rp & -> & Hrp).
  apply list_elem_of_fmap. exists rp. split; [|done].
  simpl. by destruct (isin _ _).
Qed.
End prune_parents.

Lemma reference_core_clears : CoreClears reference_core.
Proof. by split. Qed.

(** Go through the rows of a concrete table. *)
Ltac each_row Hr tac :=
  repeat (apply elem_of_cons in Hr as [->|Hr]; [tac|]);
  try (by apply elem_of_nil in Hr).

Ltac check_forest :=
  let r := fresh "r" in let p := fresh "p" in
  let Hr := fresh "Hr" in let Hp := fresh "Hp" in
  intros r p Hr Hp;
  each_row Hr ltac:(
    simpl in Hp;
    first [discriminate Hp
          |injection Hp as <-;
           split; [apply (bool_decide_unpack _); vm_compute; exact I
                  |simpl; lia]]).

Lemma prune_keeps_unlisted_witness :
  ∃ neuron x',
    @prune_prepare reference_core 10 example_neuron true false = Ok neuron
    ∧ @prune_by_strahler reference_core 10 example_neuron (PruneInt 1)
        true false false = Ok x'
    ∧ ∃ indices,
        indices_to_prune (PruneInt 1) (nodes neuron) = Ok indices
        ∧ treenode_ids x'
          = treenode_id <$>
              filter (λ r, ¬ isin (node_strahler_index r) indices)
                (nodes neuron)
        ∧ ∀ r, r ∈ nodes neuron → node_strahler_index r = None →
               treenode_id r ∈ treenode_ids x'.
Proof.
  eexists _, _. split; [vm_compute; reflexivity|].
  split; [vm_compute; reflexivity|].
  apply (prune_keeps_unlisted reference_core reference_core_laws 10
           example_neuron (PruneInt 1) true false false);
    vm_compute; reflexivity.
Defined.

Lemma prune_relocates_to_nearest_ancestor_witness :
  ∃ neuron x',
    @prune_prepare reference_core 10 example_neuron true false = Ok neuron
    ∧ @prune_by_strahler reference_core 10 example_neuron (PruneInt 1)
        true false true = Ok x'
    ∧ Forall2
        (λ c c',
           connector_id c' = connector_id c ∧ relation c' = relation c
           ∧ (cn_treenode_id c ∈ treenode_ids x' → c' = c)
           ∧ (cn_treenode_id c ∉ treenode_ids x' →
              ∃ p, is_parent_of (nodes neuron) (cn_treenode_id c) (Some p)
                   ∧ first_remaining (nodes neuron) (treenode_ids x') p
                       (cn_treenode_id c')))
        (connectors neuron) (connectors x').
Proof.
  eexists _, _. split; [vm_compute; reflexivity|].
  split; [vm_compute; reflexivity|].
  apply (prune_relocates_to_nearest_ancestor reference_core
           reference_core_laws 10 example_neuron (PruneInt 1) true false);
    vm_compute; reflexivity.
Defined.

Lemma prune_drops_orphaned_connectors_witness :
  ∃ neuron x',
    @prune_prepare reference_core 10 example_neuron true false = Ok neuron
    ∧ @prune_by_strahler reference_core 10 example_neuron (PruneInt 1)
        true false false = Ok x'
    ∧ connectors x'
      = filter (λ c, cn_treenode_id c ∈ treenode_ids x') (connectors neuron).
Proof.
  eexists _, _. split; [vm_compute; reflexivity|].
  split; [vm_compute; reflexivity|].
  apply (prune_drops_orphaned_connectors reference_core reference_core_laws
           10 example_neuron (PruneInt 1) true false);
    vm_compute; reflexivity.
Defined.

Lemma prune_everything_with_relocation_fails_witness :
  @prune_by_strahler reference_core 10 example_chain_synapse (PruneRange 1 2)
    true false true = Raise KeyError.
Proof.
  eapply (prune_everything_with_relocation_fails reference_core 10
            example_chain_synapse (PruneRange 1 2) true false _ [1]
            (λ n, Z.to_nat n) 3).
  - vm_compute. reflexivity.
  - vm_compute. reflexivity.
  - repeat (constructor; [vm_compute; exact I|]). constructor.
  - check_forest.
  - lia.
  - done.
  - repeat (constructor; [apply (bool_decide_unpack _); vm_compute; exact I|]).
    constructor.
Defined.

Lemma prune_leaves_no_dangling_parent_witness :
  ∃ x',
    @prune_by_strahler reference_core 10 example_tree (PruneInt 2)
      true false false = Ok x'
    ∧ ∀ r p, r ∈ nodes x' → parent_id r = Some p → p ∈ treenode_ids x'.
Proof.
  eexists. split; [vm_compute; reflexivity|].
  apply (prune_leaves_no_dangling_parent reference_core reference_core_clears
           10 example_tree (PruneInt 2) true false false).
  vm_compute. reflexivity.
Defined.

(** ** Confidence propagation: table bounds, range and order of the values *)

(** X8. The factor of an edge is [confidences[5 - confidence]] with Python's
    indexing: with the default five-entry table a confidence below 1 or
    above 10 is out of range, so a walk that reaches such a node raises
    [IndexError]; a confidence of 6..10 wraps around to the entry used for
    [confidence - 5]. *)
Theorem confidence_factor_bounds (rows : list Node) (loc : gmap Z (list Z))
    (fuel : nat) (n : Z) (r : Node) (v : Q) (col : gmap Z Q) :
  node_loc rows n = Ok r →
  (confidence r < 1 ∨ 10 < confidence r →
   walk_to_leafs rows loc default_confidences (S fuel) n v col
   = Raise IndexError)
  ∧ (6 ≤ confidence r ≤ 10 →
     confidence_factor rows default_confidences n
     = py_index default_confidences (5 - (confidence r - 5))).
Proof.
  intros Hr. split.
  - intros Hc. rewrite walk_to_leafs_step. unfold confidence_factor.
    rewrite Hr. unfold py_index. cbv zeta.
    change (Z.of_nat (length default_confidences)) with 5.
    destruct (bool_decide (5 - confidence r < 0)) eqn:Hneg;
      [apply bool_decide_eq_true in Hneg|apply bool_decide_eq_false in Hneg];
      rewrite bool_decide_eq_false_2 by lia; done.
  - intros Hc. unfold confidence_factor. rewrite Hr.
    assert (confidence r = 6 ∨ confidence r = 7 ∨ confidence r = 8
            ∨ confidence r = 9 ∨ confidence r = 10) as Hcases by lia.
    destruct Hcases as [->|[->|[->|[->| ->]]]]; reflexivity.
Qed.

Lemma confidence_factor_bounds_witness :
  (confidence unrated_child < 1 ∨ 10 < confidence unrated_child →
   walk_to_leafs (nodes example_unrated)
     (generate_list_of_childs example_unrated) default_confidences 1 2 1%Q ∅
   = Raise IndexError)
  ∧ (6 ≤ confidence unrated_child ≤ 10 →
     confidence_factor (nodes example_unrated) default_confidences 2
     = py_index default_confidences (5 - (confidence unrated_child - 5))).
Proof.
  apply (confidence_factor_bounds (nodes example_unrated)
           (generate_list_of_childs example_unrated) 0 2 unrated_child
           1%Q ∅).
  reflexivity.
Defined.

Lemma default_factor_cases (c : Z) (f : Q) :
  1 ≤ c ≤ 5 → py_index default_confidences (5 - c) = Ok f →
  f = 1%Q ∨ f = (9 # 10)%Q ∨ f = (6 # 10)%Q ∨ f = (4 # 10)%Q
  ∨ f = (2 # 10)%Q.
Proof.
  intros Hc.
  assert (c = 1 ∨ c = 2 ∨ c = 3 ∨ c = 4 ∨ c = 5) as Hcases by lia.
  destruct Hcases as [->|[->|[->|[->| ->]]]]; intros [= <-]; tauto.
Qed.

Lemma factor_shrinks (vp f : Q) :
  f = 1%Q ∨ f = (9 # 10)%Q ∨ f = (6 # 10)%Q ∨ f = (4 # 10)%Q
  ∨ f = (2 # 10)%Q →
  (0 < vp)%Q → (vp <= 1)%Q →
  (0 < vp * f)%Q ∧ (vp * f <= 1)%Q ∧ (vp * f <= vp)%Q.
Proof.
  intros Hf. destruct vp as [a b]. unfold Qlt, Qle.
  destruct Hf as [->|[->|[->|[->| ->]]]]; simpl; intros H0 H1;
    rewrite ?Pos2Z.inj_mul; repeat split; nia.
Qed.

Section confidence_values.
Variable x : Neuron.
Variable depth : Z → nat.
Variable D : nat.
Variable fuel : nat.
Variable col : gmap Z Q.
Hypothesis ids_unique : NoDup (treenode_ids x).
Hypothesis forest : well_formed (nodes x) depth D.
Hypothesis run : arbor_confidence fuel x default_confidences = Ok col.

(** Induction from the roots down, along the edges of a well-formed
    neuron. *)
Lemma column_induction (P : Node → Q → Prop) :
  (∀ r, r ∈ nodes x → parent_id r = None → P r 1%Q) →
  (∀ r rp vp f,
     r ∈ nodes x → rp ∈ nodes x → parent_id r = Some (treenode_id rp) →
     col !! treenode_id rp = Some vp → P rp vp →
     py_index default_confidences (5 - confidence r) = Ok f →
     P r (vp * f)%Q) →
  ∀ r, r ∈ nodes x → ∃ v, col !! treenode_id r = Some v ∧ P r v.
Proof.
  intros Hroot Hedge.
  pose proof (arbor_confidence_edges x default_confidences ids_unique
                fuel col run) as Hedges.
  assert (Hall : ∀ k r, r ∈ nodes x → depth (treenode_id r) = k →
                        ∃ v, col !! treenode_id r = Some v ∧ P r v).
  { induction k as [k IH] using lt_wf_ind. intros r Hr Hk.
    pose proof (Hedges r Hr) as He.
    destruct (parent_id r) as [p|] eqn:Hp.
    - destruct (forest r p Hr Hp) as [Hpin Hlt].
      apply list_elem_of_fmap in Hpin as (rp & -> & Hrp).
      destruct (IH (depth (treenode_id rp))) with (r := rp)
        as (vp & Hvp & HP); [lia|done|done|].
      destruct (He vp Hvp) as (f & Hf & Hv).
      exists (vp * f)%Q. split; [done|]. by eapply Hedge.
    - exists 1%Q. split; [done|]. by apply Hroot. }
  intros r Hr. by eapply Hall.
Qed.

End confidence_values.

(** X9. With the default factors, on a well-formed neuron with edge
    confidences 1..5, every value written by [arbor_confidence] lies
    between 0 and 1, and a node's value never exceeds that of its parent:
    confidence does not grow away from the root.  (The bounds are the ones
    that also hold for rounded products: a long chain of low confidences
    may round to 0.) *)
Theorem arbor_confidence_decreases (x : Neuron) (depth : Z → nat) (D : nat)
    (fuel : nat) (col : gmap Z Q) :
  NoDup (treenode_ids x) → well_formed (nodes x) depth D →
  arbor_confidence fuel x default_confidences = Ok col →
  (∀ r, r ∈ nodes x → 1 ≤ confidence r ≤ 5) →
  ∀ r, r ∈ nodes x →
    ∃ v, col !! treenode_id r = Some v
         ∧ (0 <= v)%Q ∧ (v <= 1)%Q
         ∧ ∀ p, parent_id r = Some p →
             ∃ vp, col !! p = Some vp ∧ (v <= vp)%Q.
Proof.
  intros Hids Hforest Hrun Hconf r Hr.
  destruct (column_induction x depth D fuel col Hids Hforest Hrun
              (λ r v, (0 < v)%Q ∧ (v <= 1)%Q
                      ∧ ∀ p, parent_id r = Some p →
                          ∃ vp, col !! p = Some vp ∧ (v <= vp)%Q))
    with (r := r) as (v & Hv & Hpos & HP); try done.
  - intros r0 Hr0 Hp. repeat split; try done. intros p. by rewrite Hp.
  - intros r0 rp vp f Hr0 Hrp Hp Hvp (Hpos & Hle & _) Hf.
    destruct (factor_shrinks vp f) as (H1 & H2 & H3); try done.
    { eapply default_factor_cases; [|exact Hf]. by apply Hconf. }
    repeat split; try done.
    intros p Hp'. rewrite Hp in Hp'. injection Hp' as <-. by exists vp.
  - exists v. split; [done|]. split; [by apply Qlt_le_weak|done].
Qed.

(** X10. With the default factors, on a well-formed neuron in which every
    edge has confidence 5, no confidence is lost: [arbor_confidence] gives
    every node exactly 1. *)
Theorem arbor_confidence_all_five (x : Neuron) (depth : Z → nat) (D : nat)
    (fuel : nat) (col : gmap Z Q) :
  NoDup (treenode_ids x) → well_formed (nodes x) depth D →
  arbor_confidence fuel x default_confidences = Ok col →
  (∀ r, r ∈ nodes x → confidence r = 5) →
  ∀ r, r ∈ nodes x → col !! treenode_id r = Some 1%Q.
Proof.
  intros Hids Hforest Hrun Hconf r Hr.
  destruct (column_induction x depth D fuel col Hids Hforest Hrun
              (λ _ v, v = 1%Q)) with (r := r)
    as (v & Hv & ->); try done.
  intros r0 rp vp f Hr0 Hrp Hp Hvp -> Hf.
  rewrite (Hconf r0 Hr0) in Hf. by injection Hf as <-.
Qed.

Lemma arbor_confidence_decreases_witness :
  ∃ col,
    arbor_confidence 10 example_edge default_confidences = Ok col
    ∧ ∀ r, r ∈ nodes example_edge →
        ∃ v, col !! treenode_id r = Some v
             ∧ (0 <= v)%Q ∧ (v <= 1)%Q
             ∧ ∀ p, parent_id r = Some p →
                 ∃ vp, col !! p = Some vp ∧ (v <= vp)%Q.
Proof.
  eexists. split; [vm_compute; reflexivity|].
  apply (arbor_confidence_decreases example_edge (λ n, Z.to_nat n) 2 10).
  - apply (bool_decide_unpack _). vm_compute. exact I.
  - unfold example_edge, mk_neuron. cbn [nodes]. check_forest.
  - vm_compute. reflexivity.
  - intros r Hr. unfold example_edge, mk_neuron in Hr. cbn [nodes] in Hr.
    each_row Hr ltac:(simpl; lia).
Defined.

Lemma arbor_confidence_all_five_witness :
  ∃ col,
    arbor_confidence 10 example_tree default_confidences = Ok col
    ∧ ∀ r, r ∈ nodes example_tree → col !! treenode_id r = Some 1%Q.
Proof.
  eexists. split; [vm_compute; reflexivity|].
  apply (arbor_confidence_all_five example_tree (λ n, Z.to_nat n) 6 10).
  - apply (bool_decide_unpack _). vm_compute. exact I.
  - unfold example_tree, mk_neuron. cbn [nodes]. check_forest.
  - vm_compute. reflexivity.
  - intros r Hr. unfold example_tree, mk_neuron in Hr. cbn [nodes] in Hr.
    each_row Hr ltac:(reflexivity).
Defined.

(** ** Flow centrality: the other modes, unmarked nodes, failures *)

Section flow_more.
Context (core : Core).

(** X12. In mode 'centrifugal', with the default [polypre=False] and
    every calculation node of the downsampled copy [y] among the treenodes
    of [x], the call returns a column with one entry per row of [x]: at a
    calculation node [n] it holds (postsynaptic treenodes of [y] - those
    distal to [n]) * (presynaptic treenodes distal to [n]), at every other
    node [None]. *)
Theorem flow_centrality_centrifugal (x : Neuron) :
  let y := downsample x 1000000 in
  (∀ n, is_calculation_node y n → n ∈ treenode_ids x) →
  ∃ col,
    flow_centrality x "centrifugal" None = Ok col
    ∧ length col = length (nodes x)
    ∧ ∀ i r, nodes x !! i = Some r →
        (is_calculation_node y (treenode_id r) →
         col !! i
         = Some (Some ((n_synaptic y 1 - n_distal y 1 (treenode_id r))
                       * n_distal y 0 (treenode_id r))))
        ∧ (¬ is_calculation_node y (treenode_id r) → col !! i = Some None).
Proof.
  intros y Hcalc.
  rewrite (flow_centrality_centrifugal_column core x None None eq_refl).
  fold y. rewrite set_column_comprehension.
  2:{ intros k Hk. apply Hcalc, calc_node_ids_described.
      by apply elem_of_unique. }
  eexists. split; [done|]. split; [by rewrite length_fmap|].
  intros i r Hr. rewrite list_lookup_fmap, Hr. simpl.
  rewrite (bool_decide_ext _ _ (elem_of_unique _ _)).
  split; intros Hn.
  - rewrite bool_decide_eq_true_2 by by apply calc_node_ids_described.
    pose proof (centrifugal_at_described core y (treenode_id r)) as H1.
    unfold described_centrifugal in H1. by rewrite H1.
  - rewrite bool_decide_eq_false_2; [done|].
    by rewrite calc_node_ids_described.
Qed.

(** X13. In mode 'sum' a node that is not a calculation node keeps
    [None]; no zero is written for it. *)
Theorem flow_centrality_sum_unmarked (x : Neuron)
    (polypre : option (list ConnectorDetails)) (col : list (option Z)) :
  let y := downsample x 1000000 in
  flow_centrality x "sum" polypre = Ok col →
  ∀ i r, nodes x !! i = Some r → treenode_id r ∉ calc_node_ids y →
         col !! i = Some None.
Proof.
  intros y.
  destruct (polypre_partners polypre (calc_node_ids y)) as [partners| |]
    eqn:Hp.
  2,3: unfold flow_centrality; fold y;
    destruct (bool_decide _); [rewrite Hp|]; done.
  rewrite (flow_centrality_sum_column core x polypre partners Hp). fold y.
  unfold set_column. destruct (forallb _ _); [|done]. intros [= <-].
  intros i r Hr Hnot. rewrite list_lookup_fmap, Hr. cbn [fmap option_fmap option_map].
  f_equal.
  destruct (find _ _) as [[k v]|] eqn:Hfind; [|done]. exfalso.
  apply find_some in Hfind as [Hin Hk].
  apply bool_decide_eq_true in Hk. simpl in Hk. subst k.
  apply list_elem_of_In, elem_of_zip_l in Hin.
  rewrite elem_of_unique in Hin. by apply Hnot.
Qed.

(** X14. With the default [polypre=False], a neuron without any
    postsynaptic site gets the flow 0 at every calculation node, in mode
    'centrifugal' as in mode 'sum': [total_post] and every [distal_post]
    are 0. *)
Theorem flow_centrality_without_postsynapses (x : Neuron) :
  let y := downsample x 1000000 in
  (∀ n, n ∈ calc_node_ids y → n ∈ treenode_ids x) →
  (∀ c, c ∈ connectors y → relation c ≠ 1) →
  let zeros := (λ r, if bool_decide (treenode_id r ∈ calc_node_ids y)
                     then Some 0 else None) <$> nodes x in
  flow_centrality x "centrifugal" None = Ok zeros
  ∧ flow_centrality x "sum" None = Ok zeros.
Proof.
  intros y Hcalc Hpost zeros.
  assert (Hnone : node_ids_with_relation y 1 = []).
  { unfold node_ids_with_relation. rewrite filter_none; [done|].
    apply Forall_forall. intros c Hc. by apply Hpost. }
  assert (H1 : ∀ n, centrifugal_at y None n = 0).
  { intros n. unfold centrifugal_at, total_post, distal_post, distal_count.
    rewrite Hnone. simpl. lia. }
  assert (H2 : ∀ n, centripetal_at y None n = 0).
  { intros n. unfold centripetal_at, total_post, distal_post, distal_count.
    rewrite Hnone. simpl. lia. }
  rewrite (flow_centrality_centrifugal_column core x None None eq_refl),
    (flow_centrality_sum_column core x None None eq_refl).
  fold y. rewrite !set_column_comprehension.
  2,3: intros k Hk; apply Hcalc; by apply elem_of_unique.
  subst zeros. split; f_equal; apply list_fmap_ext; intros i r _; cbv beta;
    rewrite ?H1, ?H2, (bool_decide_ext _ _ (elem_of_unique _ _)); done.
Qed.
End flow_more.

Ltac check_calc_nodes x :=
  let n := fresh "n" in let Hn := fresh "Hn" in
  intros n Hn;
  apply (Forall_forall (λ n, n ∈ treenode_ids x) (@calc_node_ids x));
  [apply (bool_decide_unpack _); vm_compute; exact I|exact Hn].

Lemma flow_centrality_centrifugal_witness :
  ∃ col,
    @flow_centrality reference_core example_neuron "centrifugal" None = Ok col
    ∧ length col = length (nodes example_neuron)
    ∧ ∀ i r, nodes example_neuron !! i = Some r →
        (is_calculation_node example_neuron (treenode_id r) →
         col !! i
         = Some (Some ((n_synaptic example_neuron 1
                        - @n_distal reference_core example_neuron 1
                            (treenode_id r))
                       * @n_distal reference_core example_neuron 0
                           (treenode_id r))))
        ∧ (¬ is_calculation_node example_neuron (treenode_id r) →
           col !! i = Some None).
Proof.
  apply (flow_centrality_centrifugal reference_core example_neuron).
  intros n Hn%calc_node_ids_described. revert n Hn.
  check_calc_nodes example_neuron.
Defined.

Lemma flow_centrality_sum_unmarked_witness :
  ∃ col,
    @flow_centrality reference_core example_neuron "sum" None = Ok col
    ∧ ∀ i r, nodes example_neuron !! i = Some r →
             treenode_id r ∉ @calc_node_ids example_neuron →
             col !! i = Some None.
Proof.
  eexists. split; [vm_compute; reflexivity|].
  apply (flow_centrality_sum_unmarked reference_core example_neuron None).
  vm_compute. reflexivity.
Defined.

Lemma flow_centrality_without_postsynapses_witness :
  @flow_centrality reference_core example_outputs_only "centrifugal" None
  = Ok ((λ r, if bool_decide
                   (treenode_id r ∈ @calc_node_ids example_outputs_only)
              then Some 0 else None) <$> nodes example_outputs_only)
  ∧ @flow_centrality reference_core example_outputs_only "sum" None
    = Ok ((λ r, if bool_decide
                     (treenode_id r ∈ @calc_node_ids example_outputs_only)
                then Some 0 else None) <$> nodes example_outputs_only).
Proof.
  apply (flow_centrality_without_postsynapses reference_core
           example_outputs_only).
  - check_calc_nodes example_outputs_only.
  - intros c Hc. unfold example_outputs_only, mk_neuron in Hc.
    cbn [connectors downsample reference_core] in Hc.
    each_row Hc ltac:(simpl; lia).
Defined.

(** ** Stitching: failures, plain concatenation, roots, single candidates *)

Lemma compile_neurons_other (x : list stitch_arg) :
  ArgOther ∈ x → compile_neurons x = Raise TypeError.
Proof.
  induction x as [|a x IH]; intros Hin; [by apply elem_of_nil in Hin|].
  apply elem_of_cons in Hin as [<-|Hin]; [done|].
  destruct a as [n|ns|]; simpl; try done; by rewrite IH.
Qed.

Lemma attach_roots_no_root (tnA : Z) (rows : list Node) :
  filter (λ r, parent_id r = None) (attach_roots tnA rows) = [].
Proof.
  apply filter_none, Forall_forall. unfold attach_roots.
  intros r (r0 & -> & _)%list_elem_of_fmap.
  destruct (parent_id r0) eqn:Hp; simpl; congruence.
Qed.

Section stitch_more.
Context (core : Core).

(** X15. What [stitch_neurons] raises, in this order: [ValueError] for an
    unknown method, whatever else is passed; then [TypeError] when some
    argument is neither a neuron nor a neuron list; then [IndexError] when
    no neuron at all is passed. *)
Theorem stitch_neurons_failures (x : list stitch_arg) (tn_to_stitch : list Z)
    (method : option string) :
  (method ∉ valid_stitch_methods →
   stitch_neurons x tn_to_stitch method = Raise ValueError)
  ∧ (method ∈ valid_stitch_methods → ArgOther ∈ x →
     stitch_neurons x tn_to_stitch method = Raise TypeError)
  ∧ (method ∈ valid_stitch_methods → compile_neurons x = Ok [] →
     stitch_neurons x tn_to_stitch method = Raise IndexError).
Proof.
  unfold stitch_neurons. repeat split.
  - intros Hm. by rewrite bool_decide_eq_false_2.
  - intros Hm Hx. rewrite bool_decide_eq_true_2 by done.
    by rewrite compile_neurons_other.
  - intros Hm Hx. rewrite bool_decide_eq_true_2 by done. by rewrite Hx.
Qed.

(** One merge step adds no root: all roots of the incoming neuron get the
    parent [tnA]. *)
Lemma stitch_step_roots (tn_to_stitch : list Z) (method : option string)
    (stitched_n nB x' : Neuron) :
  stitch_step tn_to_stitch method stitched_n nB = Ok x' →
  root_ids x' = root_ids stitched_n
  ∧ ∃ added, nodes x' = nodes stitched_n ++ added.
Proof.
  unfold stitch_step.
  destruct (stitch_candidates _ _ _ _) as [[tA tB]| |]; try done.
  destruct (closest_treenodes tA tB) as [[tnA tnB]| |]; try done.
  intros [= <-]. split; [|by eexists].
  unfold root_ids. cbn [nodes].
  by rewrite filter_app, attach_roots_no_root, app_nil_r.
Qed.
End stitch_more.

Section stitch_tables.
Context (core : Core) (clears : CoreClears core).

(** X16. With method 'NONE' (or [None]) and two or more neurons, the node
    and connector tables of the result are the tables of the neurons one
    after the other; in particular every root of every neuron is still a
    root. *)
Theorem stitch_none_concatenates (x : list stitch_arg) (tn_to_stitch : list Z)
    (method : option string) (neurons : list Neuron) :
  method = Some "NONE"%string ∨ method = None →
  compile_neurons x = Ok neurons → (2 ≤ length neurons)%nat →
  ∃ x', stitch_neurons x tn_to_stitch method = Ok x'
        ∧ nodes x' = concat (nodes <$> neurons)
        ∧ connectors x' = concat (connectors <$> neurons)
        ∧ root_ids x' = concat (root_ids <$> neurons).
Proof.
  intros Hm Hx Hlen. unfold stitch_neurons.
  rewrite bool_decide_eq_true_2.
  2:{ destruct Hm as [->| ->]; apply (bool_decide_unpack _);
      vm_compute; exact I. }
  rewrite Hx. rewrite bool_decide_eq_false_2 by lia.
  destruct neurons as [|n0 rest]; [simpl in Hlen; lia|].
  rewrite bool_decide_eq_true_2 by done.
  eexists. split; [done|].
  rewrite clear_temp_attr_nodes, clear_temp_attr_connectors.
  repeat split; try done.
  unfold root_ids. rewrite clear_temp_attr_nodes. cbn [concat_tables nodes].
  generalize (n0 :: rest). clear.
  induction l as [|n l IH]; [done|].
  rewrite !fmap_cons. cbn [concat]. by rewrite filter_app, fmap_app, IH.
Qed.

(** X17. With method 'ALL' or 'LEAFS' and two or more neurons, a result
    keeps the node table of the first neuron as its head and has exactly
    the roots of the first neuron: every other neuron is hung below a
    treenode, so stitching onto a neuron with one root gives one root. *)
Theorem stitch_keeps_first_roots (x : list stitch_arg) (tn_to_stitch : list Z)
    (method : option string) (n0 : Neuron) (rest : list Neuron) (x' : Neuron) :
  method = Some "ALL"%string ∨ method = Some "LEAFS"%string →
  compile_neurons x = Ok (n0 :: rest) → rest ≠ [] →
  stitch_neurons x tn_to_stitch method = Ok x' →
  root_ids x' = root_ids n0 ∧ ∃ added, nodes x' = nodes n0 ++ added.
Proof.
  intros Hm Hx Hrest. unfold stitch_neurons.
  rewrite bool_decide_eq_true_2.
  2:{ destruct Hm as [->| ->]; apply (bool_decide_unpack _);
      vm_compute; exact I. }
  rewrite Hx. rewrite bool_decide_eq_false_2.
  2:{ destruct rest; [done|simpl; lia]. }
  rewrite bool_decide_eq_false_2.
  2:{ destruct Hm as [->| ->]; intros [?|?]; done. }
  destruct (for_each _ n0 rest) as [s| |] eqn:Hloop; try done.
  intros [= <-]. unfold root_ids. rewrite clear_temp_attr_nodes.
  fold (root_ids s).
  eapply (for_each_invariant
            (λ s, root_ids s = root_ids n0
                  ∧ ∃ added, nodes s = nodes n0 ++ added));
    [|..|exact Hloop].
  - intros s0 nB s1 [Hroots [added Hadded]] Hstep.
    apply stitch_step_roots in Hstep as [Hr [added' Ha]].
    split; [congruence|]. exists (added ++ added').
    by rewrite Ha, Hadded, app_assoc.
  - split; [done|]. exists []. by rewrite app_nil_r.
Qed.
End stitch_tables.

(** X18. When one of the two candidate tables has a single row, the pair
    that is joined is a closest pair: no candidate pair is nearer.  The
    coordinates are taken within 2^23, where the distances compared by the
    code are ordered as the exact ones. *)
Theorem closest_treenodes_single_candidate (treenodesA treenodesB : list Node)
    (tnA tnB : Z) :
  coordinates_within (2 ^ 23) treenodesA →
  coordinates_within (2 ^ 23) treenodesB →
  length treenodesA = 1%nat ∨ length treenodesB = 1%nat →
  closest_treenodes treenodesA treenodesB = Ok (tnA, tnB) →
  ∃ a b,
    a ∈ treenodesA ∧ b ∈ treenodesB
    ∧ treenode_id a = tnA ∧ treenode_id b = tnB
    ∧ ∀ a' b', a' ∈ treenodesA → b' ∈ treenodesB →
               sq_dist a b ≤ sq_dist a' b'.
Proof.
  intros _ _ Hone Hsel.
  destruct (closest_treenodes_spec _ _ _ _ Hsel)
    as (a0 & b0 & a & b & Ha0 & Hb0 & Ha & Hb & Hida & Hidb & Hmina & Hminb).
  exists a, b. repeat split; try done.
  intros a' b' Ha' Hb'. destruct Hone as [Hone|Hone].
  - destruct treenodesA as [|a1 [|a2 As]]; try done.
    injection Ha0 as ->.
    apply list_elem_of_singleton in Ha, Ha'. subst a a'. by apply Hminb.
  - destruct treenodesB as [|b1 [|b2 Bs]]; try done.
    injection Hb0 as ->.
    apply list_elem_of_singleton in Hb, Hb'. subst b b'. by apply Hmina.
Qed.

Lemma stitch_neurons_failures_witness :
  @stitch_neurons reference_core [ArgOther] [] (Some "CLOSEST"%string)
  = Raise ValueError
  ∧ @stitch_neurons reference_core [ArgNeuron example_chain; ArgOther] []
      (Some "ALL"%string) = Raise TypeError
  ∧ @stitch_neurons reference_core [ArgNeuronList []] [] (Some "ALL"%string)
    = Raise IndexError.
Proof.
  split; [|split].
  - apply (stitch_neurons_failures reference_core [ArgOther] []
             (Some "CLOSEST"%string)).
    intros Hin. apply (bool_decide_pack _) in Hin. vm_compute in Hin.
    exact Hin.
  - apply (stitch_neurons_failures reference_core
             [ArgNeuron example_chain; ArgOther] [] (Some "ALL"%string)).
    + apply (bool_decide_unpack _). vm_compute. exact I.
    + apply list_elem_of_further, list_elem_of_here.
  - apply (stitch_neurons_failures reference_core [ArgNeuronList []] []
             (Some "ALL"%string)).
    + apply (bool_decide_unpack _). vm_compute. exact I.
    + reflexivity.
Defined.

Lemma stitch_none_concatenates_witness :
  ∃ x',
    @stitch_neurons reference_core
      [ArgNeuron example_fragment_A; ArgNeuron example_fragment_B] []
      (Some "NONE"%string) = Ok x'
    ∧ nodes x'
      = concat (nodes <$> [example_fragment_A; example_fragment_B])
    ∧ connectors x'
      = concat (connectors <$> [example_fragment_A; example_fragment_B])
    ∧ root_ids x'
      = concat (root_ids <$> [example_fragment_A; example_fragment_B]).
Proof.
  apply (stitch_none_concatenates reference_core reference_core_clears
           [ArgNeuron example_fragment_A; ArgNeuron example_fragment_B] []
           (Some "NONE"%string) [example_fragment_A; example_fragment_B]).
  - by left.
  - reflexivity.
  - simpl. lia.
Defined.

Lemma stitch_keeps_first_roots_witness :
  ∃ x',
    @stitch_neurons reference_core
      [ArgNeuron example_fragment_A; ArgNeuron example_fragment_B] []
      (Some "LEAFS"%string) = Ok x'
    ∧ root_ids x' = root_ids example_fragment_A
    ∧ ∃ added, nodes x' = nodes example_fragment_A ++ added.
Proof.
  eexists. split; [vm_compute; reflexivity|].
  apply (stitch_keeps_first_roots reference_core reference_core_clears
           [ArgNeuron example_fragment_A; ArgNeuron example_fragment_B] []
           (Some "LEAFS"%string) example_fragment_A [example_fragment_B]).
  - by right.
  - reflexivity.
  - done.
  - vm_compute. reflexivity.
Defined.

Lemma closest_treenodes_single_candidate_witness :
  ∃ a b,
    a ∈ nodes example_fragment_A ∧ b ∈ [mk_node_at 4 None root 11]
    ∧ treenode_id a = 2 ∧ treenode_id b = 4
    ∧ ∀ a' b', a' ∈ nodes example_fragment_A →
               b' ∈ [mk_node_at 4 None root 11] →
               sq_dist a b ≤ sq_dist a' b'.
Proof.
  apply (closest_treenodes_single_candidate (nodes example_fragment_A)
           [mk_node_at 4 None root 11] 2 4).
  - intros r Hr. unfold example_fragment_A, mk_neuron in Hr.
    cbn [nodes] in Hr. each_row Hr ltac:(simpl; lia).
  - intros r Hr. each_row Hr ltac:(simpl; lia).
  - by right.
  - vm_compute. reflexivity.
Defined.

(** ** Segregation index: failures, order of the fragments, extreme values *)

Module SegregationMore.
Import Reals Lra.
Import Segregation SegregationSpec SegregationProperties.

(** The value returned for a non-empty split whose fragments all carry
    connectors. *)
Lemma segregation_index_value (x : list Neuron) :
  x ≠ [] → Forall (λ n, 0 < n_connectors n) x →
  segregation_index x = Ok (H x).
Proof.
  intros Hne Hall.
  unfold segregation_index. rewrite (fragment_entropies x Hall).
  assert (Hpos : 0 < sum_list (n_connectors <$> x)).
  { apply sum_list_pos.
    - by destruct x.
    - by apply Forall_fmap. }
  unfold true_div. rewrite bool_decide_eq_false_2 by lia.
  rewrite weighted_entropies.
  set (A := sum_R _).
  assert (HA : (IZR 1 / IZR (sum_list (n_connectors <$> x)) * A
                = A / IZR (sum_list (n_connectors <$> x)))%R).
  { field. apply IZR_lt in Hpos. lra. }
  rewrite HA. clear HA.
  pose proof (fraction_bounds (sum_list (n_postsynapses <$> x))
                (sum_list (n_connectors <$> x))
                (sum_list_le _ _ x n_postsynapses_bounds) Hpos) as Hp.
  fold (p_norm x) in Hp |- *. unfold H, S_norm, entropy, S_avg.
  destruct (Rlt_dec 0 (p_norm x)), (Rlt_dec (p_norm x) 1),
    (Req_dec_T (p_norm x) 0), (Req_dec_T (p_norm x) 1);
    try reflexivity; lra.
Qed.

Lemma n_connectors_nonneg (n : Neuron) : 0 ≤ n_connectors n.
Proof. unfold n_connectors. lia. Qed.

(** X19. A split without fragments, or with a fragment that carries no
    connector, makes [segregation_index] fail with [ZeroDivisionError]. *)
Theorem segregation_index_division_by_zero (x : list Neuron) :
  x = [] ∨ (∃ n, n ∈ x ∧ n_connectors n = 0) →
  segregation_index x = Raise ZeroDivisionError.
Proof.
  intros [->|Hzero]; [reflexivity|].
  unfold segregation_index.
  assert (for_list fragment_entropy x = Raise ZeroDivisionError) as ->; [|done].
  induction x as [|m x IH]; [by destruct Hzero as (n & Hn%elem_of_nil & _)|].
  cbn [for_list]. unfold fragment_entropy at 1, true_div.
  destruct (decide (n_connectors m = 0)) as [Hm|Hm].
  - by rewrite bool_decide_eq_true_2.
  - rewrite bool_decide_eq_false_2 by done. rewrite IH; [done|].
    destruct Hzero as (n & [->|Hn]%elem_of_cons & Hc); [done|by exists n].
Qed.

Lemma segregation_index_division_by_zero_witness :
  segregation_index [mk_neuron [mk_node 1 None root] [mk_connector 1 1 0];
                     mk_neuron [mk_node 2 None root] []]
  = Raise ZeroDivisionError.
Proof.
  apply segregation_index_division_by_zero. right.
  exists (mk_neuron [mk_node 2 None root] []). split; [|reflexivity].
  apply list_elem_of_further, list_elem_of_here.
Defined.

Lemma sum_R_from (a : R) (l : list R) :
  foldl Rplus a l = (a + sum_R l)%R.
Proof.
  unfold sum_R. revert a. induction l as [|b l IH]; intros a; simpl.
  - lra.
  - rewrite IH, (IH (0 + b)%R). lra.
Qed.

Lemma sum_R_cons (a : R) (l : list R) : sum_R (a :: l) = (a + sum_R l)%R.
Proof. unfold sum_R at 1. simpl. rewrite sum_R_from. lra. Qed.

Lemma sum_R_perm (l1 l2 : list R) : l1 ≡ₚ l2 → sum_R l1 = sum_R l2.
Proof.
  induction 1 as [|a l1 l2 _ IH|a b l|l1 l2 l3 _ IH1 _ IH2].
  - done.
  - by rewrite !sum_R_cons, IH.
  - rewrite !sum_R_cons. lra.
  - by rewrite IH1.
Qed.

Lemma sum_list_perm (l1 l2 : list Z) : l1 ≡ₚ l2 → sum_list l1 = sum_list l2.
Proof.
  unfold sum_list.
  induction 1 as [|a l1 l2 _ IH|a b l|l1 l2 l3 _ IH1 _ IH2]; simpl; lia.
Qed.

(** Over the exact reals the index does not depend on the order of the
    fragments at all. *)
Lemma segregation_index_perm_exact (x y : list Neuron) :
  x ≡ₚ y → segregation_index x = segregation_index y.
Proof.
  intros Hperm.
  destruct (decide (Forall (λ n, 0 < n_connectors n) x)) as [Hall|Hnot].
  - destruct x as [|n0 x'].
    { apply Permutation_nil_l in Hperm. by subst y. }
    assert (Hy : y ≠ []).
    { intros ->. by apply Permutation_nil_r in Hperm. }
    assert (Hally : Forall (λ n, 0 < n_connectors n) y)
      by (by rewrite <- Hperm).
    rewrite !segregation_index_value by done. f_equal.
    assert (Hc : sum_list (n_connectors <$> (n0 :: x'))
                 = sum_list (n_connectors <$> y))
      by (apply sum_list_perm; by rewrite Hperm).
    assert (Hp : p_norm (n0 :: x') = p_norm y).
    { unfold p_norm. rewrite Hc. do 2 f_equal.
      apply sum_list_perm. by rewrite Hperm. }
    unfold H, S_norm, S_avg. rewrite Hp, Hc.
    rewrite (sum_R_perm _ ((λ n, entropy (postsynaptic_fraction n)
                                 * IZR (n_connectors n))%R <$> y));
      [done|by rewrite Hperm].
  - apply not_Forall_Exists in Hnot; [|apply _].
    apply Exists_exists in Hnot as (n & Hn & Hc).
    assert (Hzero : n_connectors n = 0).
    { pose proof (n_connectors_nonneg n). unfold compose in Hc. lia. }
    rewrite !segregation_index_division_by_zero; [done| |].
    + right. exists n. split; [by rewrite <- Hperm|done].
    + right. by exists n.
Qed.

(** X20. The index of a split into two fragments does not depend on which
    of the two comes first: exchanging axon and dendrite changes neither
    the value nor a failure.  (With two fragments the sums add the same two
    numbers in the other order, so this holds for the rounded values of
    the code as well.) *)
Theorem segregation_index_swap (a b : Neuron) :
  segregation_index [a; b] = segregation_index [b; a].
Proof. apply segregation_index_perm_exact, Permutation_swap. Qed.

Lemma sum_R_zeros (l : list R) : Forall (λ v, v = 0%R) l → sum_R l = 0%R.
Proof.
  induction 1 as [|v l -> _ IH]; [done|]. rewrite sum_R_cons, IH. lra.
Qed.

(** X21. Complete segregation gives the index 1: when every fragment
    carries only presynaptic or only postsynaptic connectors and both
    kinds occur in the split, [segregation_index] returns 1. *)
Theorem segregation_index_complete (x : list Neuron) :
  Forall (λ n, 0 < n_connectors n
               ∧ (n_postsynapses n = 0 ∨ n_postsynapses n = n_connectors n))
    x →
  0 < sum_list (n_postsynapses <$> x) < sum_list (n_connectors <$> x) →
  segregation_index x = Ok 1%R.
Proof.
  intros Hall Hboth.
  assert (Hne : x ≠ []) by (intros ->; simpl in Hboth; lia).
  rewrite segregation_index_value; [|done|].
  2:{ eapply Forall_impl; [exact Hall|]. by intros n [? _]. }
  f_equal. unfold H.
  assert (Hc : (0 < IZR (sum_list (n_connectors <$> x)))%R)
    by (apply IZR_lt; lia).
  assert (Hp0 : (0 < p_norm x)%R).
  { unfold p_norm. apply Rdiv_lt_0_compat; [apply IZR_lt; lia|done]. }
  assert (Hp1 : (p_norm x < 1)%R).
  { unfold p_norm.
    assert (IZR (sum_list (n_postsynapses <$> x))
            < IZR (sum_list (n_connectors <$> x)))%R by (apply IZR_lt; lia).
    apply (Rmult_lt_reg_r (IZR (sum_list (n_connectors <$> x)))); [done|].
    unfold Rdiv. rewrite Rmult_assoc, Rinv_l by lra. lra. }
  destruct (Req_dec_T (p_norm x) 0); [lra|].
  destruct (Req_dec_T (p_norm x) 1); [lra|].
  assert (Hzero : S_avg x = 0%R).
  { unfold S_avg. rewrite sum_R_zeros; [unfold Rdiv; lra|].
    apply Forall_fmap. eapply Forall_impl; [exact Hall|].
    intros m [Hm Hkind]. cbv beta. unfold compose.
    assert (He : entropy (postsynaptic_fraction m) = 0%R).
    { unfold entropy, postsynaptic_fraction.
      destruct Hkind as [-> | ->].
      - destruct (Req_dec_T (0 / IZR (n_connectors m)) 0) as [|Hn]; [done|].
        exfalso. apply Hn. unfold Rdiv. lra.
      - assert (IZR (n_connectors m) / IZR (n_connectors m) = 1)%R as ->.
        { apply IZR_lt in Hm. field. lra. }
        destruct (Req_dec_T 1 0); [done|].
        destruct (Req_dec_T 1 1); [done|lra]. }
    rewrite He. lra. }
  rewrite Hzero. unfold Rdiv. lra.
Qed.

Lemma segregation_index_complete_witness :
  segregation_index
    [mk_neuron [mk_node 1 None root] [mk_connector 1 1 0; mk_connector 2 1 0];
     mk_neuron [mk_node 2 None root] [mk_connector 3 2 1]]
  = Ok 1%R.
Proof.
  apply segregation_index_complete.
  - repeat constructor; vm_compute; try reflexivity; tauto.
  - vm_compute. by split.
Defined.

End SegregationMore.

(** ** Graph of a neuron and bending flow *)

Lemma add_new_fresh {A} `{EqDecision A} (acc l : list A) :
  NoDup (acc ++ l) → foldl add_new acc l = acc ++ l.
Proof.
  revert acc. induction l as [|a l IH]; intros acc Hnd; simpl.
  - by rewrite app_nil_r.
  - unfold add_new at 2. rewrite decide_False.
    + rewrite IH; rewrite <- app_assoc; done.
    + apply NoDup_app in Hnd as (_ & Hdisj & _). intros Hin.
      apply (Hdisj a Hin). left.
Qed.

Lemma add_edges_from_known (g : DiGraph) (es : list (Z * Z)) :
  NoDup (g_edges g ++ es) →
  Forall (λ e, e.1 ∈ g_nodes g ∧ e.2 ∈ g_nodes g) es →
  add_edges_from g es
  = {| g_nodes := g_nodes g; g_edges := g_edges g ++ es |}.
Proof.
  unfold add_edges_from. revert g.
  induction es as [|e es IH]; intros g Hnd Hall; simpl.
  - rewrite app_nil_r. by destruct g.
  - apply Forall_cons in Hall as [[H1 H2] Hall].
    assert (Hg : add_edge g e
                 = {| g_nodes := g_nodes g; g_edges := g_edges g ++ [e] |}).
    { unfold add_edge, add_new. rewrite (decide_True _ _ H1).
      rewrite (decide_True _ _ H2). rewrite decide_False; [done|].
      apply NoDup_app in Hnd as (_ & Hdisj & _). intros Hin.
      apply (Hdisj e Hin). left. }
    rewrite Hg, IH; simpl.
    + by rewrite <- app_assoc.
    + by rewrite <- app_assoc.
    + done.
Qed.

Lemma parent_edges_elem (rows : list Node) (c p : Z) :
  (c, p) ∈ parent_edges rows
  ↔ ∃ r, r ∈ rows ∧ treenode_id r = c ∧ parent_id r = Some p.
Proof.
  unfold parent_edges. rewrite list_elem_of_omap. split.
  - intros (r & Hr & Heq). exists r. destruct (parent_id r); simplify_eq/=.
    done.
  - intros (r & Hr & <- & Hp). exists r. by rewrite Hp.
Qed.

Lemma parent_edges_fst (rows : list Node) :
  (parent_edges rows).*1
  = treenode_id <$> filter (λ r, parent_id r ≠ None) rows.
Proof.
  unfold parent_edges. induction rows as [|r rows IH]; [done|].
  rewrite filter_cons. simpl. destruct (parent_id r) eqn:Hp; simpl.
  - f_equal. exact IH.
  - exact IH.
Qed.

Lemma parent_edges_fst_NoDup (rows : list Node) :
  NoDup (treenode_id <$> rows) → NoDup (parent_edges rows).*1.
Proof.
  rewrite parent_edges_fst. induction rows as [|r rows IH]; [constructor|].
  rewrite fmap_cons, filter_cons. intros [Hr Hnd]%NoDup_cons.
  destruct (decide _); [|by apply IH].
  rewrite fmap_cons. apply NoDup_cons. split; [|by apply IH].
  intros (r' & Heq & Hin%list_elem_of_filter)%list_elem_of_fmap.
  apply Hr. rewrite Heq. apply list_elem_of_fmap_2. tauto.
Qed.

Lemma parent_edges_NoDup (rows : list Node) :
  NoDup (treenode_id <$> rows) → NoDup (parent_edges rows).
Proof. intros Hnd. by apply (NoDup_fmap_1 fst), parent_edges_fst_NoDup. Qed.

Lemma parent_edges_into (rows : list Node) (t : Z) :
  (filter (λ e : Z * Z, e.2 = t) (parent_edges rows)).*1
  = treenode_id <$> child_rows rows t.
Proof.
  unfold parent_edges, child_rows.
  induction rows as [|r rows IH]; [done|].
  rewrite (filter_cons _ r). cbn [omap list_omap].
  destruct (parent_id r) as [p|] eqn:Hp; cbn [fmap option_fmap option_map].
  - rewrite filter_cons. cbn [snd].
    destruct (decide (p = t)) as [->|Hne].
    + rewrite decide_True by done. rewrite !fmap_cons. cbn [fst].
      f_equal. exact IH.
    + rewrite decide_False by congruence. exact IH.
  - rewrite decide_False by done. exact IH.
Qed.

(** What [neuron2nx] returns for a table with distinct treenode ids. *)
Lemma neuron2nx_returns (x : Neuron) (g : DiGraph) :
  NoDup (treenode_ids x) → neuron2nx x = Ok g →
  g = {| g_nodes := treenode_ids x; g_edges := parent_edges (nodes x) |}.
Proof.
  intros Hnd. unfold neuron2nx.
  destruct (forallb _ _) eqn:Hall; [|done]. intros [= <-].
  unfold add_nodes_from. cbn [g_nodes g_edges].
  rewrite (add_new_fresh [] (treenode_ids x)) by done. simpl.
  rewrite add_edges_from_known; [done| |].
  - simpl. by apply parent_edges_NoDup.
  - simpl. apply Forall_forall. intros [c p] Hin. simpl. split.
    + apply parent_edges_elem in Hin as (r & Hr & <- & _).
      by apply list_elem_of_fmap_2.
    + rewrite forallb_forall in Hall.
      apply list_elem_of_In, Hall in Hin.
      by apply bool_decide_eq_true in Hin.
Qed.

Lemma filter_fst_unique {B} (l : list (Z * B)) (a : Z) (b : B) :
  NoDup l.*1 → (a, b) ∈ l → filter (λ e : Z * B, e.1 = a) l = [(a, b)].
Proof.
  induction l as [|[a' b'] l IH]; [by intros _ ?%elem_of_nil|].
  rewrite fmap_cons. intros [Hfresh Hnd]%NoDup_cons Hin.
  rewrite filter_cons. cbn [fst] in *.
  apply elem_of_cons in Hin as [[= <- <-]|Hin].
  - rewrite decide_True by done. f_equal. apply filter_none.
    apply Forall_forall. intros [a'' b''] Hin. cbn [fst]. intros ->.
    apply Hfresh.
    by apply (list_elem_of_fmap_2 fst) in Hin.
  - rewrite decide_False; [by apply IH|].
    intros ->. apply Hfresh. by apply (list_elem_of_fmap_2 fst) in Hin.
Qed.

(** X23. The graph [neuron2nx] builds for a table with distinct treenode
    ids in which every parent has a row: the nodes are the treenode ids,
    there is exactly one edge for every row with a parent, pointing from
    the child to the parent, the edges into a node come from its child
    rows in table order, and the degree of a node is the number of its
    child rows, plus one when it has a parent. *)
Theorem neuron2nx_graph (x : Neuron) :
  NoDup (treenode_ids x) →
  (∀ r p, r ∈ nodes x → parent_id r = Some p → p ∈ treenode_ids x) →
  ∃ g, neuron2nx x = Ok g
       ∧ g_nodes g = treenode_ids x
       ∧ (∀ c p, (c, p) ∈ g_edges g ↔ is_parent_of (nodes x) c (Some p))
       ∧ (∀ t, (in_edges g t).*1 = treenode_id <$> child_rows (nodes x) t)
       ∧ (∀ r, r ∈ nodes x →
               degree g (treenode_id r)
               = Z.of_nat (length (child_rows (nodes x) (treenode_id r)))
                 + match parent_id r with Some _ => 1 | None => 0 end).
Proof.
  intros Hnd Hparents.
  assert (Hok : ∃ g, neuron2nx x = Ok g).
  { unfold neuron2nx.
    assert (forallb (λ e : Z * Z, bool_decide (e.2 ∈ treenode_ids x))
              (parent_edges (nodes x)) = true) as ->; [|by eexists].
    apply forallb_forall. intros [c p] Hin%list_elem_of_In.
    apply parent_edges_elem in Hin as (r & Hr & _ & Hp).
    apply bool_decide_eq_true_2. by eapply Hparents. }
  destruct Hok as [g Hg]. exists g. split; [done|].
  rewrite (neuron2nx_returns x g Hnd Hg). cbn [g_nodes g_edges].
  split; [done|]. split; [|split].
  - intros c p. apply parent_edges_elem.
  - intros t. unfold in_edges. cbn [g_edges]. apply parent_edges_into.
  - intros r Hr. unfold degree, in_edges, out_edges. cbn [g_edges].
    rewrite <- (length_fmap fst), parent_edges_into, length_fmap.
    f_equal. destruct (parent_id r) as [p|] eqn:Hp.
    + rewrite (filter_fst_unique _ (treenode_id r) p); [done| |].
      * by apply parent_edges_fst_NoDup.
      * apply parent_edges_elem. by exists r.
    + rewrite filter_none; [done|]. apply Forall_forall.
      intros [c p] Hin. cbn [fst]. intros ->.
      apply parent_edges_elem in Hin as (r' & Hr' & Hid & Hp').
      assert (r' = r) as ->; [|congruence].
      eapply rows_unique; eauto.
Qed.

Lemma neuron2nx_graph_witness :
  ∃ g, neuron2nx example_tree = Ok g
       ∧ g_nodes g = treenode_ids example_tree
       ∧ (∀ c p, (c, p) ∈ g_edges g
                 ↔ is_parent_of (nodes example_tree) c (Some p))
       ∧ (∀ t, (in_edges g t).*1
               = treenode_id <$> child_rows (nodes example_tree) t)
       ∧ (∀ r, r ∈ nodes example_tree →
               degree g (treenode_id r)
               = Z.of_nat
                   (length (child_rows (nodes example_tree) (treenode_id r)))
                 + match parent_id r with Some _ => 1 | None => 0 end).
Proof.
  apply (neuron2nx_graph example_tree).
  - apply (bool_decide_unpack _). vm_compute. exact I.
  - intros r p Hr Hp.
    each_row Hr ltac:(
      simpl in Hp;
      first [discriminate Hp
            |injection Hp as <-;
             apply (bool_decide_unpack _); vm_compute; exact I]).
Defined.

Lemma sum_pairs_from (f g : Z → Z) (before l : list Z) (acc : Z) :
  foldl (λ flow '(a, b), flow + f a * g b) acc (pairs_from before l)
  = acc
    + sum_list (f <$> l) * (sum_list (g <$> before) + sum_list (g <$> l))
    - sum_list ((λ c, f c * g c) <$> l).
Proof.
  revert before acc. induction l as [|a l IH]; intros before acc.
  - unfold sum_list. simpl. lia.
  - cbn [pairs_from]. rewrite foldl_app, IH.
    assert (Hrow : ∀ bs acc0,
              foldl (λ flow '(a0, b), flow + f a0 * g b) acc0
                ((λ b, (a, b)) <$> bs)
              = acc0 + f a * sum_list (g <$> bs)).
    { clear. unfold sum_list.
      induction bs as [|b bs IH]; intros acc0; simpl; [lia|].
      rewrite IH. change (list_fmap Z Z g bs) with (g <$> bs). lia. }
    rewrite Hrow, !fmap_app, !fmap_cons.
    assert (Happ : ∀ l1 l2, sum_list (l1 ++ l2) = sum_list l1 + sum_list l2).
    { clear. unfold sum_list. induction l1 as [|v l1 IH]; intros l2; simpl;
        [done|]. rewrite IH. lia. }
    rewrite !Happ. unfold sum_list. cbn [foldr fmap list_fmap]. lia.
Qed.

Section bending_more.
Context (core : Core) (core_graph : CoreGraph).

Lemma add_root_branch_points_forked (y : Neuron) (bp : list Z) (r : Z) :
  r ∈ root_ids y → 1 < degree (graph y) r →
  add_root_branch_points y bp = Raise TypeError.
Proof.
  unfold add_root_branch_points. generalize (root_ids y).
  induction l as [|r' l IH]; [by intros ?%elem_of_nil|].
  intros Hin Hdeg. simpl. case_bool_decide; [done|].
  apply elem_of_cons in Hin as [->|Hin]; [done|]. by apply IH.
Qed.

Lemma add_root_branch_points_unforked (y : Neuron) (bp : list Z) :
  (∀ r, r ∈ root_ids y → degree (graph y) r ≤ 1) →
  add_root_branch_points y bp = Ok bp.
Proof.
  unfold add_root_branch_points. generalize (root_ids y).
  induction l as [|r' l IH]; [done|].
  intros Hall. simpl. rewrite bool_decide_eq_false_2.
  - apply IH. intros r Hr. by apply Hall, list_elem_of_further.
  - specialize (Hall r' (list_elem_of_here _ _)). lia.
Qed.

Lemma branch_flow_value (y : Neuron) (polypre : option (Z → Z))
    (childs : list Z) :
  branch_flow y polypre childs = bending_at y polypre childs.
Proof.
  unfold branch_flow, bending_at, permutations2.
  rewrite (sum_pairs_from (bending_post y) (bending_pre y polypre)).
  unfold sum_list at 2. simpl. lia.
Qed.

(** X24. [bending_flow] cannot process a neuron whose root forks: when,
    after downsampling, a root has two different child rows, the call
    fails with [TypeError] instead of treating the root as a branch
    point. *)
Theorem bending_flow_forked_root (x : Neuron)
    (polypre : option (list ConnectorDetails)) (r : Z) (c1 c2 : Node) :
  let y := downsample x 1000000 in
  NoDup (treenode_ids y) → neuron2nx y = Ok (graph y) →
  r ∈ root_ids y →
  c1 ∈ child_rows (nodes y) r → c2 ∈ child_rows (nodes y) r → c1 ≠ c2 →
  bending_flow x polypre = Raise TypeError.
Proof.
  intros y Hnd Hg Hr H1 H2 Hne. unfold bending_flow. fold y.
  rewrite (add_root_branch_points_forked y _ r); [done..|].
  rewrite (neuron2nx_returns y _ Hnd Hg).
  unfold degree, in_edges. cbn [g_edges].
  rewrite <- (length_fmap fst), parent_edges_into, length_fmap.
  assert (2 ≤ length (child_rows (nodes y) r))%nat; [|lia].
  revert H1 H2 Hne. generalize (child_rows (nodes y) r).
  intros [|a [|b l]] Ha Hb Hab; simpl; [|exfalso|lia].
  - by apply elem_of_nil in Ha.
  - apply list_elem_of_singleton in Ha, Hb. congruence.
Qed.

(** X25. With the default [polypre=False], when no root of the downsampled
    neuron forks and its branch points are rows of the neuron,
    [bending_flow] returns, and the column it writes holds a value exactly
    at the branch points: the product of the postsynaptic and the
    presynaptic counts summed over the children of the branch point, less
    the products of the two counts of each child on its own. *)
Theorem bending_flow_branch_points (x : Neuron) :
  let y := downsample x 1000000 in
  (∀ r, r ∈ root_ids y → degree (graph y) r ≤ 1) →
  (∀ t, t ∈ ids_of_type branch (nodes y) → t ∈ treenode_ids x) →
  bending_flow x None
  = Ok ((λ r, if bool_decide (treenode_id r ∈ ids_of_type branch (nodes y))
              then Some (bending_at y None
                           (in_edges (graph y) (treenode_id r)).*1)
              else None) <$> nodes x).
Proof.
  intros y Hroots Hrows. unfold bending_flow. fold y.
  rewrite add_root_branch_points_unforked by done.
  cbn [polypre_partners]. cbv zeta.
  set (g := λ t, bending_at y None (in_edges (graph y) t).*1).
  assert (Hflow : ((λ '(bp, childs), (bp, branch_flow y None childs))
                     <$> bp_childs y (ids_of_type branch (nodes y)))
                  = dict_comprehension g (ids_of_type branch (nodes y))).
  { unfold bp_childs, dict_comprehension. rewrite <- list_fmap_compose.
    apply list_fmap_ext. intros i t _. simpl. f_equal.
    apply branch_flow_value. }
  rewrite Hflow, comprehension_keys, comprehension_values.
  rewrite set_column_comprehension.
  - f_equal. apply list_fmap_ext. intros i r _. cbv beta.
    rewrite (bool_decide_ext _ _ (elem_of_unique _ _)). done.
  - intros k Hk'. apply Hrows. by apply elem_of_unique.
Qed.
End bending_more.

Lemma bending_flow_forked_root_witness :
  @bending_flow reference_core reference_graph example_forked_root None
  = Raise TypeError.
Proof.
  apply (bending_flow_forked_root reference_core reference_graph
           example_forked_root None 1
           (mk_node 2 (Some 1) end_node) (mk_node 3 (Some 1) end_node)).
  - apply (bool_decide_unpack _). vm_compute. exact I.
  - vm_compute. reflexivity.
  - apply (bool_decide_unpack _). vm_compute. exact I.
  - apply list_elem_of_filter. split; [reflexivity|].
    apply list_elem_of_further, list_elem_of_here.
  - apply list_elem_of_filter. split; [reflexivity|].
    do 2 apply list_elem_of_further. apply list_elem_of_here.
  - discriminate.
Defined.

Lemma bending_flow_branch_points_witness :
  @bending_flow reference_core reference_graph example_neuron None
  = Ok [None; Some 1; None; Some 1; None; None].
Proof.
  rewrite (bending_flow_branch_points reference_core reference_graph
             example_neuron).
  - vm_compute. reflexivity.
  - intros r Hr. change (r ∈ [1]) in Hr.
    apply list_elem_of_singleton in Hr as ->. vm_compute. discriminate.
  - intros t Ht. change (t ∈ [2; 4]) in Ht.
    each_row Ht ltac:(apply (bool_decide_unpack _); vm_compute; exact I).
Defined.

(** ** All paths between two vertices *)

Lemma for_list_returns {A B} (f : A → res B) (l : list A) :
  (∀ a, a ∈ l → ∃ b, f a = Ok b) → ∃ bs, for_list f l = Ok bs.
Proof.
  induction l as [|a l IH]; intros Hf; simpl; [by eexists|].
  destruct (Hf a) as [b ->]; [apply list_elem_of_here|].
  destruct IH as [bs ->]; [|by eexists].
  intros a' Ha'. by apply Hf, list_elem_of_further.
Qed.

Lemma for_list_elem {A B} (f : A → res B) (l : list A) (bs : list B) (a : A) :
  for_list f l = Ok bs → a ∈ l → ∃ b, f a = Ok b ∧ b ∈ bs.
Proof.
  intros Hrun%for_list_Forall2 Ha.
  apply list_elem_of_lookup in Ha as [i Hi].
  destruct (Forall2_lookup_l _ _ _ _ _ Hrun Hi) as (b & Hb & Hfa).
  exists b. split; [done|]. by eapply list_elem_of_lookup_2.
Qed.

Lemma for_list_elem_inv {A B} (f : A → res B) (l : list A) (bs : list B)
    (b : B) :
  for_list f l = Ok bs → b ∈ bs → ∃ a, a ∈ l ∧ f a = Ok b.
Proof.
  intros Hrun%for_list_Forall2 Hb.
  apply list_elem_of_lookup in Hb as [i Hi].
  destruct (Forall2_lookup_r _ _ _ _ _ Hrun Hi) as (a & Ha & Hfa).
  exists a. split; [|done]. by eapply list_elem_of_lookup_2.
Qed.

Lemma elem_of_concat {A} (ls : list (list A)) (a : A) :
  a ∈ concat ls ↔ ∃ l, l ∈ ls ∧ a ∈ l.
Proof.
  rewrite list_elem_of_In, in_concat. split.
  - intros (l & Hl & Ha). exists l. by rewrite !list_elem_of_In.
  - intros (l & Hl & Ha). exists l. by rewrite <- !list_elem_of_In.
Qed.

Lemma find_all_paths_aux_step fuel adjlist start end_ path maxlen :
  find_all_paths_aux (S fuel) adjlist start end_ path maxlen
  = if bool_decide (start = end_) then Ok [path ++ [start]]
    else if may_extend maxlen (path ++ [start]) then
      let! nbrs := py_index adjlist start in
      let! found :=
        for_list
          (λ node, find_all_paths_aux fuel adjlist node end_
                     (path ++ [start]) maxlen)
          (filter (λ node, node ∉ path ++ [start]) nbrs) in
      Ok (concat found)
    else Ok [].
Proof. reflexivity. Qed.

Lemma find_all_paths_aux_sound fuel adjlist end_ maxlen :
  ∀ start path ps p,
    find_all_paths_aux fuel adjlist start end_ path maxlen = Ok ps →
    start ∉ path → p ∈ ps →
    ∃ ext, p = path ++ ext ∧ head ext = Some start ∧ last ext = Some end_
           ∧ is_walk adjlist ext ∧ NoDup ext ∧ (∀ v, v ∈ ext → v ∉ path)
           ∧ ∀ m, maxlen = Some m →
                  Z.of_nat (length path) ≤ Z.max m 0 →
                  Z.of_nat (length p) ≤ Z.max m 0 + 1.
Proof.
  induction fuel as [|fuel IH]; intros start path ps p; [done|].
  rewrite find_all_paths_aux_step. intros Hrun Hfresh Hp.
  case_bool_decide as Hend.
  - injection Hrun as <-. apply list_elem_of_singleton in Hp as ->.
    exists [start]. subst end_. repeat split; try done.
    + apply NoDup_singleton.
    + by intros v ->%list_elem_of_singleton.
    + intros m _ Hlen. rewrite length_app. simpl. lia.
  - destruct (may_extend maxlen (path ++ [start])) eqn:Hext;
      [|injection Hrun as <-; by apply elem_of_nil in Hp].
    destruct (py_index adjlist start) as [nbrs| |] eqn:Hnbrs; try done.
    destruct (for_list _ _) as [found| |] eqn:Hfound; try done.
    injection Hrun as <-.
    apply elem_of_concat in Hp as (l & Hl & Hp).
    destruct (for_list_elem_inv _ _ _ _ Hfound Hl) as (node & Hnode & Hsub).
    apply list_elem_of_filter in Hnode as [Hnew Hnode].
    destruct (IH node (path ++ [start]) l p Hsub Hnew Hp)
      as (ext & -> & Hhead & Hlast & Hwalk & Hnd & Hdisj & Hlen).
    exists (start :: ext). rewrite <- app_assoc. split; [done|].
    destruct ext as [|b ext]; [done|]. injection Hhead as ->.
    repeat split.
    + done.
    + by exists nbrs.
    + done.
    + apply NoDup_cons. split; [|done].
      intros Hin. apply (Hdisj start Hin), elem_of_app. right.
      apply list_elem_of_here.
    + intros v [->|Hv]%elem_of_cons; [done|].
      intros Hin. apply (Hdisj v Hv), elem_of_app. by left.
    + intros m -> _. rewrite app_assoc. apply (Hlen m eq_refl).
      simpl in Hext. apply bool_decide_eq_true in Hext. lia.
Qed.

Lemma find_all_paths_aux_complete fuel adjlist end_ maxlen :
  ∀ start path ps ext,
    find_all_paths_aux fuel adjlist start end_ path maxlen = Ok ps →
    head ext = Some start → last ext = Some end_ →
    is_walk adjlist ext → NoDup ext → (∀ v, v ∈ ext → v ∉ path) →
    (∀ m, maxlen = Some m →
          Z.of_nat (length (path ++ ext)) ≤ m + 1 ∨ ext = [end_]) →
    path ++ ext ∈ ps.
Proof.
  induction fuel as [|fuel IH]; intros start path ps ext; [done|].
  rewrite find_all_paths_aux_step.
  intros Hrun Hhead Hlast Hwalk Hnd Hdisj Hlen.
  destruct ext as [|a rest]; [done|]. injection Hhead as ->.
  apply NoDup_cons in Hnd as [Hstart Hnd].
  case_bool_decide as Hend.
  - subst end_. injection Hrun as <-.
    destruct rest as [|b rest]; [apply list_elem_of_here|].
    exfalso. apply Hstart. rewrite last_cons_cons in Hlast.
    by apply last_Some_elem_of.
  - destruct rest as [|b rest]; [simpl in Hlast; congruence|].
    destruct Hwalk as [(nbrs & Hnbrs & Hb) Hwalk].
    assert (Hext : may_extend maxlen (path ++ [start]) = true).
    { destruct maxlen as [m|]; [|done]. simpl.
      apply bool_decide_eq_true_2.
      destruct (Hlen m eq_refl) as [Hle|[=]].
      rewrite !length_app in *. simpl in *. lia. }
    rewrite Hext, Hnbrs in Hrun.
    destruct (for_list _ _) as [found| |] eqn:Hfound; try done.
    injection Hrun as <-.
    assert (Hnew : b ∈ filter (λ node, node ∉ path ++ [start]) nbrs).
    { apply list_elem_of_filter. split; [|done].
      intros [Hin| ->%list_elem_of_singleton]%elem_of_app.
      - apply (Hdisj b); [|done]. apply list_elem_of_further, list_elem_of_here.
      - apply Hstart, list_elem_of_here. }
    destruct (for_list_elem _ _ _ _ Hfound Hnew) as (l & Hsub & Hl).
    apply elem_of_concat. exists l. split; [done|].
    replace (path ++ start :: b :: rest)
      with ((path ++ [start]) ++ b :: rest) by by rewrite <- app_assoc.
    apply (IH b (path ++ [start]) l (b :: rest) Hsub); try done.
    + intros v Hv [Hin| ->%list_elem_of_singleton]%elem_of_app.
      * apply (Hdisj v); [|done]. by apply list_elem_of_further.
      * done.
    + intros m Hm. left. destruct (Hlen m Hm) as [Hle|[=]].
      by rewrite <- app_assoc.
Qed.

Lemma valid_vertices_length (n : nat) (l : list Z) :
  NoDup l → (∀ v, v ∈ l → 0 ≤ v < Z.of_nat n) → (length l ≤ n)%nat.
Proof.
  intros Hnd Hvalid.
  assert (Hsub : l ⊆+ seqZ 0 (Z.of_nat n)).
  { apply NoDup_submseteq; [done|]. intros v Hv. apply elem_of_seqZ.
    specialize (Hvalid v Hv). lia. }
  apply submseteq_length in Hsub. rewrite length_seqZ in Hsub.
  by rewrite Nat2Z.id in Hsub.
Qed.

Lemma py_index_valid {A} (t : list A) (i : Z) :
  0 ≤ i < Z.of_nat (length t) → ∃ a, py_index t i = Ok a ∧ a ∈ t.
Proof.
  intros Hi. unfold py_index. cbv zeta.
  rewrite (bool_decide_eq_false_2 (i < 0)) by lia.
  rewrite bool_decide_eq_true_2 by lia.
  destruct (lookup_lt_is_Some_2 t (Z.to_nat i)) as [a Ha]; [lia|].
  rewrite Ha. exists a. split; [done|]. by eapply list_elem_of_lookup_2.
Qed.

Lemma find_all_paths_aux_returns adjlist end_ maxlen :
  (∀ nbrs b, nbrs ∈ adjlist → b ∈ nbrs →
             0 ≤ b < Z.of_nat (length adjlist)) →
  ∀ fuel start path,
    NoDup path → (∀ v, v ∈ path → 0 ≤ v < Z.of_nat (length adjlist)) →
    0 ≤ start < Z.of_nat (length adjlist) → start ∉ path →
    (length adjlist < fuel + length path)%nat →
    ∃ ps, find_all_paths_aux fuel adjlist start end_ path maxlen = Ok ps.
Proof.
  intros Hadj.
  induction fuel as [|fuel IH]; intros start path Hnd Hvalid Hs Hfresh Hfuel.
  - exfalso.
    assert (length (path ++ [start]) ≤ length adjlist)%nat.
    { apply valid_vertices_length.
      - apply NoDup_app. split; [done|]. split; [|apply NoDup_singleton].
        by intros v Hv ->%list_elem_of_singleton.
      - intros v [Hv| ->%list_elem_of_singleton]%elem_of_app; [|done].
        by apply Hvalid. }
    rewrite length_app in *. simpl in *. lia.
  - rewrite find_all_paths_aux_step.
    case_bool_decide; [by eexists|].
    destruct (may_extend _ _); [|by eexists].
    destruct (py_index_valid adjlist start Hs) as (nbrs & -> & Hnbrs).
    destruct (for_list_returns
                (λ node, find_all_paths_aux fuel adjlist node end_
                           (path ++ [start]) maxlen)
                (filter (λ node, node ∉ path ++ [start]) nbrs))
      as [found ->]; [|by eexists].
    intros node [Hnew Hnode]%list_elem_of_filter. apply IH.
    + apply NoDup_app. split; [done|]. split; [|apply NoDup_singleton].
      by intros v Hv ->%list_elem_of_singleton.
    + intros v [Hv| ->%list_elem_of_singleton]%elem_of_app; [|done].
      by apply Hvalid.
    + by eapply Hadj.
    + done.
    + rewrite length_app. simpl. lia.
Qed.

Lemma adjacency_length (g : IGraph) (mode : string) :
  Z.of_nat (length (adjacency g mode)) = Z.max (vcount g) 0.
Proof. unfold adjacency. rewrite length_fmap, length_seqZ. lia. Qed.

Lemma adjacency_valid (g : IGraph) (mode : string) (nbrs : list Z) (b : Z) :
  neighbors_valid g mode → nbrs ∈ adjacency g mode → b ∈ nbrs →
  0 ≤ b < Z.of_nat (length (adjacency g mode)).
Proof.
  intros Hvalid (a & -> & Ha%elem_of_seqZ)%list_elem_of_fmap Hb.
  rewrite elem_of_unique in Hb. rewrite adjacency_length.
  assert (0 ≤ b < vcount g); [|lia]. apply (Hvalid a b); [lia|done].
Qed.

(** X26. The paths returned by [_find_all_paths] are exactly the paths
    that lead from one of the start vertices to one of the end vertices
    along the adjacency lists without visiting a vertex twice and, when
    [maxlen] is given, have at most [maxlen] edges; a start vertex that is
    also an end vertex counts as a path whatever [maxlen] is. *)
Theorem find_all_paths_characterised (fuel : nat) (g : IGraph)
    (start end_ : vertex_arg) (mode : string) (maxlen : option Z)
    (ps : list (list Z)) :
  _find_all_paths fuel g start end_ mode maxlen = Ok ps →
  ∀ p, p ∈ ps
       ↔ ∃ s e, s ∈ as_list start ∧ e ∈ as_list end_
                ∧ simple_path (adjacency g mode) s e p
                ∧ within_maxlen maxlen p.
Proof.
  unfold _find_all_paths. intros Hrun p.
  destruct (for_list _ _) as [found| |] eqn:Hfound; try done.
  injection Hrun as <-. split.
  - intros (l & Hl & Hp)%elem_of_concat.
    destruct (for_list_elem_inv _ _ _ _ Hfound Hl) as (s & Hs & Hsub).
    destruct (for_list _ (as_list end_)) as [per_end| |] eqn:Hper; try done.
    injection Hsub as <-.
    apply elem_of_concat in Hp as (l' & Hl' & Hp).
    destruct (for_list_elem_inv _ _ _ _ Hper Hl') as (e & He & Hsub).
    destruct (find_all_paths_aux_sound _ _ _ _ _ _ _ _ Hsub
                ltac:(by intros ?%elem_of_nil) Hp)
      as (ext & -> & Hhead & Hlast & Hwalk & Hnd & _ & Hlen).
    exists s, e. repeat split; try done.
    unfold within_maxlen. destruct maxlen as [m|]; [|done].
    apply (Hlen m eq_refl). simpl. lia.
  - intros (s & e & Hs & He & (Hhead & Hlast & Hnd & Hwalk) & Hlen).
    destruct (for_list_elem _ _ _ _ Hfound Hs) as (l & Hsub & Hl).
    apply elem_of_concat. exists l. split; [done|].
    destruct (for_list _ (as_list end_)) as [per_end| |] eqn:Hper; try done.
    injection Hsub as <-.
    destruct (for_list_elem _ _ _ _ Hper He) as (l' & Hsub & Hl').
    apply elem_of_concat. exists l'. split; [done|].
    apply (find_all_paths_aux_complete _ _ _ _ _ [] _ p Hsub); try done.
    + by intros v _ ?%elem_of_nil.
    + intros m ->. simpl in *.
      destruct (decide (0 ≤ m)) as [Hm|Hm]; [left; lia|]. right.
      destruct p as [|a [|b p]]; simpl in *; [done| |lia]. congruence.
Qed.

Lemma find_all_paths_characterised_witness :
  _find_all_paths 5 example_igraph (Vertex 0) (Vertex 3) "ALL" None
  = Ok [[0; 1; 2; 3]; [0; 1; 3]; [0; 2; 1; 3]; [0; 2; 3]]
  ∧ ([0; 2; 1; 3] ∈ [[0; 1; 2; 3]; [0; 1; 3]; [0; 2; 1; 3]; [0; 2; 3]]
     ↔ ∃ s e, s ∈ [0] ∧ e ∈ [3]
              ∧ simple_path (adjacency example_igraph "ALL") s e [0; 2; 1; 3]
              ∧ within_maxlen None [0; 2; 1; 3]).
Proof.
  split; [vm_compute; reflexivity|].
  apply (find_all_paths_characterised 5 example_igraph (Vertex 0) (Vertex 3)
           "ALL" None).
  vm_compute. reflexivity.
Defined.

(** X27. [_find_all_paths] terminates: when the neighbours listed by the
    graph are vertices of the graph and so are the start vertices, the
    search returns, its recursion being no deeper than the number of
    vertices plus one. *)
Theorem find_all_paths_returns (fuel : nat) (g : IGraph)
    (start end_ : vertex_arg) (mode : string) (maxlen : option Z) :
  neighbors_valid g mode →
  (∀ s, s ∈ as_list start → 0 ≤ s < vcount g) →
  (Z.to_nat (vcount g) < fuel)%nat →
  ∃ ps, _find_all_paths fuel g start end_ mode maxlen = Ok ps.
Proof.
  intros Hvalid Hstart Hfuel. unfold _find_all_paths.
  destruct (for_list_returns
              (λ s, let! per_end :=
                      for_list
                        (λ e, find_all_paths_aux fuel (adjacency g mode) s e
                                [] maxlen)
                        (as_list end_) in
                    Ok (concat per_end))
              (as_list start)) as [found ->]; [|by eexists].
  intros s Hs.
  destruct (for_list_returns
              (λ e, find_all_paths_aux fuel (adjacency g mode) s e [] maxlen)
              (as_list end_)) as [per_end ->]; [|by eexists].
  intros e _. pose proof (adjacency_length g mode) as Hlen.
  specialize (Hstart s Hs).
  apply find_all_paths_aux_returns.
  - intros nbrs b. by apply adjacency_valid.
  - constructor.
  - by intros v ?%elem_of_nil.
  - lia.
  - by intros ?%elem_of_nil.
  - simpl. lia.
Qed.

Lemma find_all_paths_returns_witness :
  ∃ ps, _find_all_paths 5 example_igraph (VertexList [0; 1]) (Vertex 3) "ALL"
          (Some 2) = Ok ps.
Proof.
  apply find_all_paths_returns.
  - intros a b Ha Hb.
    assert (a = 0 ∨ a = 1 ∨ a = 2 ∨ a = 3) as Hcases by (simpl in Ha; lia).
    destruct Hcases as [->|[->|[->| ->]]]; simpl in Hb;
      each_row Hb ltac:(simpl; lia).
  - intros s Hs. simpl in Hs. each_row Hs ltac:(simpl; lia).
  - simpl. lia.
Defined.

(** X28. A start vertex outside the graph is only tolerated when it is
    the end vertex as well: otherwise, unless [maxlen] forbids any step,
    looking up its neighbours fails with [IndexError]. *)
Theorem find_all_paths_unknown_start (fuel : nat) (g : IGraph) (s e : Z)
    (mode : string) (maxlen : option Z) :
  ¬ (- Z.max (vcount g) 0 ≤ s < Z.max (vcount g) 0) →
  (∀ m, maxlen = Some m → 1 ≤ m) →
  _find_all_paths (S fuel) g (Vertex s) (Vertex e) mode maxlen
  = if bool_decide (s = e) then Ok [[s]] else Raise IndexError.
Proof.
  intros Hs Hm. unfold _find_all_paths. cbn [as_list for_list].
  rewrite find_all_paths_aux_step. case_bool_decide; [done|].
  assert (may_extend maxlen ([] ++ [s]) = true) as ->.
  { destruct maxlen as [m|]; [|done]. simpl. apply bool_decide_eq_true_2.
    specialize (Hm m eq_refl). lia. }
  assert (py_index (adjacency g mode) s = Raise IndexError) as ->; [|done].
  unfold py_index. cbv zeta. rewrite adjacency_length.
  destruct (bool_decide (s < 0)) eqn:Hneg.
  - apply bool_decide_eq_true in Hneg.
    rewrite bool_decide_eq_false_2; [done|lia].
  - apply bool_decide_eq_false in Hneg.
    rewrite bool_decide_eq_false_2; [done|lia].
Qed.

Lemma find_all_paths_unknown_start_witness :
  _find_all_paths 1 example_igraph (Vertex 7) (Vertex 3) "ALL" None
  = Raise IndexError.
Proof.
  apply (find_all_paths_unknown_start 0 example_igraph 7 3 "ALL" None).
  - simpl. lia.
  - done.
Defined.

(** ** Conditions *)

Lemma tilde_drop_first (i : string) :
  startswith_tilde i = true → ("~" +:+ drop_first i)%string = i.
Proof.
  destruct i as [|c rest]; [done|]. unfold startswith_tilde.
  cbn [String.prefix drop_first].
  destruct (Ascii.ascii_dec _ c) as [<-|_]; done.
Qed.

(** X29. [_eval_conditions] loses nothing and keeps the order: the
    conditions passed in are the positive ones, unchanged, interleaved with
    the negative ones with their tilde put back, each of the two lists in
    the order of the input; and no positive condition starts with a
    tilde. *)
Theorem eval_conditions_partition (x : conditions_arg) :
  let '(positive, negative) := _eval_conditions x in
  interleaved positive (String.append "~" <$> negative) (_make_iterable x)
  ∧ Forall (λ i, startswith_tilde i = false) positive.
Proof.
  unfold _eval_conditions. generalize (_make_iterable x). intros l. split.
  - induction l as [|i l IH]; [constructor|].
    rewrite !filter_cons. destruct (startswith_tilde i) eqn:Hi.
    + rewrite decide_False, decide_True by done.
      rewrite !fmap_cons.
      pose proof (tilde_drop_first i Hi) as Hback.
      change (String.append "~" (drop_first i) = i) in Hback.
      rewrite Hback. by constructor.
    + rewrite decide_True, decide_False by done. by constructor.
  - apply Forall_forall. by intros i [Hi _]%list_elem_of_filter.
Qed.

(** A condition and two negated ones. *)
Example eval_conditions_example :
  _eval_conditions (Conditions ["~glia"; "KC"; "~~x"])
  = (["KC"], ["glia"; "~x"])%string.
Proof. reflexivity. Qed.
